(** * local-ai-storyteller: the browser client [web/app.js]

    A shallow embedding of the client script: the streaming typewriter
    (module-level variables [streamQueue], [streamTimer], [streamRendered],
    [pendingFinalStory], [pendingFinalizeFn] and the functions around them),
    the choice extraction of [renderStory], [extractErrorMessage], the line
    loop of [streamNdjson] and the entry of [sendAction].

    JavaScript strings are sequences of UTF-16 code units; they are lists of
    [N] here.  Module-level variables and the parts of the page the script
    touches are fields of one [state] record, threaded explicitly.  The two
    closures the script stores ([pendingFinalizeFn], the [onUpdate] argument)
    are defunctionalised: each creation site is a constructor, and a [call_*]
    function holds the body. *)

From Stdlib Require Import Ascii String.
From Stdlib Require Import List Sorted NArith PArith Arith Bool Lia.
Import ListNotations.
Open Scope list_scope.
Set Warnings "-register-all".


(* ================================================================= *)
(** ** JavaScript strings *)

Definition char := N.
Definition jsstring := list char.

Definition ch (a : ascii) : char := N_of_ascii a.

(** A literal; only used on ASCII text. *)
Definition str (s : string) : jsstring := map ch (list_ascii_of_string s).
Arguments str s%_string.
Arguments ch a%_char.

Definition LF : char := 10%N.

(** ECMAScript [LineTerminator]. *)
Definition isLineTerminator (c : char) : bool :=
  (c =? 0x0A)%N || (c =? 0x0D)%N || (c =? 0x2028)%N || (c =? 0x2029)%N.

(** ECMAScript [WhiteSpace]: TAB, VT, FF, ZWNBSP and the category Zs. *)
Definition isWhiteSpace (c : char) : bool :=
  (c =? 0x09)%N || (c =? 0x0B)%N || (c =? 0x0C)%N || (c =? 0x20)%N
  || (c =? 0xA0)%N || (c =? 0x1680)%N
  || ((0x2000 <=? c)%N && (c <=? 0x200A)%N)
  || (c =? 0x202F)%N || (c =? 0x205F)%N || (c =? 0x3000)%N || (c =? 0xFEFF)%N.

(** What [String.prototype.trim] strips and what [\s] matches. *)
Definition isSpace (c : char) : bool := isWhiteSpace c || isLineTerminator c.

(** Truthiness of a string: [""] is falsy. *)
Definition truthy (s : jsstring) : bool :=
  match s with [] => false | _ :: _ => true end.

Fixpoint trimStart (s : jsstring) : jsstring :=
  match s with
  | [] => []
  | c :: r => if isSpace c then trimStart r else s
  end.

Definition trimEnd (s : jsstring) : jsstring := rev (trimStart (rev s)).

Definition trim (s : jsstring) : jsstring := trimEnd (trimStart s).

(** [s.slice(0, n)] and [s.slice(n)] for [0 <= n]. *)
Definition slice_to (n : nat) (s : jsstring) : jsstring := firstn n s.
Definition slice_from (n : nat) (s : jsstring) : jsstring := skipn n s.

(** [s.indexOf("\n")]: [None] stands for [-1]. *)
Fixpoint indexOf (c : char) (s : jsstring) : option nat :=
  match s with
  | [] => None
  | d :: r => if (d =? c)%N then Some 0 else option_map S (indexOf c r)
  end.

(** [s.split("\n")]. *)
Fixpoint split (sep : char) (s : jsstring) : list jsstring :=
  match s with
  | [] => [[]]
  | c :: r =>
      if (c =? sep)%N then [] :: split sep r
      else match split sep r with
           | l :: ls => (c :: l) :: ls
           | [] => [[c]]
           end
  end.

(** [x || ""] for a property that is a string or missing. *)
Definition or_empty (o : option jsstring) : jsstring :=
  match o with Some s => s | None => [] end.

(** [x || d] for a property that is a string or missing. *)
Definition or_default (o : option jsstring) (d : jsstring) : jsstring :=
  match o with
  | Some s => if truthy s then s else d
  | None => d
  end.

(* ================================================================= *)
(** ** [extractErrorMessage] *)

(** The values [JSON.parse] returns.  An object is its list of own
    properties, the last binding of a key winning as in [JSON.parse]. *)
Inductive json :=
| JNull
| JBool (b : bool)
| JNumber (n : N)
| JString (s : jsstring)
| JArray (l : list json)
| JObject (props : list (jsstring * json)).

Definition jsstring_eqb (a b : jsstring) : bool :=
  if list_eq_dec N.eq_dec a b then true else false.

Fixpoint lookup (k : jsstring) (props : list (jsstring * json)) : option json :=
  match props with
  | [] => None
  | (k', v) :: r =>
      match lookup k r with
      | Some w => Some w
      | None => if jsstring_eqb k' k then Some v else None
      end
  end.

(** [obj && typeof obj.k === "string"], giving [obj.k].  [null] and [""] are
    falsy; numbers, booleans, non-empty strings and arrays have no property
    [detail] or [message]. *)
Definition string_property (obj : json) (k : jsstring) : option jsstring :=
  match obj with
  | JObject props =>
      match lookup k props with
      | Some (JString s) => Some s
      | _ => None
      end
  | _ => None
  end.

Definition REQUEST_FAILED : jsstring := str "Request failed.".

Section ExtractErrorMessage.

(** [JSON.parse]: [None] when it throws [SyntaxError]. *)
Variable JSON_parse : jsstring -> option json.

Definition extractErrorMessage (text : jsstring) : jsstring :=
  let fallback := if truthy (trim text) then trim text else REQUEST_FAILED in
  match JSON_parse text with
  | Some obj =>
      match string_property obj (str "detail") with
      | Some d => d
      | None =>
          match string_property obj (str "message") with
          | Some m => m
          | None => fallback
          end
      end
  | None => fallback
  end.

End ExtractErrorMessage.

(* ================================================================= *)
(** ** [renderStory]: transcript and choices *)

(** Number of leading characters [\s] matches. *)
Fixpoint spaces (s : jsstring) : nat :=
  match s with
  | [] => 0
  | c :: r => if isSpace c then S (spaces r) else 0
  end.

(** [1\.\s+] at the head of [s]: the length of the match.  [\s+] is greedy
    and nothing follows it, so the match takes the whole run. *)
Definition marker (s : jsstring) : option nat :=
  match s with
  | c1 :: c2 :: r =>
      if (c1 =? ch "1")%N && (c2 =? ch ".")%N then
        match spaces r with
        | 0 => None
        | S n => Some (2 + S n)
        end
      else None
  | _ => None
  end.

(** A match of [/(^|\n)1\.\s+/] : [match.index], [match[1]] and the length
    of [match[0]]. *)
Record rmatch := { m_index : nat; m_group1 : jsstring; m_length : nat }.

(** The regular expression tried at position [j], where [s] is the input
    from [j] on.  Without the [m] flag [^] holds at position 0 only; the
    alternative [^] is tried before [\n]. *)
Definition marker_at (j : nat) (s : jsstring) : option rmatch :=
  match (if j =? 0 then marker s else None) with
  | Some n => Some {| m_index := j; m_group1 := []; m_length := n |}
  | None =>
      match s with
      | c :: r =>
          if (c =? LF)%N then
            match marker r with
            | Some n => Some {| m_index := j; m_group1 := [LF]; m_length := 1 + n |}
            | None => None
            end
          else None
      | [] => None
      end
  end.

(** [re.exec(t)] with [re.lastIndex = j] and [s] the input from [j] on: the
    first position at or after [j] where the expression matches. *)
Fixpoint exec_from (j : nat) (s : jsstring) : option rmatch :=
  match marker_at j s with
  | Some m => Some m
  | None =>
      match s with
      | [] => None
      | _ :: r => exec_from (S j) r
      end
  end.

(** The loop [while ((match = re.exec(t)) !== null) lastMatchIndex = ...]:
    each round searches from the end of the previous match.  [None] stands
    for [-1]. *)
Fixpoint lastMatchLoop (fuel : nat) (t : jsstring) (lastIndex : nat)
    (lastMatchIndex : option nat) : option nat :=
  match fuel with
  | 0 => lastMatchIndex
  | S fuel' =>
      match exec_from lastIndex (slice_from lastIndex t) with
      | None => lastMatchIndex
      | Some m =>
          lastMatchLoop fuel' t (m_index m + m_length m)
            (Some (m_index m + (if truthy (m_group1 m) then length (m_group1 m) else 0)))
      end
  end.

(** A match is at least three characters long, so [length t] rounds are
    more than the loop can make. *)
Definition lastMatchIndex (t : jsstring) : option nat :=
  lastMatchLoop (S (length t)) t 0 None.

(** [(mainText, choicesText)] of [renderStory(text)]. *)
Definition splitStory (text : jsstring) : jsstring * jsstring :=
  let t := trim text in
  match lastMatchIndex t with
  | Some i => (trimEnd (slice_to i t), trim (slice_from i t))
  | None => (t, [])
  end.

Definition isChoiceDigit (c : char) : bool :=
  (ch "1" <=? c)%N && (c <=? ch "3")%N.

(** [/^[1-3]\.\s+/.test(l)]. *)
Definition choiceTest (l : jsstring) : bool :=
  match l with
  | d :: p :: r =>
      isChoiceDigit d && (p =? ch ".")%N && negb (spaces r =? 0)
  | _ => false
  end.

(** [l.match(re)] for the anchored expression of the [forEach] body: a
    digit 1-3 in group 1, a dot, [\s+], then group 2 (any run of [.]) up to
    [$].  It gives the groups [m[1]] and [m[2]].  [.] matches no line
    terminator and [$] holds at the end of the input only, so the match
    exists when nothing after the run of spaces is a line terminator;
    giving spaces back to group 2 cannot repair a failure. *)
Definition choiceMatch (l : jsstring) : option (char * jsstring) :=
  match l with
  | d :: p :: r =>
      if isChoiceDigit d && (p =? ch ".")%N && negb (spaces r =? 0) then
        let rest := skipn (spaces r) r in
        if existsb isLineTerminator rest then None else Some (d, rest)
      else None
  | _ => None
  end.

(** A choice button: its label ([btn.textContent]) and what a click puts in
    the action field ([m[2]]). *)
Record button := { b_label : jsstring; b_action : jsstring }.

Definition choiceButtons (choicesText : jsstring) : list button :=
  if truthy choicesText then
    let lines := filter truthy (map trim (split LF choicesText)) in
    let choiceLines := firstn 3 (filter choiceTest lines) in
    flat_map
      (fun line =>
         match choiceMatch line with
         | Some (_, payload) => [ {| b_label := line; b_action := payload |} ]
         | None => []
         end)
      choiceLines
  else [].

Definition NO_STORY : jsstring := str "No story yet. Click 'New Story' to begin.".

(** What the page shows in [storyEl]. *)
Inductive view :=
| Blank
| StoryView (transcript : jsstring) (buttons : list button)
| ProgressView (text : jsstring).

(** The transcript and the choices [renderStory(text)] puts on the page. *)
Definition extractChoices (text : jsstring) : jsstring * list jsstring :=
  (fst (splitStory text), map b_action (choiceButtons (snd (splitStory text)))).

Definition renderStory_view (text : jsstring) : view :=
  let (mainText, choicesText) := splitStory text in
  StoryView (if truthy mainText then mainText else NO_STORY)
            (choiceButtons choicesText).

(* ================================================================= *)
(** ** The page and the module-level variables *)

Definition STREAM_MS_PER_CHAR : nat := 14.

(** [Math.max(1, Math.floor(30 / ms))] for a positive period. *)
Definition take_for (ms : nat) : nat := Nat.max 1 (30 / ms).

Definition take : nat := take_for STREAM_MS_PER_CHAR.

(** A handle of [setInterval]: a positive integer, so [if (streamTimer)]
    tests for [null] only. *)
Definition handle := positive.

(** The function stored in [pendingFinalizeFn], by creation site (the
    [final] branch of the handler in [newStory], in [sendAction]). *)
Inductive finalizer := FinalizeNewStory | FinalizeTurn.

(** The [onUpdate] argument of [startTypewriter]: the script passes
    [(text) => renderStoryProgress(text)] at both call sites. *)
Inductive callback := ShowProgress.

(** An interval registered with the browser: the arrow function of
    [startTypewriter] with the [prefix] and [onUpdate] it closed over. *)
Record interval := {
  i_handle : handle;
  i_prefix : jsstring;
  i_onUpdate : callback
}.

(** What leaves the script, in order: calls of [onUpdate], calls of the
    stored finalize function (with [streamQueue] and [streamRendered] as
    they are when it is called), requests, and [actionEl.focus()]. *)
Inductive effect :=
| OnUpdate (text : jsstring)
| Finalize (fn : finalizer) (queue rendered : jsstring)
| Fetch (path : jsstring) (action : option jsstring)
| Focus.

Record state := {
  streamQueue : jsstring;
  streamTimer : option handle;
  streamRendered : jsstring;
  pendingFinalStory : option jsstring;
  pendingFinalizeFn : option finalizer;
  currentStoryText : jsstring;
  storyEl : view;
  actionEl_value : jsstring;
  sendBtn_disabled : bool;
  newBtn_disabled : bool;
  intervals : list interval;
  nextHandle : handle;
  trace : list effect
}.

Definition init : state := {|
  streamQueue := [];
  streamTimer := None;
  streamRendered := [];
  pendingFinalStory := None;
  pendingFinalizeFn := None;
  currentStoryText := [];
  storyEl := Blank;
  actionEl_value := [];
  sendBtn_disabled := false;
  newBtn_disabled := false;
  intervals := [];
  nextHandle := 1%positive;
  trace := []
|}.

Definition set_streamQueue (v : jsstring) (s : state) : state :=
  {| streamQueue := v; streamTimer := streamTimer s;
     streamRendered := streamRendered s;
     pendingFinalStory := pendingFinalStory s;
     pendingFinalizeFn := pendingFinalizeFn s;
     currentStoryText := currentStoryText s; storyEl := storyEl s;
     actionEl_value := actionEl_value s;
     sendBtn_disabled := sendBtn_disabled s;
     newBtn_disabled := newBtn_disabled s; intervals := intervals s;
     nextHandle := nextHandle s; trace := trace s |}.

Definition set_streamTimer (v : option handle) (s : state) : state :=
  {| streamQueue := streamQueue s; streamTimer := v;
     streamRendered := streamRendered s;
     pendingFinalStory := pendingFinalStory s;
     pendingFinalizeFn := pendingFinalizeFn s;
     currentStoryText := currentStoryText s; storyEl := storyEl s;
     actionEl_value := actionEl_value s;
     sendBtn_disabled := sendBtn_disabled s;
     newBtn_disabled := newBtn_disabled s; intervals := intervals s;
     nextHandle := nextHandle s; trace := trace s |}.

Definition set_streamRendered (v : jsstring) (s : state) : state :=
  {| streamQueue := streamQueue s; streamTimer := streamTimer s;
     streamRendered := v;
     pendingFinalStory := pendingFinalStory s;
     pendingFinalizeFn := pendingFinalizeFn s;
     currentStoryText := currentStoryText s; storyEl := storyEl s;
     actionEl_value := actionEl_value s;
     sendBtn_disabled := sendBtn_disabled s;
     newBtn_disabled := newBtn_disabled s; intervals := intervals s;
     nextHandle := nextHandle s; trace := trace s |}.

Definition set_pendingFinalStory (v : option jsstring) (s : state) : state :=
  {| streamQueue := streamQueue s; streamTimer := streamTimer s;
     streamRendered := streamRendered s;
     pendingFinalStory := v;
     pendingFinalizeFn := pendingFinalizeFn s;
     currentStoryText := currentStoryText s; storyEl := storyEl s;
     actionEl_value := actionEl_value s;
     sendBtn_disabled := sendBtn_disabled s;
     newBtn_disabled := newBtn_disabled s; intervals := intervals s;
     nextHandle := nextHandle s; trace := trace s |}.

Definition set_pendingFinalizeFn (v : option finalizer) (s : state) : state :=
  {| streamQueue := streamQueue s; streamTimer := streamTimer s;
     streamRendered := streamRendered s;
     pendingFinalStory := pendingFinalStory s;
     pendingFinalizeFn := v;
     currentStoryText := currentStoryText s; storyEl := storyEl s;
     actionEl_value := actionEl_value s;
     sendBtn_disabled := sendBtn_disabled s;
     newBtn_disabled := newBtn_disabled s; intervals := intervals s;
     nextHandle := nextHandle s; trace := trace s |}.

Definition set_currentStoryText (v : jsstring) (s : state) : state :=
  {| streamQueue := streamQueue s; streamTimer := streamTimer s;
     streamRendered := streamRendered s;
     pendingFinalStory := pendingFinalStory s;
     pendingFinalizeFn := pendingFinalizeFn s;
     currentStoryText := v; storyEl := storyEl s;
     actionEl_value := actionEl_value s;
     sendBtn_disabled := sendBtn_disabled s;
     newBtn_disabled := newBtn_disabled s; intervals := intervals s;
     nextHandle := nextHandle s; trace := trace s |}.

Definition set_storyEl (v : view) (s : state) : state :=
  {| streamQueue := streamQueue s; streamTimer := streamTimer s;
     streamRendered := streamRendered s;
     pendingFinalStory := pendingFinalStory s;
     pendingFinalizeFn := pendingFinalizeFn s;
     currentStoryText := currentStoryText s; storyEl := v;
     actionEl_value := actionEl_value s;
     sendBtn_disabled := sendBtn_disabled s;
     newBtn_disabled := newBtn_disabled s; intervals := intervals s;
     nextHandle := nextHandle s; trace := trace s |}.

Definition set_actionEl_value (v : jsstring) (s : state) : state :=
  {| streamQueue := streamQueue s; streamTimer := streamTimer s;
     streamRendered := streamRendered s;
     pendingFinalStory := pendingFinalStory s;
     pendingFinalizeFn := pendingFinalizeFn s;
     currentStoryText := currentStoryText s; storyEl := storyEl s;
     actionEl_value := v;
     sendBtn_disabled := sendBtn_disabled s;
     newBtn_disabled := newBtn_disabled s; intervals := intervals s;
     nextHandle := nextHandle s; trace := trace s |}.

(** [sendBtn.disabled = v; newBtn.disabled = v;] *)
Definition set_buttons_disabled (v : bool) (s : state) : state :=
  {| streamQueue := streamQueue s; streamTimer := streamTimer s;
     streamRendered := streamRendered s;
     pendingFinalStory := pendingFinalStory s;
     pendingFinalizeFn := pendingFinalizeFn s;
     currentStoryText := currentStoryText s; storyEl := storyEl s;
     actionEl_value := actionEl_value s;
     sendBtn_disabled := v;
     newBtn_disabled := v; intervals := intervals s;
     nextHandle := nextHandle s; trace := trace s |}.

Definition set_intervals (v : list interval) (s : state) : state :=
  {| streamQueue := streamQueue s; streamTimer := streamTimer s;
     streamRendered := streamRendered s;
     pendingFinalStory := pendingFinalStory s;
     pendingFinalizeFn := pendingFinalizeFn s;
     currentStoryText := currentStoryText s; storyEl := storyEl s;
     actionEl_value := actionEl_value s;
     sendBtn_disabled := sendBtn_disabled s;
     newBtn_disabled := newBtn_disabled s; intervals := v;
     nextHandle := nextHandle s; trace := trace s |}.

Definition set_nextHandle (v : handle) (s : state) : state :=
  {| streamQueue := streamQueue s; streamTimer := streamTimer s;
     streamRendered := streamRendered s;
     pendingFinalStory := pendingFinalStory s;
     pendingFinalizeFn := pendingFinalizeFn s;
     currentStoryText := currentStoryText s; storyEl := storyEl s;
     actionEl_value := actionEl_value s;
     sendBtn_disabled := sendBtn_disabled s;
     newBtn_disabled := newBtn_disabled s; intervals := intervals s;
     nextHandle := v; trace := trace s |}.

(** Appends one entry to the record of effects. *)
Definition emit (e : effect) (s : state) : state :=
  {| streamQueue := streamQueue s; streamTimer := streamTimer s;
     streamRendered := streamRendered s;
     pendingFinalStory := pendingFinalStory s;
     pendingFinalizeFn := pendingFinalizeFn s;
     currentStoryText := currentStoryText s; storyEl := storyEl s;
     actionEl_value := actionEl_value s;
     sendBtn_disabled := sendBtn_disabled s;
     newBtn_disabled := newBtn_disabled s; intervals := intervals s;
     nextHandle := nextHandle s; trace := trace s ++ [e] |}.

(* ================================================================= *)
(** ** The browser's timers *)

(** [clearInterval(h)]. *)
Definition clearInterval (h : handle) (s : state) : state :=
  set_intervals
    (filter (fun i => negb (Pos.eqb (i_handle i) h)) (intervals s)) s.

(** [setInterval(f, STREAM_MS_PER_CHAR)] for the arrow function of
    [startTypewriter]: registers it and returns a fresh handle. *)
Definition setInterval (prefix : jsstring) (onUpdate : callback) (s : state)
    : handle * state :=
  let h := nextHandle s in
  (h, set_nextHandle (Pos.succ h)
        (set_intervals
           (intervals s ++
            [ {| i_handle := h; i_prefix := prefix; i_onUpdate := onUpdate |} ])
           s)).

(* ================================================================= *)
(** ** Rendering *)

Definition renderStory (text : jsstring) (s : state) : state :=
  set_storyEl (renderStory_view text) s.

Definition renderStoryProgress (text : jsstring) (s : state) : state :=
  set_storyEl (ProgressView text) s.

(** A call [onUpdate(text)]. *)
Definition call_onUpdate (f : callback) (text : jsstring) (s : state) : state :=
  match f with
  | ShowProgress => renderStoryProgress text (emit (OnUpdate text) s)
  end.

(* ================================================================= *)
(** ** The typewriter *)

Definition stopTypewriter (s : state) : state :=
  let s1 := match streamTimer s with
            | Some h => clearInterval h s
            | None => s
            end in
  set_streamRendered [] (set_streamQueue [] (set_streamTimer None s1)).

(** The body both finalize closures share:
    [stopTypewriter(); currentStoryText = pendingFinalStory || "";
     renderStory(currentStoryText);] *)
Definition finalize_body (s : state) : state :=
  let s1 := stopTypewriter s in
  let s2 := set_currentStoryText (or_empty (pendingFinalStory s1)) s1 in
  renderStory (currentStoryText s2) s2.

(** A call [fn()] of a stored finalize function. *)
Definition call_finalizer (fn : finalizer) (s : state) : state :=
  finalize_body (emit (Finalize fn (streamQueue s) (streamRendered s)) s).

(** [const fn = pendingFinalizeFn; pendingFinalizeFn = null; fn();] under
    the guard [if (pendingFinalizeFn)]. *)
Definition fire_pending (s : state) : state :=
  match pendingFinalizeFn s with
  | Some fn => call_finalizer fn (set_pendingFinalizeFn None s)
  | None => s
  end.

(** The arrow function [startTypewriter] hands to [setInterval]. *)
Definition interval_callback (prefix : jsstring) (onUpdate : callback)
    (s : state) : state :=
  if negb (truthy (streamQueue s)) then fire_pending s
  else
    let chunk := slice_to take (streamQueue s) in
    let s1 := set_streamQueue (slice_from take (streamQueue s)) s in
    let s2 := set_streamRendered (streamRendered s1 ++ chunk) s1 in
    let s3 := call_onUpdate onUpdate (prefix ++ streamRendered s2) s2 in
    if negb (truthy (streamQueue s3)) then fire_pending s3 else s3.

Definition startTypewriter (prefix : jsstring) (onUpdate : callback)
    (s : state) : state :=
  let s1 := set_streamRendered [] s in
  let s2 := match streamTimer s1 with
            | Some h => clearInterval h s1
            | None => s1
            end in
  let (h, s3) := setInterval prefix onUpdate s2 in
  set_streamTimer (Some h) s3.

(* ================================================================= *)
(** ** The stream handlers of [newStory] and [sendAction] *)

(** A parsed line of the stream, by its [type]; the payload is the property
    the handler reads ([text] as [+=] appends it). *)
Inductive evt :=
| EvChunk (text : jsstring)
| EvFinal (story : option jsstring)
| EvError (message : option jsstring)
| EvOther.

(** The request a handler belongs to: the one of [newStory], or the one of
    a [sendAction] with the [prefix] it computed. *)
Inductive request :=
| NewStory
| Turn (prefix : jsstring).

Definition prefix_of (r : request) : jsstring :=
  match r with NewStory => [] | Turn p => p end.

Definition finalizer_of (r : request) : finalizer :=
  match r with NewStory => FinalizeNewStory | Turn _ => FinalizeTurn end.

Definition ERROR_TAG : jsstring := str "[Error]" ++ [LF].

(** The text the error branches show. *)
Definition error_text (r : request) (message : jsstring) : jsstring :=
  match r with
  | NewStory => ERROR_TAG ++ message
  | Turn p => p ++ [LF] ++ ERROR_TAG ++ message
  end.

(** [stopTypewriter(); streamQueue = ""; pendingFinalStory = null;
     pendingFinalizeFn = null; renderStoryProgress(...)], the body of the
    [error] branch and of the [catch] block. *)
Definition abort_stream (r : request) (message : jsstring) (s : state) : state :=
  let s1 := stopTypewriter s in
  let s2 := set_streamQueue [] s1 in
  let s3 := set_pendingFinalStory None s2 in
  let s4 := set_pendingFinalizeFn None s3 in
  renderStoryProgress (error_text r message) s4.

(** The callback [(evt) => { ... }] passed to [streamNdjson]. *)
Definition onEvent (r : request) (e : evt) (s : state) : state :=
  match e with
  | EvChunk text =>
      let s1 := set_streamQueue (streamQueue s ++ text) s in
      match streamTimer s1 with
      | None => startTypewriter (prefix_of r) ShowProgress s1
      | Some _ => s1
      end
  | EvFinal story =>
      let s1 := set_pendingFinalStory (Some (or_empty story)) s in
      let s2 := set_pendingFinalizeFn (Some (finalizer_of r)) s1 in
      if negb (truthy (streamQueue s2)) then fire_pending s2 else s2
  | EvError message =>
      abort_stream r (or_default message (str "Unknown error.")) s
  | EvOther => s
  end.

(** One period of the timers: the browser calls the function of every
    interval that is registered, each once, skipping one that an earlier
    call of the same round cleared. *)
Definition run_interval (s : state) (i : interval) : state :=
  if existsb (fun j => Pos.eqb (i_handle j) (i_handle i)) (intervals s)
  then interval_callback (i_prefix i) (i_onUpdate i) s
  else s.

Definition tick (s : state) : state :=
  fold_left run_interval (intervals s) s.

(** What happens to the page between two turns of the event loop. *)
Inductive event :=
| Deliver (r : request) (e : evt)
| Tick
| Failed (r : request) (message : jsstring)
| Settled.

(** The [finally] block of [newStory] and [sendAction]. *)
Definition settle (s : state) : state :=
  emit Focus (set_buttons_disabled false s).

Definition step (s : state) (ev : event) : state :=
  match ev with
  | Deliver r e => onEvent r e s
  | Tick => tick s
  | Failed r message => abort_stream r message s
  | Settled => settle s
  end.

Definition run (s : state) (evs : list event) : state := fold_left step evs s.

(* ================================================================= *)
(** ** [sendAction] and [newStory] up to their first [await] *)

Definition YOU : jsstring := str "> You: ".
Definition THINKING : jsstring :=
  str "(Thinking" ++ [0x2026%N] ++ str ")" ++ [LF].
Definition STARTING : jsstring := str "Starting a new story" ++ [0x2026%N].

(** The [prefix] of [sendAction]. *)
Definition turn_prefix (story action : jsstring) : jsstring :=
  (if truthy story then trim story ++ [LF; LF] else [])
  ++ YOU ++ action ++ [LF; LF].

(** [sendAction] until [streamNdjson] issues its [fetch]; the rest of the
    function runs as [Deliver], [Failed] and [Settled] events of the
    request it returns. *)
Definition sendAction (s : state) : state * option request :=
  let action := trim (actionEl_value s) in
  if negb (truthy action) then (s, None)
  else
    let s1 := set_buttons_disabled true s in
    let s2 := set_actionEl_value [] s1 in
    let prefix := turn_prefix (currentStoryText s2) action in
    let s3 := renderStoryProgress (prefix ++ THINKING) s2 in
    (emit (Fetch (str "/api/story/turn_stream") (Some action)) s3,
     Some (Turn prefix)).

Definition newStory (s : state) : state * option request :=
  let s1 := set_buttons_disabled true s in
  let s2 := renderStoryProgress STARTING s1 in
  (emit (Fetch (str "/api/story/new_stream") None) s2, Some NewStory).

(* ================================================================= *)
(** ** The line loop of [streamNdjson] *)

Section StreamNdjson.

(** The values of parsed lines, [JSON.parse], the caller's state and its
    [onEvent].  The loop calls [onEvent] inside the [try] whose [catch] is
    empty, so a handler cannot end the loop either. *)
Variable J : Type.
Variable JSON_parse : jsstring -> option J.
Variable St : Type.
Variable handler : J -> St -> St.

(** The body of the inner loop for one line: [trim], the test
    [if (!line) continue], and the [try] block. *)
Definition dispatch_line (line : jsstring) (st : St) : St :=
  let line := trim line in
  if negb (truthy line) then st
  else match JSON_parse line with
       | Some e => handler e st
       | None => st
       end.

(** [while ((idx = buffer.indexOf("\n")) >= 0) { ... }]: the buffer that is
    left and the state.  Every round shortens the buffer. *)
Fixpoint drain (fuel : nat) (buffer : jsstring) (st : St) : jsstring * St :=
  match fuel with
  | 0 => (buffer, st)
  | S fuel' =>
      match indexOf LF buffer with
      | None => (buffer, st)
      | Some idx =>
          drain fuel' (slice_from (idx + 1) buffer)
            (dispatch_line (slice_to idx buffer) st)
      end
  end.

(** [while (true) { read; if (done) break; buffer += decoded; ... }] over
    the decoded text of the successive reads. *)
Fixpoint read_loop (reads : list jsstring) (buffer : jsstring) (st : St) : St :=
  match reads with
  | [] => st
  | value :: rest =>
      let buffer1 := buffer ++ value in
      let (buffer2, st') := drain (S (length buffer1)) buffer1 st in
      read_loop rest buffer2 st'
  end.

(** [streamNdjson] after a successful response: [buffer] starts empty. *)
Definition streamNdjson (reads : list jsstring) (st : St) : St :=
  read_loop reads [] st.

End StreamNdjson.

Arguments dispatch_line {J} JSON_parse {St} handler line st.
Arguments drain {J} JSON_parse {St} handler fuel buffer st.
Arguments read_loop {J} JSON_parse {St} handler reads buffer st.
Arguments streamNdjson {J} JSON_parse {St} handler reads st.

(* ================================================================= *)
(** ** Vocabulary of the statements *)

(** At most one interval is registered, and it is the one [streamTimer]
    holds; handles handed out so far are below [nextHandle]. *)
Definition one_timer (s : state) : Prop :=
  match streamTimer s with
  | None => intervals s = []
  | Some h =>
      (h < nextHandle s)%positive /\
      exists p f,
        intervals s = [ {| i_handle := h; i_prefix := p; i_onUpdate := f |} ]
  end.

(** No typewriter is running and nothing is queued or shown. *)
Definition idle (s : state) : Prop :=
  streamTimer s = None /\ intervals s = [] /\
  streamQueue s = [] /\ streamRendered s = [].

(** A stopped typewriter has nothing queued and nothing shown. *)
Definition wf (s : state) : Prop :=
  one_timer s /\
  (streamTimer s = None -> streamQueue s = [] /\ streamRendered s = []).

(** The middle of the interval function: the characters taken from the
    queue are appended to [streamRendered] and [onUpdate] is called. *)
Definition reveal (prefix : jsstring) (onUpdate : callback) (s : state) : state :=
  let chunk := slice_to take (streamQueue s) in
  let s1 := set_streamQueue (slice_from take (streamQueue s)) s in
  let s2 := set_streamRendered (streamRendered s1 ++ chunk) s1 in
  call_onUpdate onUpdate (prefix ++ streamRendered s2) s2.

(** An event other than the delivery of a [final] line. *)
Definition no_final (ev : event) : bool :=
  match ev with
  | Deliver _ (EvFinal _) => false
  | _ => true
  end.

(** What a stream feeds the typewriter within one session. *)
Inductive input :=
| Enqueue (text : jsstring)
| Period.

Definition event_of (r : request) (i : input) : event :=
  match i with
  | Enqueue text => Deliver r (EvChunk text)
  | Period => Tick
  end.

(** [T1 T2 ... Tn]: the texts enqueued, in order. *)
Fixpoint enqueued (ins : list input) : jsstring :=
  match ins with
  | [] => []
  | Enqueue text :: r => text ++ enqueued r
  | Period :: r => enqueued r
  end.

Definition is_finalize (e : effect) : bool :=
  match e with Finalize _ _ _ => true | _ => false end.

(** How many times a finalize function has been called. *)
Definition finalize_count (tr : list effect) : nat :=
  length (filter is_finalize tr).

(** The arguments of the calls of [onUpdate], in order. *)
Fixpoint frames (tr : list effect) : list jsstring :=
  match tr with
  | [] => []
  | OnUpdate text :: r => text :: frames r
  | _ :: r => frames r
  end.

(** The characters a run of frames shows when what a frame repeats of the
    frame before is counted once: [shown] characters are on display, the
    next frame adds what it has beyond them. *)
Fixpoint deltas (shown : nat) (fs : list jsstring) : jsstring :=
  match fs with
  | [] => []
  | f :: r => skipn shown f ++ deltas (length f) r
  end.

Definition revealed (prefix : jsstring) (fs : list jsstring) : jsstring :=
  prefix ++ deltas (length prefix) fs.

(** An effect that, if it is a finalize call, was made on an empty queue. *)
Definition called_on_empty (e : effect) : Prop :=
  match e with
  | Finalize _ queue _ => queue = []
  | _ => True
  end.

(** How many [final] lines the events deliver: each registers a finalize
    function. *)
Definition registrations (evs : list event) : nat :=
  length (filter (fun ev => negb (no_final ev)) evs).

(** One when a finalize function is pending. *)
Definition pending_count (s : state) : nat :=
  match pendingFinalizeFn s with Some _ => 1 | None => 0 end.

(** The finalize calls among the effects. *)
Definition finalize_calls (s : state) : list effect :=
  filter is_finalize (trace s).

(** A session of request [r] that began in [s0] and has enqueued [total]:
    no finalize function is pending, what is revealed and what is queued
    make up [total] in order, the one timer is the session's, and the calls
    of [onUpdate] since [s0] showed [total] up to the growing lengths [ks],
    the last of them being what is revealed now. *)
Definition session (r : request) (s0 : state) (total : jsstring)
    (ks : list nat) (s : state) : Prop :=
  pendingFinalizeFn s = None /\
  streamRendered s ++ streamQueue s = total /\
  match streamTimer s with
  | None => intervals s = [] /\ total = []
  | Some h =>
      (h < nextHandle s)%positive /\
      intervals s =
        [ {| i_handle := h; i_prefix := prefix_of r; i_onUpdate := ShowProgress |} ]
  end /\
  trace s = trace s0 ++ map (fun k => OnUpdate (prefix_of r ++ firstn k total)) ks /\
  StronglySorted lt ks /\
  Forall (fun k => 0 < k <= length (streamRendered s)) ks /\
  last ks 0 = length (streamRendered s).

(** The events of one request: the inputs [pre], the [final] line, the
    inputs [post]. *)
Definition session_events (r : request) (story : option jsstring)
    (pre post : list input) : list event :=
  map (event_of r) pre ++ Deliver r (EvFinal story) :: map (event_of r) post.

(** The finalize function of [r] is registered and waits: characters are
    still queued, [total] has been enqueued, and no finalize function has
    been called since [s0]. *)
Definition pending (r : request) (s0 : state) (total : jsstring) (s : state)
    : Prop :=
  wf s /\
  pendingFinalizeFn s = Some (finalizer_of r) /\
  streamQueue s <> [] /\
  streamRendered s ++ streamQueue s = total /\
  finalize_calls s = finalize_calls s0.

(** The finalize function of [r] has been called, once since [s0], with
    the queue empty and [shown] revealed; nothing is pending. *)
Definition finalized (r : request) (s0 : state) (shown : jsstring) (s : state)
    : Prop :=
  wf s /\
  pendingFinalizeFn s = None /\
  finalize_calls s
  = finalize_calls s0 ++ [Finalize (finalizer_of r) [] shown].

(** The terminated lines of a stream: [stream_of ls tail] is each line of
    [ls] followed by a newline, then [tail]. *)
Definition has_no_LF (l : jsstring) : Prop := ~ In LF l.

Fixpoint stream_of (ls : list jsstring) (tail : jsstring) : jsstring :=
  match ls with
  | [] => tail
  | l :: r => l ++ LF :: stream_of r tail
  end.

(** The complete lines of a text and what follows the last newline. *)
Fixpoint lines_of (s : jsstring) : list jsstring * jsstring :=
  match s with
  | [] => ([], [])
  | c :: r =>
      let (ls, tail) := lines_of r in
      if (c =? LF)%N then ([] :: ls, tail)
      else match ls with
           | [] => ([], c :: tail)
           | l :: ls' => ((c :: l) :: ls', tail)
           end
  end.

Section ParsedLines.

Variable J : Type.
Variable JSON_parse : jsstring -> option J.

(** The event of a line: none when the trimmed line is empty or does not
    parse. *)
Definition parsed_line (l : jsstring) : option J :=
  if truthy (trim l) then JSON_parse (trim l) else None.

(** The events of the lines that parse, in order. *)
Definition events_of (ls : list jsstring) : list J :=
  flat_map (fun l => match parsed_line l with
                     | Some e => [e]
                     | None => []
                     end) ls.

End ParsedLines.

Arguments parsed_line {J} JSON_parse l.
Arguments events_of {J} JSON_parse ls.

(* ----------------------------------------------------------------- *)
(** *** Choice extraction as the specification words it *)

(** Position [i] of [t] starts a line that begins with [1.] and a space. *)
Definition spec_marker_line (t : jsstring) (i : nat) : bool :=
  match i with
  | 0 => true
  | S j => match nth_error t j with
           | Some c => (c =? LF)%N
           | None => false
           end
  end
  && match skipn i t with
     | c1 :: c2 :: c3 :: _ =>
         (c1 =? ch "1")%N && (c2 =? ch ".")%N && isSpace c3
     | _ => false
     end.

(** The last such position below [n]. *)
Fixpoint spec_last_marker_below (n : nat) (t : jsstring) : option nat :=
  match n with
  | 0 => None
  | S m => if spec_marker_line t m then Some m else spec_last_marker_below m t
  end.

Definition spec_last_marker (t : jsstring) : option nat :=
  spec_last_marker_below (length t) t.

(** At most three lines of the remainder that match the choice
    expression, in order, each giving the text after the numeral. *)
Definition spec_choices (rest : jsstring) : list jsstring :=
  firstn 3
    (flat_map
       (fun l => match choiceMatch (trim l) with
                 | Some (_, payload) => [payload]
                 | None => []
                 end)
       (split LF rest)).

Definition spec_extractChoices (text : jsstring) : jsstring * list jsstring :=
  let t := trim text in
  match spec_last_marker t with
  | Some i => (trimEnd (slice_to i t), spec_choices (slice_from i t))
  | None => (t, [])
  end.

(** The index the loop records for a match:
    [match.index + (match[1] ? match[1].length : 0)]. *)
Definition adjusted (m : rmatch) : nat :=
  m_index m + (if truthy (m_group1 m) then length (m_group1 m) else 0).

(** Where the spaces after the [1.] at [i] end. *)
Definition run_end (t : jsstring) (i : nat) : nat :=
  i + 2 + spaces (skipn (i + 2) t).

(** The spaces after a line start [1.] stop before the next such line
    start: no line that is a bare [1.] stands directly before another
    line that begins with [1.] and a space. *)
Definition markers_apart (t : jsstring) : Prop :=
  forall i i',
    spec_marker_line t i = true -> spec_marker_line t i' = true ->
    i < i' -> run_end t i < i'.

(** Every line of [rest] that begins like a choice is a choice: nothing
    after its numeral is a line terminator. *)
Definition choice_lines_clean (rest : jsstring) : Prop :=
  forall l, In l (split LF rest) ->
            choiceTest (trim l) = true -> choiceMatch (trim l) <> None.

(** The two conditions as tests: the line starts [1.] plus space of [t],
    each checked against the later ones, and the lines after the last of
    them. *)
Definition marker_lines (t : jsstring) : list nat :=
  filter (spec_marker_line t) (seq 0 (length t)).

Definition markers_apartb (t : jsstring) : bool :=
  forallb
    (fun i => forallb (fun i' => negb (i <? i') || (run_end t i <? i'))
                      (marker_lines t))
    (marker_lines t).

Definition choice_lines_cleanb (rest : jsstring) : bool :=
  forallb
    (fun l => negb (choiceTest (trim l))
              || match choiceMatch (trim l) with
                 | Some _ => true
                 | None => false
                 end)
    (split LF rest).

Definition clean_story (text : jsstring) : bool :=
  markers_apartb (trim text)
  && match spec_last_marker (trim text) with
     | Some i => choice_lines_cleanb (skipn i (trim text))
     | None => true
     end.

(* ----------------------------------------------------------------- *)
(** *** Sample inputs *)

Definition QUOTE : char := 34%N.

(** The body [{"detail":"Ollama is down"}]. *)
Definition sample_error_body : jsstring :=
  str "{" ++ [QUOTE] ++ str "detail" ++ [QUOTE] ++ str ":" ++ [QUOTE]
  ++ str "Ollama is down" ++ [QUOTE] ++ str "}".

(** A parser that knows [sample_error_body] and rejects everything else. *)
Definition sample_parse (text : jsstring) : option json :=
  if jsstring_eqb text sample_error_body
  then Some (JObject [ (str "detail", JString (str "Ollama is down")) ])
  else None.

(** A stream parser for lines of the form [c<text>] (a chunk), rejecting
    everything else. *)
Definition sample_line_parse (line : jsstring) : option jsstring :=
  match line with
  | c :: r => if (c =? ch "c")%N then Some r else None
  | [] => None
  end.

(** The story of the specification's example, the same with an earlier
    choice block inside the narrative, and a story whose first choice line
    is bare. *)
Definition sample_story : jsstring :=
  str "Intro line." ++ [LF] ++ str "1. Go left" ++ [LF] ++ str "2. Go right".

Definition sample_two_blocks : jsstring :=
  str "You may:" ++ [LF] ++ str "1. Run" ++ [LF] ++ str "2. Hide" ++ [LF]
  ++ str "You hid. Now:" ++ [LF] ++ str "1. Go left" ++ [LF]
  ++ str "2. Go right".

Definition sample_bare_marker : jsstring :=
  str "Story" ++ [LF] ++ str "1. " ++ [LF] ++ str "1. Go left" ++ [LF]
  ++ str "2. Go right".

(** The page while the first chunk [abcd] of a new story is on display
    half way, and the same with the final event already received. *)
Definition sample_streaming : state :=
  run init [Deliver NewStory (EvChunk (str "abcd")); Tick].

Definition sample_awaiting_final : state :=
  run sample_streaming [Deliver NewStory (EvFinal (Some (str "abcd")))].

(* ================================================================= *)
(** ** The rest of the script *)

(* ----------------------------------------------------------------- *)
(** *** [getSessionId] *)

(** [localStorage]: its items, the one set last first. *)
Definition storage := list (jsstring * jsstring).

(** [localStorage.getItem(k)]: [None] stands for [null]. *)
Fixpoint getItem (k : jsstring) (st : storage) : option jsstring :=
  match st with
  | [] => None
  | (k', v) :: r => if jsstring_eqb k' k then Some v else getItem k r
  end.

(** [localStorage.setItem(k, v)]. *)
Definition setItem (k v : jsstring) (st : storage) : storage :=
  (k, v) :: filter (fun kv => negb (jsstring_eqb (fst kv) k)) st.

Definition SESSION_KEY : jsstring := str "story_session_id".

(** [getSessionId()], where [uuid] is what [crypto.randomUUID()] returns
    if it is called: the id and the storage left behind. *)
Definition getSessionId (uuid : jsstring) (st : storage) : jsstring * storage :=
  match getItem SESSION_KEY st with
  | Some sid =>
      if truthy sid then (sid, st)
      else (uuid, setItem SESSION_KEY uuid st)
  | None => (uuid, setItem SESSION_KEY uuid st)
  end.

(* ----------------------------------------------------------------- *)
(** *** [loadStory] and the choice buttons *)

(** [loadStory] after [api] has resolved with [data], whose [story] is a
    string or missing:
    [currentStoryText = data.story || ""; renderStory(currentStoryText);].
    When [api] throws nothing of the page changes. *)
Definition loadStory (data_story : option jsstring) (s : state) : state :=
  let s1 := set_currentStoryText (or_empty data_story) s in
  renderStory (currentStoryText s1) s1.

(** [btn.onclick] of a choice button:
    [actionEl.value = m[2]; sendAction();]. *)
Definition clickChoice (b : button) (s : state) : state * option request :=
  sendAction (set_actionEl_value (b_action b) s).

(** The buttons and the text on the page. *)
Definition view_buttons (v : view) : list button :=
  match v with
  | StoryView _ buttons => buttons
  | _ => []
  end.

Definition view_text (v : view) : jsstring :=
  match v with
  | Blank => []
  | StoryView transcript _ => transcript
  | ProgressView text => text
  end.

(* ----------------------------------------------------------------- *)
(** *** A request from its reads to its events *)

(** What happens while a request is open: a read resolves with decoded
    text, or a period of the timers elapses between two reads. *)
Inductive arrival :=
| Arrive (value : jsstring)
| Elapse.

Section RequestLoop.

(** A line to its event: [JSON.parse] and the [type] the handler reads. *)
Variable parse_event : jsstring -> option evt.

(** The [while (true)] loop of [streamNdjson] with the handler of request
    [r], the timers running between the reads: the buffer left and the
    page. *)
Fixpoint request_loop (r : request) (arrs : list arrival) (buffer : jsstring)
    (s : state) : jsstring * state :=
  match arrs with
  | [] => (buffer, s)
  | Arrive value :: rest =>
      let buffer1 := buffer ++ value in
      let (buffer2, s') :=
        drain parse_event (onEvent r) (S (length buffer1)) buffer1 s in
      request_loop r rest buffer2 s'
  | Elapse :: rest => request_loop r rest buffer (tick s)
  end.

(** The events the loop amounts to: the lines each read completes,
    delivered in order, and the ticks in between. *)
Fixpoint deliveries (r : request) (arrs : list arrival) (buffer : jsstring)
    : list event :=
  match arrs with
  | [] => []
  | Arrive value :: rest =>
      map (Deliver r) (events_of parse_event (fst (lines_of (buffer ++ value))))
      ++ deliveries r rest (snd (lines_of (buffer ++ value)))
  | Elapse :: rest => Tick :: deliveries r rest buffer
  end.

End RequestLoop.

(** The text of the reads, in order. *)
Fixpoint arrived (arrs : list arrival) : jsstring :=
  match arrs with
  | [] => []
  | Arrive value :: rest => value ++ arrived rest
  | Elapse :: rest => arrived rest
  end.

(** The events a handler was given, without the ticks. *)
Fixpoint delivered (evs : list event) : list evt :=
  match evs with
  | [] => []
  | Deliver _ e :: rest => e :: delivered rest
  | _ :: rest => delivered rest
  end.

(* ----------------------------------------------------------------- *)
(** *** The [catch] block *)

(** [err?.message || String(err)] for [err = new Error(m)], as
    [streamNdjson] throws it: [String(err)] is the name of the error alone
    when its message is empty. *)
Definition thrown_text (m : jsstring) : jsstring :=
  if truthy m then m else str "Error".

(** What the [catch] block is given when the response is not ok and its
    body is [text]: [throw new Error(extractErrorMessage(text))]. *)
Definition rejected (JSON_parse : jsstring -> option json) (r : request)
    (text : jsstring) : event :=
  Failed r (thrown_text (extractErrorMessage JSON_parse text)).

(* ----------------------------------------------------------------- *)
(** *** Vocabulary of the further statements *)

(** An event other than the [finally] block. *)
Definition not_settled (ev : event) : bool :=
  match ev with Settled => false | _ => true end.

(** The story on the page, when one is shown, is [currentStoryText]. *)
Definition shows_current_story (s : state) : Prop :=
  match storyEl s with
  | StoryView _ _ => storyEl s = renderStory_view (currentStoryText s)
  | _ => True
  end.

(** The finalize function of [r] waits with [st] as the final story. *)
Definition awaiting (r : request) (s0 : state) (st total : jsstring)
    (s : state) : Prop :=
  pending r s0 total s /\ pendingFinalStory s = Some st.

(** The finalize function of [r] has run: the typewriter is stopped and
    the page shows the final story [st]. *)
Definition completed (r : request) (s0 : state) (st shown : jsstring)
    (s : state) : Prop :=
  finalized r s0 shown s /\ idle s /\
  currentStoryText s = st /\ storyEl s = renderStory_view st.

(** The typewriter of request [r] runs, nothing waits to be finalized, and
    [total] is what it has revealed followed by what it has still to
    reveal. *)
Definition typing (r : request) (total : jsstring) (s : state) : Prop :=
  exists h,
    streamTimer s = Some h /\
    intervals s =
      [ {| i_handle := h; i_prefix := prefix_of r; i_onUpdate := ShowProgress |} ] /\
    pendingFinalizeFn s = None /\
    streamRendered s ++ streamQueue s = total.

(** A string with no white space at either end. *)
Definition trimmed (s : jsstring) : Prop := trim s = s.

(** A choice button as [renderStory] makes it: the label is a trimmed line,
    a digit 1-3, a dot, white space and the action; the action is not
    empty, is trimmed and holds no line terminator. *)
Definition well_formed_button (b : button) : Prop :=
  exists d ws,
    isChoiceDigit d = true /\ ws <> [] /\ forallb isSpace ws = true /\
    b_label b = d :: ch "." :: ws ++ b_action b /\
    b_action b <> [] /\ trimmed (b_action b) /\ trimmed (b_label b) /\
    existsb isLineTerminator (b_action b) = false.

(* ================================================================= *)
(** * Properties *)

(* ----------------------------------------------------------------- *)
(** ** Strings *)

Lemma truthy_false (s : jsstring) : truthy s = false <-> s = [].
Proof. destruct s; simpl; split; congruence. Qed.

Lemma truthy_true (s : jsstring) : truthy s = true <-> s <> [].
Proof. destruct s; simpl; split; congruence. Qed.

Lemma take_is_2 : take = 2.
Proof. reflexivity. Qed.

Lemma firstn_plus {A : Type} (a b : nat) (l : list A) :
  firstn (a + b) l = firstn a l ++ firstn b (skipn a l).
Proof.
  revert l. induction a as [|a IH]; intros l; simpl; auto.
  destruct l as [|x l]; simpl.
  - now rewrite firstn_nil.
  - now rewrite IH.
Qed.

(* ----------------------------------------------------------------- *)
(** ** [extractErrorMessage] *)

(** C8.  For every response text and every outcome of [JSON.parse],
    [extractErrorMessage] returns a string (it is total: a parse failure is
    an ordinary outcome, not an exception): the parsed payload's [detail]
    when that is a string; else its [message] when that is a string; else
    the trimmed text when that is not empty; else ["Request failed."]. *)
Theorem extractErrorMessage_cases (JSON_parse : jsstring -> option json)
    (text : jsstring) :
  (forall obj d,
      JSON_parse text = Some obj ->
      string_property obj (str "detail") = Some d ->
      extractErrorMessage JSON_parse text = d) /\
  (forall obj m,
      JSON_parse text = Some obj ->
      string_property obj (str "detail") = None ->
      string_property obj (str "message") = Some m ->
      extractErrorMessage JSON_parse text = m) /\
  ((JSON_parse text = None \/
    exists obj, JSON_parse text = Some obj /\
                string_property obj (str "detail") = None /\
                string_property obj (str "message") = None) ->
   (trim text <> [] -> extractErrorMessage JSON_parse text = trim text) /\
   (trim text = [] -> extractErrorMessage JSON_parse text = REQUEST_FAILED)).
Proof.
  unfold extractErrorMessage.
  split; [| split].
  - intros obj d Hp Hd. now rewrite Hp, Hd.
  - intros obj m Hp Hd Hm. now rewrite Hp, Hd, Hm.
  - intros Hno.
    assert (Hfall : match JSON_parse text with
                    | Some obj =>
                        match string_property obj (str "detail") with
                        | Some d => d
                        | None =>
                            match string_property obj (str "message") with
                            | Some m => m
                            | None => if truthy (trim text) then trim text
                                      else REQUEST_FAILED
                            end
                        end
                    | None => if truthy (trim text) then trim text
                              else REQUEST_FAILED
                    end
                    = if truthy (trim text) then trim text else REQUEST_FAILED).
    { destruct Hno as [Hp | (obj & Hp & Hd & Hm)].
      - now rewrite Hp.
      - now rewrite Hp, Hd, Hm. }
    rewrite Hfall. split; intros Ht.
    + apply truthy_true in Ht. now rewrite Ht.
    + rewrite Ht. reflexivity.
Qed.

Lemma extractErrorMessage_cases_witness :
  extractErrorMessage sample_parse sample_error_body = str "Ollama is down"
  /\ extractErrorMessage sample_parse (str "  503 Service Unavailable ")
     = str "503 Service Unavailable"
  /\ extractErrorMessage sample_parse (str "   ") = REQUEST_FAILED.
Proof.
  split; [| split].
  - apply (proj1 (extractErrorMessage_cases sample_parse sample_error_body)
             (JObject [ (str "detail", JString (str "Ollama is down")) ]));
      reflexivity.
  - apply (proj2 (proj2 (extractErrorMessage_cases sample_parse
                           (str "  503 Service Unavailable ")))).
    + left. reflexivity.
    + vm_compute. discriminate.
  - apply (proj2 (proj2 (extractErrorMessage_cases sample_parse (str "   ")))).
    + left. reflexivity.
    + reflexivity.
Defined.

(* ----------------------------------------------------------------- *)
(** ** [sendAction] on an empty action *)

(** C10.  When the action field is empty or holds only white space,
    [sendAction] returns at once: no request is issued, nothing is added to
    the effects, and the whole state (buttons, action field, story text,
    queue, pending finalize function, page) is what it was. *)
Theorem sendAction_blank_is_noop (s : state) :
  trim (actionEl_value s) = [] ->
  sendAction s = (s, None).
Proof.
  intros H. unfold sendAction. rewrite H. reflexivity.
Qed.

Lemma sendAction_blank_is_noop_witness :
  sendAction (set_actionEl_value (str "  ") sample_awaiting_final)
  = (set_actionEl_value (str "  ") sample_awaiting_final, None).
Proof.
  apply (sendAction_blank_is_noop
           (set_actionEl_value (str "  ") sample_awaiting_final)).
  reflexivity.
Defined.

(** With text in the field the same call disables both buttons, clears the
    field and issues the request. *)
Lemma sendAction_nonblank (s : state) :
  trim (actionEl_value s) <> [] ->
  let (s', r) := sendAction s in
  sendBtn_disabled s' = true /\ newBtn_disabled s' = true /\
  actionEl_value s' = [] /\
  r = Some (Turn (turn_prefix (currentStoryText s) (trim (actionEl_value s)))) /\
  trace s' = trace s ++
    [Fetch (str "/api/story/turn_stream") (Some (trim (actionEl_value s)))].
Proof.
  intros H. unfold sendAction. apply truthy_true in H. rewrite H. simpl.
  repeat split.
Qed.

(* ----------------------------------------------------------------- *)
(** ** Finalize on an empty queue *)

Lemma onEvent_final_empty (r : request) (story : option jsstring)
    (s : state) :
  streamQueue s = [] ->
  onEvent r (EvFinal story) s
  = fire_pending
      (set_pendingFinalizeFn (Some (finalizer_of r))
         (set_pendingFinalStory (Some (or_empty story)) s)).
Proof. intros Hq. unfold onEvent. simpl. now rewrite Hq. Qed.

(** C6.  When the [final] event is handled while [streamQueue] is empty,
    the finalize function it registers is called inside the handler itself
    (in [newStory] and in [sendAction] alike): on return the call is in the
    effects, with the queue empty as it was called; the function is no
    longer pending; the typewriter is stopped and the final story is
    rendered. *)
Theorem final_on_empty_queue_runs_now (r : request) (story : option jsstring)
    (s : state) :
  streamQueue s = [] ->
  let s' := onEvent r (EvFinal story) s in
  trace s' = trace s ++ [Finalize (finalizer_of r) [] (streamRendered s)] /\
  pendingFinalizeFn s' = None /\
  streamTimer s' = None /\ streamQueue s' = [] /\ streamRendered s' = [] /\
  currentStoryText s' = or_empty story /\
  storyEl s' = renderStory_view (or_empty story).
Proof.
  intros Hq. rewrite (onEvent_final_empty r story s Hq).
  unfold fire_pending. simpl.
  unfold call_finalizer, finalize_body, stopTypewriter, renderStory. simpl.
  rewrite Hq.
  destruct (streamTimer s); simpl; repeat split.
Qed.

Lemma final_on_empty_queue_runs_now_witness :
  let s' := onEvent (Turn (str "> You: look")) (EvFinal (Some sample_story)) init in
  trace s' = trace init ++ [Finalize FinalizeTurn [] []] /\
  pendingFinalizeFn s' = None /\
  streamTimer s' = None /\ streamQueue s' = [] /\ streamRendered s' = [] /\
  currentStoryText s' = sample_story /\
  storyEl s' = renderStory_view sample_story.
Proof.
  apply (final_on_empty_queue_runs_now (Turn (str "> You: look"))
           (Some sample_story) init).
  reflexivity.
Defined.

(** With characters still queued the handler only registers the function. *)
Lemma final_on_nonempty_queue_waits (r : request) (story : option jsstring)
    (s : state) :
  streamQueue s <> [] ->
  let s' := onEvent r (EvFinal story) s in
  trace s' = trace s /\
  pendingFinalizeFn s' = Some (finalizer_of r) /\
  pendingFinalStory s' = Some (or_empty story) /\
  streamQueue s' = streamQueue s /\ streamRendered s' = streamRendered s /\
  streamTimer s' = streamTimer s /\ intervals s' = intervals s /\
  nextHandle s' = nextHandle s.
Proof.
  intros Hq. unfold onEvent. simpl. apply truthy_true in Hq. rewrite Hq.
  simpl. repeat split.
Qed.

(* ----------------------------------------------------------------- *)
(** ** Timers *)

Lemma tick_no_interval (s : state) : intervals s = [] -> tick s = s.
Proof. intros H. unfold tick. rewrite H. reflexivity. Qed.

Lemma tick_one_interval (s : state) (i : interval) :
  intervals s = [i] ->
  tick s = interval_callback (i_prefix i) (i_onUpdate i) s.
Proof.
  intros H. unfold tick. rewrite H. unfold fold_left, run_interval.
  rewrite H. unfold existsb. rewrite Pos.eqb_refl. reflexivity.
Qed.

Lemma clear_only_interval (h : handle) (p : jsstring) (f : callback) :
  filter (fun i => negb (Pos.eqb (i_handle i) h))
    [ {| i_handle := h; i_prefix := p; i_onUpdate := f |} ] = [].
Proof. unfold filter, i_handle. rewrite Pos.eqb_refl. reflexivity. Qed.

(** What [stopTypewriter] does to a state that has at most one timer. *)
Lemma stopTypewriter_fields (s : state) :
  one_timer s ->
  let s' := stopTypewriter s in
  streamTimer s' = None /\ intervals s' = [] /\
  streamQueue s' = [] /\ streamRendered s' = [] /\
  nextHandle s' = nextHandle s /\ trace s' = trace s /\
  pendingFinalizeFn s' = pendingFinalizeFn s /\
  pendingFinalStory s' = pendingFinalStory s.
Proof.
  unfold one_timer, stopTypewriter, clearInterval.
  destruct (streamTimer s) as [h|]; simpl.
  - intros [_ (p & f & Hi)]. rewrite Hi, clear_only_interval. repeat split.
  - intros Hi. rewrite Hi. repeat split.
Qed.

Lemma stopTypewriter_idle (s : state) :
  one_timer s -> idle (stopTypewriter s).
Proof.
  intros H. destruct (stopTypewriter_fields s H) as (A & B & C & D & _).
  unfold idle. auto.
Qed.

Lemma idle_one_timer (s : state) : idle s -> one_timer s.
Proof. intros (A & B & _). unfold one_timer. now rewrite A. Qed.

(** What a call of a pending finalize function does. *)
Lemma fire_pending_fields (s : state) (fn : finalizer) :
  one_timer s ->
  pendingFinalizeFn s = Some fn ->
  let s' := fire_pending s in
  idle s' /\ pendingFinalizeFn s' = None /\
  nextHandle s' = nextHandle s /\
  trace s' = trace s ++ [Finalize fn (streamQueue s) (streamRendered s)] /\
  currentStoryText s' = or_empty (pendingFinalStory s) /\
  storyEl s' = renderStory_view (or_empty (pendingFinalStory s)).
Proof.
  intros H Hfn. unfold fire_pending. rewrite Hfn.
  unfold call_finalizer, finalize_body, renderStory.
  set (s1 := emit _ _).
  assert (H1 : one_timer s1) by exact H.
  pose proof (stopTypewriter_fields s1 H1) as (A & B & C & D & E & F & G & P).
  unfold idle. cbn -[stopTypewriter].
  rewrite A, B, C, D, E, F, G, P. repeat split.
Qed.

Lemma fire_pending_none (s : state) :
  pendingFinalizeFn s = None -> fire_pending s = s.
Proof. intros H. unfold fire_pending. now rewrite H. Qed.

(** What [startTypewriter] does to a state that has at most one timer. *)
Lemma startTypewriter_fields (prefix : jsstring) (onUpdate : callback)
    (s : state) :
  one_timer s ->
  let s' := startTypewriter prefix onUpdate s in
  streamRendered s' = [] /\
  streamQueue s' = streamQueue s /\
  streamTimer s' = Some (nextHandle s) /\
  intervals s' =
    [ {| i_handle := nextHandle s; i_prefix := prefix; i_onUpdate := onUpdate |} ] /\
  nextHandle s' = Pos.succ (nextHandle s) /\
  trace s' = trace s /\
  pendingFinalizeFn s' = pendingFinalizeFn s /\
  pendingFinalStory s' = pendingFinalStory s.
Proof.
  unfold one_timer, startTypewriter, setInterval, clearInterval. simpl.
  destruct (streamTimer s) as [h|]; simpl.
  - intros [_ (p & f & Hi)]. rewrite Hi, clear_only_interval. repeat split.
  - intros Hi. rewrite Hi. repeat split.
Qed.

Lemma startTypewriter_one_timer (prefix : jsstring) (onUpdate : callback)
    (s : state) :
  one_timer s -> one_timer (startTypewriter prefix onUpdate s).
Proof.
  intros H.
  destruct (startTypewriter_fields prefix onUpdate s H)
    as (_ & _ & A & B & C & _).
  unfold one_timer. rewrite A, B, C. split; [lia | eauto].
Qed.

(** C1 (as amended).  [startTypewriter] empties [streamRendered], cancels
    the timer [streamTimer] held and registers exactly one new one; it does
    not touch [streamQueue], which holds on return what it held on entry
    (the handlers append the first chunk before they call it).  Called
    twice in a row it leaves the queue as it was, so empty if it was empty,
    the revealed text empty, and one timer registered. *)
Theorem startTypewriter_resets (prefix : jsstring) (onUpdate : callback)
    (s : state) :
  one_timer s ->
  let s' := startTypewriter prefix onUpdate s in
  streamRendered s' = [] /\
  streamQueue s' = streamQueue s /\
  streamTimer s' = Some (nextHandle s) /\
  intervals s' =
    [ {| i_handle := nextHandle s; i_prefix := prefix; i_onUpdate := onUpdate |} ] /\
  (forall h, streamTimer s = Some h -> ~ In h (map i_handle (intervals s'))) /\
  (forall prefix2 onUpdate2,
      let s'' := startTypewriter prefix2 onUpdate2 s' in
      streamRendered s'' = [] /\
      streamQueue s'' = streamQueue s /\
      (streamQueue s = [] -> streamQueue s'' = []) /\
      length (intervals s'') = 1 /\
      map i_handle (intervals s'') = [Pos.succ (nextHandle s)] /\
      streamTimer s'' = Some (Pos.succ (nextHandle s))).
Proof.
  intros H s'.
  destruct (startTypewriter_fields prefix onUpdate s H)
    as (A & B & C & D & E & _).
  fold s' in A, B, C, D, E.
  split; [exact A |]. split; [exact B |]. split; [exact C |].
  split; [exact D |]. split.
  - intros h Hh Hin. rewrite D in Hin. simpl in Hin.
    destruct Hin as [Heq | []]. unfold one_timer in H. rewrite Hh in H.
    destruct H as [Hlt _]. lia.
  - intros prefix2 onUpdate2 s''.
    pose proof (startTypewriter_one_timer prefix onUpdate s H) as H'.
    fold s' in H'.
    destruct (startTypewriter_fields prefix2 onUpdate2 s' H')
      as (A2 & B2 & C2 & D2 & _).
    fold s'' in A2, B2, C2, D2.
    rewrite A2, B2, C2, D2, B, E. simpl. repeat split. auto.
Qed.

Lemma startTypewriter_resets_witness :
  let s' := startTypewriter [] ShowProgress sample_streaming in
  streamRendered s' = [] /\
  streamQueue s' = str "cd" /\
  streamTimer s' = Some 2%positive /\
  map i_handle (intervals s') = [2%positive].
Proof.
  assert (H : one_timer sample_streaming).
  { vm_compute. split; [reflexivity | eauto]. }
  destruct (startTypewriter_resets [] ShowProgress sample_streaming H)
    as (A & B & C & D & _).
  refine (conj A (conj B (conj C _))).
  rewrite D. reflexivity.
Defined.

(** C1, the counterexample: [startTypewriter] is called with the first
    chunk already appended to [streamQueue], and returns with it queued. *)
Lemma startTypewriter_keeps_queue :
  onEvent NewStory (EvChunk (str "ab")) init
  = startTypewriter [] ShowProgress (set_streamQueue (str "ab") init)
  /\ streamQueue
       (startTypewriter [] ShowProgress (set_streamQueue (str "ab") init))
     <> [].
Proof.
  split; [reflexivity | vm_compute; discriminate].
Qed.

(* ----------------------------------------------------------------- *)
(** ** The interval function *)

Lemma interval_callback_unfold (prefix : jsstring) (onUpdate : callback)
    (s : state) :
  interval_callback prefix onUpdate s =
  if negb (truthy (streamQueue s)) then fire_pending s
  else if negb (truthy (streamQueue (reveal prefix onUpdate s)))
       then fire_pending (reveal prefix onUpdate s)
       else reveal prefix onUpdate s.
Proof. reflexivity. Qed.

Lemma reveal_fields (prefix : jsstring) (onUpdate : callback) (s : state) :
  let s' := reveal prefix onUpdate s in
  streamQueue s' = skipn take (streamQueue s) /\
  streamRendered s' = streamRendered s ++ firstn take (streamQueue s) /\
  trace s' = trace s ++
    [OnUpdate (prefix ++ streamRendered s ++ firstn take (streamQueue s))] /\
  streamTimer s' = streamTimer s /\ intervals s' = intervals s /\
  nextHandle s' = nextHandle s /\
  pendingFinalizeFn s' = pendingFinalizeFn s /\
  pendingFinalStory s' = pendingFinalStory s.
Proof.
  unfold reveal, call_onUpdate. destruct onUpdate. simpl. repeat split.
Qed.

Lemma reveal_one_timer (prefix : jsstring) (onUpdate : callback) (s : state) :
  one_timer s -> one_timer (reveal prefix onUpdate s).
Proof.
  intros H.
  destruct (reveal_fields prefix onUpdate s) as (_ & _ & _ & A & B & C & _).
  unfold one_timer in *. now rewrite A, B, C.
Qed.

Lemma fire_pending_one_timer (s : state) :
  one_timer s -> one_timer (fire_pending s).
Proof.
  intros H. destruct (pendingFinalizeFn s) as [fn|] eqn:E.
  - destruct (fire_pending_fields s fn H E) as (Hi & _).
    now apply idle_one_timer.
  - now rewrite (fire_pending_none s E).
Qed.

Lemma fire_pending_keeps_wf (s : state) : wf s -> wf (fire_pending s).
Proof.
  intros [H Hq]. destruct (pendingFinalizeFn s) as [fn|] eqn:E.
  - destruct (fire_pending_fields s fn H E) as (Hi & _).
    split; [now apply idle_one_timer |].
    intros _. destruct Hi as (_ & _ & A & B). auto.
  - rewrite (fire_pending_none s E). now split.
Qed.

Lemma interval_callback_wf (prefix : jsstring) (onUpdate : callback)
    (s : state) :
  wf s -> streamTimer s <> None -> wf (interval_callback prefix onUpdate s).
Proof.
  intros Hwf Ht. rewrite interval_callback_unfold.
  destruct (negb (truthy (streamQueue s))).
  - now apply fire_pending_keeps_wf.
  - assert (Hr : wf (reveal prefix onUpdate s)).
    { destruct Hwf as [H _]. split; [now apply reveal_one_timer |].
      destruct (reveal_fields prefix onUpdate s) as (_ & _ & _ & A & _).
      rewrite A. intros E. contradiction. }
    destruct (negb (truthy (streamQueue (reveal prefix onUpdate s)))).
    + now apply fire_pending_keeps_wf.
    + exact Hr.
Qed.

Lemma tick_cases (s : state) :
  one_timer s ->
  (streamTimer s = None /\ tick s = s) \/
  (exists h p f,
      streamTimer s = Some h /\
      intervals s = [ {| i_handle := h; i_prefix := p; i_onUpdate := f |} ] /\
      tick s = interval_callback p f s).
Proof.
  unfold one_timer. destruct (streamTimer s) as [h|].
  - intros [_ (p & f & Hi)]. right. exists h, p, f.
    repeat split; auto. now rewrite (tick_one_interval s _ Hi).
  - intros Hi. left. split; auto. now apply tick_no_interval.
Qed.

Lemma tick_wf (s : state) : wf s -> wf (tick s).
Proof.
  intros Hwf. destruct (tick_cases s (proj1 Hwf))
    as [[_ E] | (h & p & f & Ht & _ & E)]; rewrite E; auto.
  apply interval_callback_wf; auto. congruence.
Qed.

Lemma abort_stream_fields (r : request) (message : jsstring) (s : state) :
  one_timer s ->
  let s' := abort_stream r message s in
  idle s' /\ pendingFinalizeFn s' = None /\ pendingFinalStory s' = None /\
  trace s' = trace s /\ nextHandle s' = nextHandle s /\
  storyEl s' = ProgressView (error_text r message).
Proof.
  intros H. unfold abort_stream, renderStoryProgress.
  destruct (stopTypewriter_fields s H) as (A & B & C & D & E & F & _).
  unfold idle. cbn -[stopTypewriter]. rewrite A, B, D, E, F. repeat split.
Qed.

Lemma onEvent_wf (r : request) (e : evt) (s : state) :
  wf s -> wf (onEvent r e s).
Proof.
  intros Hwf. destruct e as [text | story | message |]; unfold onEvent.
  - cbn [streamTimer set_streamQueue].
    destruct (streamTimer s) as [h|] eqn:E.
    + destruct Hwf as [H Hq]. split.
      * unfold one_timer in *. simpl. now rewrite E in *.
      * simpl. rewrite E. discriminate.
    + set (s1 := set_streamQueue _ s).
      assert (H1 : one_timer s1) by exact (proj1 Hwf).
      split; [now apply startTypewriter_one_timer |].
      destruct (startTypewriter_fields (prefix_of r) ShowProgress s1 H1)
        as (_ & _ & A & _). rewrite A. discriminate.
  - set (s2 := set_pendingFinalizeFn _ _).
    assert (H2 : wf s2) by exact Hwf.
    destruct (negb (truthy (streamQueue s2))); auto.
    now apply fire_pending_keeps_wf.
  - destruct (abort_stream_fields r
                (or_default message (str "Unknown error.")) s (proj1 Hwf))
      as (Hi & _).
    split; [now apply idle_one_timer |].
    destruct Hi as (_ & _ & A & B). auto.
  - exact Hwf.
Qed.

Lemma step_wf (s : state) (ev : event) : wf s -> wf (step s ev).
Proof.
  intros Hwf. destruct ev as [r e | | r message |]; simpl.
  - now apply onEvent_wf.
  - now apply tick_wf.
  - destruct (abort_stream_fields r message s (proj1 Hwf)) as (Hi & _).
    split; [now apply idle_one_timer |].
    destruct Hi as (_ & _ & A & B). auto.
  - exact Hwf.
Qed.

Lemma run_wf (evs : list event) (s : state) : wf s -> wf (run s evs).
Proof.
  revert s. induction evs as [|ev evs IH]; intros s Hwf; simpl; auto.
  apply IH. now apply step_wf.
Qed.

Lemma init_wf : wf init.
Proof. split; [reflexivity | intros _; split; reflexivity]. Qed.

Lemma run_app (s : state) (a b : list event) :
  run s (a ++ b) = run (run s a) b.
Proof. unfold run. apply fold_left_app. Qed.

(* ----------------------------------------------------------------- *)
(** ** Handles are never reused *)

Lemma interval_callback_timers (prefix : jsstring) (onUpdate : callback)
    (s : state) :
  one_timer s ->
  let s' := interval_callback prefix onUpdate s in
  nextHandle s' = nextHandle s /\
  (intervals s' = intervals s \/ intervals s' = []).
Proof.
  intros H. cbv zeta. rewrite interval_callback_unfold.
  assert (Hfire : forall t, one_timer t ->
            nextHandle (fire_pending t) = nextHandle t /\
            (intervals (fire_pending t) = intervals t \/
             intervals (fire_pending t) = [])).
  { intros t Ht. destruct (pendingFinalizeFn t) as [fn|] eqn:E.
    - destruct (fire_pending_fields t fn Ht E) as ((_ & B & _) & _ & C & _).
      auto.
    - rewrite (fire_pending_none t E). auto. }
  destruct (reveal_fields prefix onUpdate s) as (_ & _ & _ & _ & B & C & _).
  destruct (negb (truthy (streamQueue s))); [now apply Hfire |].
  destruct (negb (truthy (streamQueue (reveal prefix onUpdate s)))).
  - destruct (Hfire _ (reveal_one_timer prefix onUpdate s H)) as [A [D | D]];
      rewrite A, D, C; auto.
  - auto.
Qed.

Lemma step_timers (s : state) (ev : event) :
  one_timer s ->
  let s' := step s ev in
  (nextHandle s <= nextHandle s')%positive /\
  (forall i, In i (intervals s') ->
             In i (intervals s) \/ i_handle i = nextHandle s).
Proof.
  intros H. destruct ev as [r e | | r message |]; cbn [step]; cbv zeta.
  - destruct e as [text | story | message |]; unfold onEvent.
    + cbn [streamTimer set_streamQueue].
      destruct (streamTimer s) as [h|] eqn:E.
      * simpl. split; [lia | auto].
      * set (s1 := set_streamQueue _ s).
        assert (H1 : one_timer s1) by exact H.
        destruct (startTypewriter_fields (prefix_of r) ShowProgress s1 H1)
          as (_ & _ & _ & B & C & _).
        rewrite B, C. split; [simpl; lia |].
        intros i [<- | []]. right. reflexivity.
    + set (s2 := set_pendingFinalizeFn _ _).
      assert (H2 : one_timer s2) by exact H.
      destruct (negb (truthy (streamQueue s2))).
      * destruct (pendingFinalizeFn s2) as [fn|] eqn:E.
        -- destruct (fire_pending_fields s2 fn H2 E)
             as ((_ & B & _) & _ & C & _).
           rewrite B, C. split; [simpl; lia | intros i []].
        -- rewrite (fire_pending_none s2 E). simpl. split; [lia | auto].
      * simpl. split; [lia | auto].
    + destruct (abort_stream_fields r
                  (or_default message (str "Unknown error.")) s H)
        as ((_ & B & _) & _ & _ & _ & C & _).
      rewrite B, C. split; [lia | intros i []].
    + split; [lia | auto].
  - destruct (tick_cases s H) as [[_ E] | (h & p & f & _ & _ & E)]; rewrite E.
    + split; [lia | auto].
    + destruct (interval_callback_timers p f s H) as [A [B | B]];
        rewrite A, B; split; try lia; auto. intros i [].
  - destruct (abort_stream_fields r message s H)
      as ((_ & B & _) & _ & _ & _ & C & _).
    rewrite B, C. split; [lia | intros i []].
  - simpl. split; [lia | auto].
Qed.

Lemma run_fresh_handles (evs : list event) (s : state) (n : handle) :
  wf s ->
  (n <= nextHandle s)%positive ->
  (forall i, In i (intervals s) -> (n <= i_handle i)%positive) ->
  forall i, In i (intervals (run s evs)) -> (n <= i_handle i)%positive.
Proof.
  revert s. induction evs as [|ev evs IH]; intros s Hwf Hn Hi; simpl; auto.
  destruct (step_timers s ev (proj1 Hwf)) as [A B].
  apply IH.
  - now apply step_wf.
  - lia.
  - intros i Hin. destruct (B i Hin) as [Hold | Hnew].
    + now apply Hi.
    + rewrite Hnew. exact Hn.
Qed.

(* ----------------------------------------------------------------- *)
(** ** Nothing is finalized that was not registered *)

Lemma finalize_calls_app (s s' : state) (l : list effect) :
  trace s' = trace s ++ l ->
  finalize_calls s' = finalize_calls s ++ filter is_finalize l.
Proof. intros H. unfold finalize_calls. now rewrite H, filter_app. Qed.

Lemma finalize_calls_same (s s' : state) :
  trace s' = trace s -> finalize_calls s' = finalize_calls s.
Proof. intros H. unfold finalize_calls. now rewrite H. Qed.

Lemma finalize_count_calls (s : state) :
  finalize_count (trace s) = length (finalize_calls s).
Proof. reflexivity. Qed.

Lemma interval_callback_no_pending (prefix : jsstring) (onUpdate : callback)
    (s : state) :
  pendingFinalizeFn s = None ->
  let s' := interval_callback prefix onUpdate s in
  pendingFinalizeFn s' = None /\ finalize_calls s' = finalize_calls s.
Proof.
  intros E. cbv zeta. rewrite interval_callback_unfold.
  destruct (reveal_fields prefix onUpdate s)
    as (_ & _ & T & _ & _ & _ & P & _).
  assert (E' : pendingFinalizeFn (reveal prefix onUpdate s) = None)
    by now rewrite P.
  assert (C : finalize_calls (reveal prefix onUpdate s) = finalize_calls s).
  { rewrite (finalize_calls_app s _ _ T). simpl. apply app_nil_r. }
  destruct (negb (truthy (streamQueue s))).
  - rewrite (fire_pending_none s E). auto.
  - destruct (negb (truthy (streamQueue (reveal prefix onUpdate s)))).
    + rewrite (fire_pending_none _ E'). auto.
    + auto.
Qed.

Lemma step_no_pending (s : state) (ev : event) :
  wf s -> pendingFinalizeFn s = None -> no_final ev = true ->
  pendingFinalizeFn (step s ev) = None /\
  finalize_calls (step s ev) = finalize_calls s.
Proof.
  intros Hwf E Hev. destruct ev as [r e | | r message |]; cbn [step].
  - destruct e as [text | story | message |]; unfold onEvent.
    + cbn [streamTimer set_streamQueue].
      destruct (streamTimer s) as [h|] eqn:Et.
      * simpl. auto.
      * set (s1 := set_streamQueue _ s).
        assert (H1 : one_timer s1) by exact (proj1 Hwf).
        destruct (startTypewriter_fields (prefix_of r) ShowProgress s1 H1)
          as (_ & _ & _ & _ & _ & T & P & _).
        rewrite P. split; [exact E |]. now apply finalize_calls_same.
    + discriminate.
    + destruct (abort_stream_fields r
                  (or_default message (str "Unknown error.")) s (proj1 Hwf))
        as (_ & P & _ & T & _).
      split; [exact P |]. now apply finalize_calls_same.
    + auto.
  - destruct (tick_cases s (proj1 Hwf))
      as [[_ Et] | (h & p & f & _ & _ & Et)]; rewrite Et; auto.
    now apply interval_callback_no_pending.
  - destruct (abort_stream_fields r message s (proj1 Hwf))
      as (_ & P & _ & T & _).
    split; [exact P |]. now apply finalize_calls_same.
  - split; [exact E |].
    rewrite (finalize_calls_app s (settle s) [Focus]); [apply app_nil_r |].
    reflexivity.
Qed.

Lemma run_no_pending (evs : list event) (s : state) :
  wf s -> pendingFinalizeFn s = None -> forallb no_final evs = true ->
  pendingFinalizeFn (run s evs) = None /\
  finalize_calls (run s evs) = finalize_calls s.
Proof.
  revert s. induction evs as [|ev evs IH]; intros s Hwf E Hevs; simpl; auto.
  simpl in Hevs. apply andb_prop in Hevs. destruct Hevs as [Hev Hevs].
  destruct (step_no_pending s ev Hwf E Hev) as [E' C].
  destruct (IH (step s ev) (step_wf s ev Hwf) E' Hevs) as [E'' C'].
  split; [exact E'' | congruence].
Qed.

Lemma run_ticks_idle (n : nat) (s : state) :
  intervals s = [] -> run s (repeat Tick n) = s.
Proof.
  intros H. induction n as [|n IH]; simpl; auto.
  rewrite (tick_no_interval s H). exact IH.
Qed.

(* ----------------------------------------------------------------- *)
(** ** Cancelling *)

(** C3 (as amended).  [stopTypewriter] cancels the timer, empties
    [streamQueue] and [streamRendered] and calls nothing, but it leaves
    [pendingFinalizeFn] as it is.  The pending function is discarded by the
    error paths (the [error] branch of the handlers and the [catch] block),
    which assign [null] after calling [stopTypewriter]: after them nothing
    is pending, periods pass without any effect, no finalize function is
    called however many chunks, periods and errors follow, and the
    cancelled timer is never registered again. *)
Theorem stopTypewriter_then_discard (s : state) :
  wf s ->
  (let s' := stopTypewriter s in
   idle s' /\ trace s' = trace s /\
   pendingFinalizeFn s' = pendingFinalizeFn s) /\
  (forall r message,
      let s' := abort_stream r message s in
      idle s' /\ trace s' = trace s /\ pendingFinalizeFn s' = None /\
      (forall n, run s' (repeat Tick n) = s') /\
      (forall evs, forallb no_final evs = true ->
                   finalize_count (trace (run s' evs))
                   = finalize_count (trace s)) /\
      (forall evs h, streamTimer s = Some h ->
                     ~ In h (map i_handle (intervals (run s' evs))))).
Proof.
  intros Hwf. split.
  - destruct (stopTypewriter_fields s (proj1 Hwf))
      as (A & B & C & D & _ & T & P & _).
    unfold idle. auto.
  - intros r message s'.
    destruct (abort_stream_fields r message s (proj1 Hwf))
      as (Hi & P & _ & T & N & _).
    fold s' in Hi, P, T, N.
    assert (Hwf' : wf s').
    { split; [now apply idle_one_timer |].
      destruct Hi as (_ & _ & A & B). auto. }
    split; [exact Hi |]. split; [exact T |]. split; [exact P |].
    split; [| split].
    + intros n. apply run_ticks_idle. apply Hi.
    + intros evs Hevs.
      destruct (run_no_pending evs s' Hwf' P Hevs) as [_ C].
      rewrite !finalize_count_calls, C. f_equal.
      now apply finalize_calls_same.
    + intros evs h Hh Hin. apply in_map_iff in Hin.
      destruct Hin as (i & <- & Hin).
      assert (Hlt : (i_handle i < nextHandle s)%positive).
      { destruct Hwf as [H _]. unfold one_timer in H. rewrite Hh in H.
        apply H. }
      assert (Hge : (nextHandle s' <= i_handle i)%positive).
      { apply (run_fresh_handles evs s' (nextHandle s') Hwf'); auto.
        - lia.
        - destruct Hi as (_ & B & _). rewrite B. intros j []. }
      rewrite N in Hge. lia.
Qed.

Lemma stopTypewriter_then_discard_witness :
  pendingFinalizeFn (stopTypewriter sample_awaiting_final)
  = pendingFinalizeFn sample_awaiting_final
  /\ pendingFinalizeFn
       (abort_stream NewStory (str "Unknown error.") sample_awaiting_final)
     = None.
Proof.
  assert (Hwf : wf sample_awaiting_final).
  { vm_compute. split; [split; [reflexivity | eauto] | discriminate]. }
  split.
  - apply (proj1 (stopTypewriter_then_discard sample_awaiting_final Hwf)).
  - apply (proj2 (stopTypewriter_then_discard sample_awaiting_final Hwf)
             NewStory (str "Unknown error.")).
Defined.

(** C3, the counterexample: with a finalize function pending,
    [stopTypewriter] alone leaves it pending, and it is called when the next
    chunk has been revealed. *)
Lemma stopTypewriter_keeps_pending :
  pendingFinalizeFn sample_awaiting_final = Some FinalizeNewStory
  /\ pendingFinalizeFn (stopTypewriter sample_awaiting_final)
     = Some FinalizeNewStory
  /\ trace (run (stopTypewriter sample_awaiting_final)
              [Deliver NewStory (EvChunk (str "x")); Tick])
     = trace sample_awaiting_final
       ++ [OnUpdate (str "x"); Finalize FinalizeNewStory [] (str "x")].
Proof.
  repeat split.
Qed.

(* ----------------------------------------------------------------- *)
(** ** Pacing *)

(** A period with nothing pending: the interval function reveals, or does
    nothing on an empty queue. *)
Lemma tick_no_pending (s : state) (h : handle) (p : jsstring) (f : callback) :
  intervals s = [ {| i_handle := h; i_prefix := p; i_onUpdate := f |} ] ->
  pendingFinalizeFn s = None ->
  tick s = if truthy (streamQueue s) then reveal p f s else s.
Proof.
  intros Hi E. rewrite (tick_one_interval s _ Hi). cbn [i_prefix i_onUpdate].
  rewrite interval_callback_unfold.
  destruct (reveal_fields p f s) as (_ & _ & _ & _ & _ & _ & P & _).
  destruct (truthy (streamQueue s)); cbn [negb].
  - destruct (negb (truthy (streamQueue (reveal p f s)))); auto.
    apply fire_pending_none. now rewrite P.
  - now apply fire_pending_none.
Qed.

Lemma tick_moves_front (s : state) :
  one_timer s -> streamTimer s <> None -> pendingFinalizeFn s = None ->
  streamQueue (tick s) = skipn take (streamQueue s) /\
  streamRendered (tick s) = streamRendered s ++ firstn take (streamQueue s) /\
  one_timer (tick s) /\ streamTimer (tick s) = streamTimer s /\
  pendingFinalizeFn (tick s) = None.
Proof.
  intros H Ht E. pose proof H as H0. unfold one_timer in H0.
  destruct (streamTimer s) as [h|] eqn:Eh; [| contradiction].
  destruct H0 as [_ (p & f & Hi)].
  rewrite (tick_no_pending s h p f Hi E).
  destruct (streamQueue s) as [|c q] eqn:Eq; cbn [truthy].
  - rewrite Eq, Eh. simpl. rewrite app_nil_r. auto.
  - destruct (reveal_fields p f s) as (A & B & _ & C & _ & _ & P & _).
    rewrite A, B, C, P, Eq, Eh, E. repeat split.
    now apply reveal_one_timer.
Qed.

Lemma ticks_move_front (n : nat) (s : state) :
  one_timer s -> streamTimer s <> None -> pendingFinalizeFn s = None ->
  let s' := run s (repeat Tick n) in
  streamQueue s' = skipn (n * take) (streamQueue s) /\
  streamRendered s' = streamRendered s ++ firstn (n * take) (streamQueue s).
Proof.
  revert s. induction n as [|n IH]; intros s H Ht E; cbn [repeat run fold_left step].
  - simpl. rewrite app_nil_r. auto.
  - destruct (tick_moves_front s H Ht E) as (A & B & H' & Ht' & E').
    rewrite <- Ht' in Ht.
    destruct (IH (tick s) H' Ht E') as [A' B'].
    fold (run (tick s) (repeat Tick n)).
    rewrite A', B', A, B. split.
    + rewrite skipn_skipn. f_equal. change take with 2. lia.
    + rewrite <- app_assoc. f_equal.
      replace (S n * take) with (take + n * take)
        by (change take with 2; lia).
      now rewrite firstn_plus.
Qed.




(* ----------------------------------------------------------------- *)
(** ** Order of the revealed characters *)

Lemma session_begin (r : request) (s0 : state) :
  idle s0 -> pendingFinalizeFn s0 = None -> session r s0 [] [] s0.
Proof.
  intros (A & B & C & D) E. unfold session.
  rewrite A, B, C, D, E. simpl. rewrite app_nil_r.
  repeat split; constructor.
Qed.

Lemma session_one_timer (r : request) (s0 s : state) (total : jsstring)
    (ks : list nat) :
  session r s0 total ks s -> one_timer s.
Proof.
  intros (_ & _ & T & _). unfold one_timer.
  destruct (streamTimer s) as [h|].
  - destruct T as [Hlt Hi]. split; eauto.
  - apply T.
Qed.

Lemma session_wf (r : request) (s0 s : state) (total : jsstring)
    (ks : list nat) :
  session r s0 total ks s -> wf s.
Proof.
  intros H. split; [exact (session_one_timer _ _ _ _ _ H) |].
  destruct H as (_ & Q & T & _). intros E. rewrite E in T.
  destruct T as [_ T]. rewrite T in Q. now apply app_eq_nil in Q.
Qed.

Lemma frames_of_longer_total (prefix total more : jsstring) (n : nat)
    (ks : list nat) :
  Forall (fun k => 0 < k <= n) ks -> n <= length total ->
  map (fun k => OnUpdate (prefix ++ firstn k (total ++ more))) ks
  = map (fun k => OnUpdate (prefix ++ firstn k total)) ks.
Proof.
  intros Hks Hn. apply map_ext_in. intros k Hk.
  rewrite Forall_forall in Hks. specialize (Hks k Hk).
  rewrite firstn_app. replace (k - length total) with 0 by lia.
  simpl. now rewrite app_nil_r.
Qed.

Lemma session_enqueue (r : request) (s0 s : state) (total text : jsstring)
    (ks : list nat) :
  session r s0 total ks s ->
  session r s0 (total ++ text) ks (onEvent r (EvChunk text) s).
Proof.
  intros H. pose proof (session_one_timer _ _ _ _ _ H) as H1.
  destruct H as (E & Q & T & Tr & Hs & Hk & Hl).
  assert (Hlen : length (streamRendered s) <= length total).
  { rewrite <- Q, length_app. lia. }
  unfold onEvent. cbn [streamTimer set_streamQueue].
  destruct (streamTimer s) as [h|] eqn:Eh.
  - unfold session. simpl. rewrite Eh, E, Tr.
    rewrite (frames_of_longer_total _ _ _ _ _ Hk Hlen).
    rewrite app_assoc, Q. repeat split; auto; apply T.
  - destruct T as [Hi Htot]. rewrite Htot in Q, Tr |- *. clear Htot Hlen.
    apply app_eq_nil in Q. destruct Q as [Qr Qq].
    set (s1 := set_streamQueue _ s).
    assert (H1' : one_timer s1) by exact H1.
    destruct (startTypewriter_fields (prefix_of r) ShowProgress s1 H1')
      as (A & B & C & D & N & F & G & _).
    rewrite Qr in Hk, Hl.
    assert (ks = []) as ->.
    { destruct ks as [|k ks]; auto. inversion Hk; subst. simpl in *. lia. }
    unfold session. rewrite A, B, C, D, N, F, G.
    unfold s1. simpl. rewrite Qq, E, Tr. simpl.
    repeat split; auto; try constructor. lia.
Qed.

Lemma sorted_snoc (ks : list nat) (m : nat) :
  StronglySorted lt ks -> Forall (fun k => k < m) ks ->
  StronglySorted lt (ks ++ [m]).
Proof.
  induction 1 as [|k ks Hs IH Hk]; intros Hm; simpl.
  - repeat constructor.
  - inversion Hm; subst. constructor; auto.
    apply Forall_app. split; auto.
Qed.

Lemma session_period (r : request) (s0 s : state) (total : jsstring)
    (ks : list nat) :
  session r s0 total ks s ->
  exists ks', session r s0 total ks' (tick s).
Proof.
  intros H. pose proof (session_one_timer _ _ _ _ _ H) as H1.
  destruct H as (E & Q & T & Tr & Hs & Hk & Hl).
  destruct (streamTimer s) as [h|] eqn:Eh.
  - destruct T as [Hlt Hi]. rewrite (tick_no_pending s h _ _ Hi E).
    destruct (streamQueue s) as [|c q] eqn:Eq; cbn [truthy].
    + exists ks. unfold session. rewrite E, Eh, Eq. auto 10.
    + destruct (reveal_fields (prefix_of r) ShowProgress s)
        as (A & B & C & D & F & N & P & _).
      set (shown := streamRendered s ++ firstn take (streamQueue s)) in *.
      assert (Htot : shown ++ skipn take (streamQueue s) = total).
      { unfold shown. rewrite <- app_assoc, firstn_skipn. now rewrite Eq. }
      assert (Hgrow : length (streamRendered s) < length shown).
      { unfold shown. rewrite length_app, Eq. change take with 2.
        destruct q; simpl; lia. }
      exists (ks ++ [length shown]). unfold session.
      rewrite A, B, C, D, F, N, P, Eh, E. fold shown.
      split; [reflexivity |]. split; [exact Htot |]. split; [auto |].
      split; [| split; [| split]].
      * rewrite Tr, map_app, <- app_assoc. do 3 f_equal. simpl.
        rewrite <- Htot, firstn_app, firstn_all, Nat.sub_diag. simpl.
        now rewrite app_nil_r.
      * apply sorted_snoc; auto.
        eapply Forall_impl; [| exact Hk]. simpl. intros k Hk'. lia.
      * apply Forall_app. split.
        -- eapply Forall_impl; [| exact Hk]. simpl. intros k Hk'. lia.
        -- repeat constructor; lia.
      * apply last_last.
  - destruct T as [Hi Htot]. rewrite (tick_no_interval s Hi).
    exists ks. unfold session. rewrite E, Q, Eh. auto 10.
Qed.

Lemma session_run (r : request) (ins : list input) (s0 s : state)
    (total : jsstring) (ks : list nat) :
  session r s0 total ks s ->
  exists ks',
    session r s0 (total ++ enqueued ins) ks' (run s (map (event_of r) ins)).
Proof.
  revert s total ks.
  induction ins as [|[text|] ins IH]; intros s total ks H; simpl.
  - exists ks. now rewrite app_nil_r.
  - destruct (IH _ _ _ (session_enqueue r s0 s total text ks H)) as [ks' H'].
    exists ks'. now rewrite app_assoc.
  - destruct (session_period r s0 s total ks H) as [ks1 H1].
    apply (IH _ _ _ H1).
Qed.

Lemma enqueued_app (a b : list input) :
  enqueued (a ++ b) = enqueued a ++ enqueued b.
Proof.
  induction a as [|[text|] a IH]; simpl; auto.
  now rewrite IH, app_assoc.
Qed.

Lemma enqueued_periods (n : nat) : enqueued (repeat Period n) = [].
Proof. induction n; simpl; auto. Qed.

Lemma frames_updates (fs : list jsstring) : frames (map OnUpdate fs) = fs.
Proof. induction fs; simpl; congruence. Qed.

Lemma frames_app (a b : list effect) : frames (a ++ b) = frames a ++ frames b.
Proof.
  induction a as [|e a IH]; simpl; auto.
  destruct e; simpl; congruence.
Qed.

Lemma last_cons_default {A : Type} (ks : list A) :
  forall k d, last (k :: ks) d = last ks k.
Proof.
  induction ks as [|x ks IH]; intros k d; [reflexivity |].
  change (last (k :: x :: ks) d) with (last (x :: ks) d).
  rewrite (IH x d). symmetry. apply IH.
Qed.

Lemma last_default_or_in {A : Type} (ks : list A) :
  forall d, last ks d = d \/ In (last ks d) ks.
Proof.
  induction ks as [|x ks IH]; intros d; [left; reflexivity |].
  right. rewrite last_cons_default.
  destruct (IH x) as [-> | Hin]; [left; reflexivity | right; exact Hin].
Qed.

Lemma skipn_app_le {A : Type} (n : nat) (a b : list A) :
  n <= length a -> skipn n (a ++ b) = skipn n a ++ b.
Proof.
  intros H. rewrite skipn_app. replace (n - length a) with 0 by lia.
  reflexivity.
Qed.

(** The frames of a session, the repeated part counted once, are the
    prefix and the total up to the last length shown. *)
Lemma deltas_of_session (prefix total : jsstring) (ks : list nat) :
  forall k0,
  StronglySorted lt ks ->
  Forall (fun k => k0 < k <= length total) ks ->
  k0 <= length total ->
  deltas (length prefix + k0) (map (fun k => prefix ++ firstn k total) ks)
  = skipn k0 (firstn (last ks k0) total).
Proof.
  induction ks as [|k ks IH]; intros k0 Hs Hk H0.
  - simpl. rewrite skipn_firstn_comm, Nat.sub_diag. reflexivity.
  - inversion Hs as [|? ? Hs' Hlt]; subst.
    inversion Hk as [|? ? Hk0 Hk']; subst.
    assert (Hks : Forall (fun x => k < x <= length total) ks).
    { rewrite Forall_forall in *. intros x Hx.
      specialize (Hlt x Hx). specialize (Hk' x Hx). lia. }
    assert (HL : k <= last ks k <= length total).
    { destruct (last_default_or_in ks k) as [-> | Hin]; [lia |].
      rewrite Forall_forall in Hks. specialize (Hks _ Hin). lia. }
    cbn [map deltas]. rewrite last_cons_default.
    rewrite length_app, length_firstn, Nat.min_l by lia.
    rewrite (IH k Hs' Hks) by lia.
    rewrite skipn_app, skipn_all2 by lia. cbn [app].
    replace (length prefix + k0 - length prefix) with k0 by lia.
    rewrite <- (firstn_skipn k (firstn (last ks k) total)) at 2.
    rewrite firstn_firstn, Nat.min_l by lia.
    rewrite skipn_app_le; [reflexivity |].
    rewrite length_firstn. lia.
Qed.

(** C4.  Let the chunks [T1 ... Tn] of one request be enqueued in that
    order with any number of ticks before, between and after them, from a
    state in which no typewriter runs and nothing is pending, and let
    enough ticks follow to drain the queue.  Then the queue is empty and
    the revealed text is [T1 ... Tn]; every call of [onUpdate] showed the
    prefix followed by an initial part of [T1 ... Tn], each longer than the
    one before; counted once where frames repeat, the characters shown are
    the prefix followed by [T1 ... Tn]; and at every point of the run the
    revealed text followed by the queue is what has been enqueued so far,
    so characters leave the queue from its front only. *)
Theorem reveal_preserves_order (r : request) (ins : list input) (n : nat)
    (s0 : state) :
  idle s0 -> pendingFinalizeFn s0 = None ->
  length (enqueued ins) <= 2 * n ->
  let total := enqueued ins in
  let s := run s0 (map (event_of r) (ins ++ repeat Period n)) in
  streamQueue s = [] /\ streamRendered s = total /\
  (exists ks,
      trace s = trace s0
                ++ map (fun k => OnUpdate (prefix_of r ++ firstn k total)) ks /\
      frames (trace s)
      = frames (trace s0) ++ map (fun k => prefix_of r ++ firstn k total) ks /\
      StronglySorted lt ks /\
      Forall (fun k => 0 < k <= length total) ks /\
      revealed (prefix_of r) (map (fun k => prefix_of r ++ firstn k total) ks)
      = prefix_of r ++ total) /\
  (forall k,
      let sk := run s0 (map (event_of r) (firstn k ins)) in
      streamRendered sk ++ streamQueue sk = enqueued (firstn k ins)).
Proof.
  intros Hidle E Hn total s.
  pose proof (session_begin r s0 Hidle E) as H0.
  assert (Hfront : forall k,
             streamRendered (run s0 (map (event_of r) (firstn k ins)))
             ++ streamQueue (run s0 (map (event_of r) (firstn k ins)))
             = enqueued (firstn k ins)).
  { intros k. destruct (session_run r (firstn k ins) s0 s0 [] [] H0)
      as (ks & _ & Q & _). exact Q. }
  destruct (session_run r ins s0 s0 [] [] H0) as (ks1 & H1).
  cbn [app] in H1. fold total in H1.
  set (s1 := run s0 (map (event_of r) ins)) in *.
  assert (Hs : s = run s1 (repeat Tick n)).
  { unfold s, s1. rewrite map_app, run_app. f_equal.
    clear. induction n; simpl; congruence. }
  destruct (session_run r (repeat Period n) s0 s1 total ks1 H1) as (ks & H).
  rewrite enqueued_periods, app_nil_r in H.
  replace (map (event_of r) (repeat Period n)) with (repeat Tick n) in H
    by (clear; induction n; simpl; congruence).
  rewrite <- Hs in H.
  assert (Hq : streamQueue s = []).
  { destruct (streamTimer s1) as [h|] eqn:Eh.
    - destruct (ticks_move_front n s1 (session_one_timer _ _ _ _ _ H1))
        as [A _].
      + congruence.
      + apply H1.
      + rewrite Hs, A. apply skipn_all2.
        destruct H1 as (_ & Q & _).
        assert (length (streamQueue s1) <= length total).
        { rewrite <- Q, length_app. lia. }
        change take with 2. unfold total in *. lia.
    - destruct H1 as (_ & Q & T & _). rewrite Eh in T. destruct T as [Hi Ht].
      rewrite Hs, (run_ticks_idle n s1 Hi).
      rewrite Ht in Q. now apply app_eq_nil in Q. }
  destruct H as (_ & Q & _ & Tr & Hsort & Hk & Hl).
  rewrite Hq, app_nil_r in Q.
  split; [exact Hq |]. split; [exact Q |]. split; [| exact Hfront].
  exists ks. rewrite Q in Hk, Hl.
  split; [exact Tr |]. split.
  { rewrite Tr, frames_app. f_equal.
    rewrite <- (map_map (fun k => prefix_of r ++ firstn k total) OnUpdate).
    apply frames_updates. }
  split; [exact Hsort |]. split; [exact Hk |].
  unfold revealed. f_equal.
  replace (length (prefix_of r)) with (length (prefix_of r) + 0) by lia.
  rewrite deltas_of_session; auto; try lia.
  rewrite Hl. cbn [skipn]. apply firstn_all.
Qed.

Lemma reveal_preserves_order_witness :
  let r := Turn (str "> You: look") in
  let ins := [Enqueue (str "On"); Period; Enqueue (str "ce u"); Period;
              Enqueue (str "pon")] in
  let s := run init (map (event_of r) (ins ++ repeat Period 5)) in
  streamQueue s = [] /\ streamRendered s = str "Once upon".
Proof.
  intros r ins s.
  destruct (reveal_preserves_order r ins 5 init) as (A & B & _).
  - repeat split.
  - reflexivity.
  - vm_compute. lia.
  - exact (conj A B).
Defined.

(* ----------------------------------------------------------------- *)
(** ** The deferred finalize *)

Lemma no_finalize_in_updates (fs : list jsstring) :
  filter is_finalize (map OnUpdate fs) = [].
Proof. induction fs; simpl; auto. Qed.

Lemma session_no_calls (r : request) (s0 s : state) (total : jsstring)
    (ks : list nat) :
  session r s0 total ks s -> finalize_calls s = finalize_calls s0.
Proof.
  intros (_ & _ & _ & Tr & _).
  rewrite (finalize_calls_app s0 s _ Tr).
  rewrite <- (map_map (fun k => prefix_of r ++ firstn k total) OnUpdate).
  now rewrite no_finalize_in_updates, app_nil_r.
Qed.

Lemma inputs_no_final (r : request) (ins : list input) :
  forallb no_final (map (event_of r) ins) = true.
Proof. induction ins as [|[text|] ins IH]; simpl; auto. Qed.

Lemma finalized_run (r : request) (s0 s : state) (shown : jsstring)
    (ins : list input) :
  finalized r s0 shown s ->
  finalized r s0 shown (run s (map (event_of r) ins)).
Proof.
  intros (Hwf & E & C).
  destruct (run_no_pending _ s Hwf E (inputs_no_final r ins)) as [E' C'].
  split; [now apply run_wf |]. split; [exact E' | congruence].
Qed.

Lemma pending_timer (r : request) (s0 s : state) (total : jsstring) :
  pending r s0 total s ->
  exists h p f,
    streamTimer s = Some h /\
    intervals s = [ {| i_handle := h; i_prefix := p; i_onUpdate := f |} ].
Proof.
  intros ([H Hq] & _ & Q & _). unfold one_timer in H.
  destruct (streamTimer s) as [h|].
  - destruct H as [_ (p & f & Hi)]. eauto.
  - destruct (Hq eq_refl) as [Hq' _]. contradiction.
Qed.

Lemma pending_enqueue (r : request) (s0 s : state) (total text : jsstring) :
  pending r s0 total s ->
  pending r s0 (total ++ text) (onEvent r (EvChunk text) s).
Proof.
  intros H. destruct (pending_timer _ _ _ _ H) as (h & p & f & Eh & _).
  destruct H as (Hwf & E & Q & T & C).
  split; [now apply onEvent_wf |].
  unfold onEvent. cbn [streamTimer set_streamQueue]. rewrite Eh. simpl.
  split; [exact E |]. split; [| split].
  - intros Hnil. apply app_eq_nil in Hnil. now destruct Hnil.
  - now rewrite app_assoc, T.
  - exact C.
Qed.

Lemma pending_period (r : request) (s0 s : state) (total : jsstring) :
  pending r s0 total s ->
  (pending r s0 total (tick s) /\
   length (streamQueue (tick s)) + 2 <= length (streamQueue s)) \/
  finalized r s0 total (tick s).
Proof.
  intros H. destruct (pending_timer _ _ _ _ H) as (h & p & f & Eh & Hi).
  destruct H as (Hwf & E & Q & T & C).
  pose proof (tick_wf s Hwf) as Hwf'.
  rewrite (tick_one_interval s _ Hi) in *. cbn [i_prefix i_onUpdate] in *.
  rewrite interval_callback_unfold in *.
  apply truthy_true in Q. rewrite Q in *. cbn [negb] in *.
  destruct (reveal_fields p f s) as (A & B & Tr & _ & _ & _ & P & _).
  assert (Htot : streamRendered (reveal p f s) ++ streamQueue (reveal p f s)
                 = total).
  { rewrite A, B, <- app_assoc, firstn_skipn. exact T. }
  assert (Hc : finalize_calls (reveal p f s) = finalize_calls s0).
  { rewrite (finalize_calls_app s _ _ Tr). simpl. now rewrite app_nil_r. }
  destruct (streamQueue (reveal p f s)) as [|c q] eqn:Eq; cbn [truthy negb] in *.
  - right. rewrite app_nil_r in Htot.
    assert (H1 : one_timer (reveal p f s))
      by (apply reveal_one_timer, Hwf).
    assert (E1 : pendingFinalizeFn (reveal p f s) = Some (finalizer_of r))
      by congruence.
    destruct (fire_pending_fields _ _ H1 E1) as (_ & E2 & _ & Tr2 & _).
    split; [exact Hwf' |]. split; [exact E2 |].
    rewrite (finalize_calls_app _ _ _ Tr2), Hc, Eq, Htot. reflexivity.
  - left. split.
    + split; [exact Hwf' |]. split; [congruence |]. split; [| split].
      * rewrite Eq. discriminate.
      * rewrite Eq. exact Htot.
      * exact Hc.
    + assert (Hlen : length (skipn take (streamQueue s)) = S (length q))
        by now rewrite <- A.
      rewrite length_skipn in Hlen. change take with 2 in Hlen.
      rewrite Eq. simpl. lia.
Qed.

Lemma pending_input (r : request) (s0 s : state) (total : jsstring)
    (i : input) :
  pending r s0 total s ->
  pending r s0 (total ++ enqueued [i]) (step s (event_of r i)) \/
  finalized r s0 (total ++ enqueued [i]) (step s (event_of r i)).
Proof.
  intros H. destruct i as [text|]; cbn [event_of step enqueued].
  - left. rewrite app_nil_r. now apply pending_enqueue.
  - rewrite app_nil_r. destruct (pending_period r s0 s total H) as [[H' _] | H'];
      auto.
Qed.

(** From a state where the function waits: after the first [k] inputs it
    still waits, or it was called at some input [j <= k], with all that was
    enqueued up to then revealed, having waited until then. *)
Lemma pending_run (r : request) (s0 : state) (post : list input) :
  forall (s : state) (total : jsstring) (k : nat),
  pending r s0 total s ->
  pending r s0 (total ++ enqueued (firstn k post))
    (run s (map (event_of r) (firstn k post))) \/
  exists j,
    0 < j <= k /\
    finalized r s0 (total ++ enqueued (firstn j post))
      (run s (map (event_of r) (firstn k post))) /\
    forall i, i < j ->
      pendingFinalizeFn (run s (map (event_of r) (firstn i post)))
      = Some (finalizer_of r).
Proof.
  induction post as [|x post IH]; intros s total k H.
  - left. rewrite firstn_nil. simpl. now rewrite app_nil_r.
  - destruct k as [|k].
    + left. simpl. now rewrite app_nil_r.
    + cbn [firstn map run fold_left].
      fold (run (step s (event_of r x)) (map (event_of r) (firstn k post))).
      destruct (pending_input r s0 s total x H) as [H' | H'].
      * destruct (IH _ _ k H') as [H'' | (j & Hj & H'' & Hw)].
        -- left.
           replace (total ++ enqueued (x :: firstn k post))
             with ((total ++ enqueued [x]) ++ enqueued (firstn k post));
             [exact H'' |].
           rewrite <- app_assoc. f_equal.
           change (x :: firstn k post) with ([x] ++ firstn k post).
           now rewrite enqueued_app.
        -- right. exists (S j). split; [lia |]. split.
           ++ replace (total ++ enqueued (firstn (S j) (x :: post)))
                with ((total ++ enqueued [x]) ++ enqueued (firstn j post));
                [exact H'' |].
              rewrite <- app_assoc. f_equal. cbn [firstn].
              change (x :: firstn j post) with ([x] ++ firstn j post).
              now rewrite enqueued_app.
           ++ intros i Hi. destruct i as [|i].
              ** simpl. apply H.
              ** cbn [firstn map run fold_left]. apply Hw. lia.
      * right. exists 1. split; [lia |]. split.
        -- cbn [firstn]. now apply finalized_run.
        -- intros i Hi. replace i with 0 by lia. simpl. apply H.
Qed.

(** While the function waits, [n] ticks with [2 n] at least the length of
    the queue drain the queue and call it. *)
Lemma pending_ticks (r : request) (s0 : state) (total : jsstring) (n : nat) :
  forall s,
  pending r s0 total s -> length (streamQueue s) <= 2 * n ->
  finalized r s0 total (run s (repeat Tick n)).
Proof.
  induction n as [|n IH]; intros s H Hn.
  - destruct H as (_ & _ & Q & _). destruct (streamQueue s); [contradiction |].
    simpl in Hn. lia.
  - cbn [repeat run fold_left step].
    fold (run (tick s) (repeat Tick n)).
    destruct (pending_period r s0 s total H) as [[H' Hlen] | H'].
    + apply IH; auto. lia.
    + replace (repeat Tick n) with (map (event_of r) (repeat Period n))
        by (clear; induction n; simpl; congruence).
      now apply finalized_run.
Qed.

(** Whatever the events, a finalize function is only ever called on an
    empty queue. *)
Lemma fire_pending_on_empty (s : state) :
  one_timer s -> streamQueue s = [] ->
  Forall called_on_empty (trace s) ->
  Forall called_on_empty (trace (fire_pending s)).
Proof.
  intros H Hq Htr. destruct (pendingFinalizeFn s) as [fn|] eqn:E.
  - destruct (fire_pending_fields s fn H E) as (_ & _ & _ & Tr & _).
    rewrite Tr, Hq. apply Forall_app. split; [exact Htr |].
    repeat constructor.
  - now rewrite (fire_pending_none s E).
Qed.

Lemma interval_callback_on_empty (prefix : jsstring) (onUpdate : callback)
    (s : state) :
  one_timer s ->
  Forall called_on_empty (trace s) ->
  Forall called_on_empty (trace (interval_callback prefix onUpdate s)).
Proof.
  intros H Htr. rewrite interval_callback_unfold.
  destruct (streamQueue s) as [|c q] eqn:Eq; cbn [truthy negb].
  - now apply fire_pending_on_empty.
  - destruct (reveal_fields prefix onUpdate s) as (_ & _ & Tr & _).
    assert (Htr' : Forall called_on_empty (trace (reveal prefix onUpdate s))).
    { rewrite Tr. apply Forall_app. split; [exact Htr |].
      repeat constructor. }
    destruct (streamQueue (reveal prefix onUpdate s)) eqn:Eq';
      cbn [truthy negb]; auto.
    apply fire_pending_on_empty; auto. now apply reveal_one_timer.
Qed.

Lemma step_on_empty (s : state) (ev : event) :
  wf s ->
  Forall called_on_empty (trace s) ->
  Forall called_on_empty (trace (step s ev)).
Proof.
  intros Hwf Htr. destruct ev as [r e | | r message |]; cbn [step].
  - destruct e as [text | story | message |]; unfold onEvent.
    + cbn [streamTimer set_streamQueue].
      destruct (streamTimer s) as [h|] eqn:Et; [exact Htr |].
      set (s1 := set_streamQueue _ s).
      assert (H1 : one_timer s1) by exact (proj1 Hwf).
      destruct (startTypewriter_fields (prefix_of r) ShowProgress s1 H1)
        as (_ & _ & _ & _ & _ & T & _).
      now rewrite T.
    + set (s2 := set_pendingFinalizeFn _ _).
      destruct (streamQueue s2) eqn:Eq; cbn [truthy negb]; [| exact Htr].
      apply fire_pending_on_empty; auto. exact (proj1 Hwf).
    + destruct (abort_stream_fields r
                  (or_default message (str "Unknown error.")) s (proj1 Hwf))
        as (_ & _ & _ & T & _).
      now rewrite T.
    + exact Htr.
  - destruct (tick_cases s (proj1 Hwf))
      as [[_ Et] | (h & p & f & _ & _ & Et)]; rewrite Et; auto.
    apply interval_callback_on_empty; auto. exact (proj1 Hwf).
  - destruct (abort_stream_fields r message s (proj1 Hwf))
      as (_ & _ & _ & T & _).
    now rewrite T.
  - unfold settle. cbn [emit trace]. apply Forall_app. split; [exact Htr |].
    repeat constructor.
Qed.

Lemma run_on_empty (evs : list event) (s : state) :
  wf s ->
  Forall called_on_empty (trace s) ->
  Forall called_on_empty (trace (run s evs)).
Proof.
  revert s. induction evs as [|ev evs IH]; intros s Hwf Htr; simpl; auto.
  apply IH; [now apply step_wf | now apply step_on_empty].
Qed.

(** Calls made and the call still owed never exceed the registrations:
    a registered function is called at most once. *)
Lemma fire_pending_budget (s : state) :
  one_timer s ->
  length (finalize_calls (fire_pending s)) + pending_count (fire_pending s)
  = length (finalize_calls s) + pending_count s.
Proof.
  intros H. unfold pending_count.
  destruct (pendingFinalizeFn s) as [fn|] eqn:E.
  - destruct (fire_pending_fields s fn H E) as (_ & P & _ & Tr & _).
    rewrite P, (finalize_calls_app s _ _ Tr), length_app. simpl. lia.
  - rewrite (fire_pending_none s E), E. reflexivity.
Qed.

Lemma reveal_budget (prefix : jsstring) (onUpdate : callback) (s : state) :
  length (finalize_calls (reveal prefix onUpdate s))
  + pending_count (reveal prefix onUpdate s)
  = length (finalize_calls s) + pending_count s.
Proof.
  destruct (reveal_fields prefix onUpdate s)
    as (_ & _ & Tr & _ & _ & _ & P & _).
  unfold pending_count. rewrite P, (finalize_calls_app s _ _ Tr).
  simpl. now rewrite app_nil_r.
Qed.

Lemma interval_callback_budget (prefix : jsstring) (onUpdate : callback)
    (s : state) :
  one_timer s ->
  length (finalize_calls (interval_callback prefix onUpdate s))
  + pending_count (interval_callback prefix onUpdate s)
  = length (finalize_calls s) + pending_count s.
Proof.
  intros H. rewrite interval_callback_unfold.
  destruct (negb (truthy (streamQueue s))).
  - now apply fire_pending_budget.
  - destruct (negb (truthy (streamQueue (reveal prefix onUpdate s)))).
    + rewrite fire_pending_budget by now apply reveal_one_timer.
      apply reveal_budget.
    + apply reveal_budget.
Qed.

Lemma step_budget (s : state) (ev : event) :
  wf s ->
  length (finalize_calls (step s ev)) + pending_count (step s ev)
  <= length (finalize_calls s) + pending_count s
     + (if no_final ev then 0 else 1).
Proof.
  intros Hwf. destruct ev as [r e | | r message |]; cbn [step no_final].
  - destruct e as [text | story | message |]; unfold onEvent.
    + cbn [streamTimer set_streamQueue].
      destruct (streamTimer s) as [h|] eqn:Et.
      * unfold pending_count, finalize_calls. simpl. lia.
      * set (s1 := set_streamQueue _ s).
        assert (H1 : one_timer s1) by exact (proj1 Hwf).
        destruct (startTypewriter_fields (prefix_of r) ShowProgress s1 H1)
          as (_ & _ & _ & _ & _ & T & P & _).
        unfold pending_count. rewrite P, (finalize_calls_same s1 _ T).
        unfold finalize_calls. simpl. lia.
    + set (s2 := set_pendingFinalizeFn _ _).
      assert (H2 : one_timer s2) by exact (proj1 Hwf).
      assert (Hs2 : length (finalize_calls s2) + pending_count s2
                    <= length (finalize_calls s) + pending_count s + 1).
      { unfold pending_count, finalize_calls. simpl.
        destruct (pendingFinalizeFn s); lia. }
      destruct (negb (truthy (streamQueue s2))).
      * rewrite fire_pending_budget by exact H2. exact Hs2.
      * exact Hs2.
    + destruct (abort_stream_fields r
                  (or_default message (str "Unknown error.")) s (proj1 Hwf))
        as (_ & P & _ & T & _).
      unfold pending_count. rewrite P, (finalize_calls_same s _ T). lia.
    + lia.
  - destruct (tick_cases s (proj1 Hwf))
      as [[_ Et] | (h & p & f & _ & _ & Et)]; rewrite Et; [lia |].
    rewrite interval_callback_budget by exact (proj1 Hwf). lia.
  - destruct (abort_stream_fields r message s (proj1 Hwf))
      as (_ & P & _ & T & _).
    unfold pending_count. rewrite P, (finalize_calls_same s _ T). lia.
  - rewrite (finalize_calls_app s (settle s) [Focus]) by reflexivity.
    simpl. rewrite app_nil_r. unfold pending_count. simpl. lia.
Qed.

Lemma run_budget (evs : list event) (s : state) :
  wf s ->
  length (finalize_calls (run s evs)) + pending_count (run s evs)
  <= length (finalize_calls s) + pending_count s + registrations evs.
Proof.
  revert s. induction evs as [|ev evs IH]; intros s Hwf.
  - simpl. unfold registrations. simpl. lia.
  - cbn [run fold_left]. fold (run (step s ev) evs).
    specialize (IH (step s ev) (step_wf s ev Hwf)).
    pose proof (step_budget s ev Hwf).
    unfold registrations in *. cbn [filter].
    destruct (no_final ev); cbn [negb length] in *; lia.
Qed.

Lemma idle_wf (s : state) : idle s -> wf s.
Proof.
  intros H. split; [now apply idle_one_timer |].
  destruct H as (_ & _ & A & B). auto.
Qed.

Lemma ticks_are_periods (r : request) (n : nat) :
  map (event_of r) (repeat Period n) = repeat Tick n.
Proof. induction n; simpl; congruence. Qed.

Lemma run_session_events (r : request) (story : option jsstring)
    (pre post : list input) (s0 : state) :
  run s0 (session_events r story pre post)
  = run (onEvent r (EvFinal story) (run s0 (map (event_of r) pre)))
        (map (event_of r) post).
Proof. unfold session_events. now rewrite run_app. Qed.

(** C2.  From a state in which no typewriter runs and nothing is pending,
    whatever events follow (chunks, [final] and [error] lines of any
    request, ticks, failures), a finalize function is only ever called
    with [streamQueue] empty; the calls made, plus the one still owed when
    a function is pending, never exceed the [final] lines delivered, so a
    registered function is called at most once; and it is cleared before
    it is called.  Now
    take one request: chunks and ticks in any order, the [final] line, then
    again chunks and ticks in any order.  Nothing is called before the
    [final] line.  After the line and any [k] further inputs, either the function
    still waits, and then characters are still queued; or it has been
    called exactly once, at an input [j <= k] until which it had waited,
    with the queue empty and the revealed text equal to all that had been
    enqueued up to then, and nothing is pending any more, so no later input
    calls it again.  And once enough ticks have followed to drain what was
    enqueued, it has been called. *)
Theorem finalize_once_after_drain (r : request) (story : option jsstring)
    (pre post : list input) (n : nat) (s0 : state) :
  idle s0 -> pendingFinalizeFn s0 = None ->
  let fn := finalizer_of r in
  let at_input := fun k => run s0 (session_events r story pre (firstn k post)) in
  (forall evs, Forall called_on_empty (trace s0) ->
               Forall called_on_empty (trace (run s0 evs))) /\
  (forall evs, length (finalize_calls (run s0 evs)) + pending_count (run s0 evs)
               <= length (finalize_calls s0) + registrations evs) /\
  (forall s f, pendingFinalizeFn s = Some f ->
               fire_pending s = call_finalizer f (set_pendingFinalizeFn None s)) /\
  finalize_calls (run s0 (map (event_of r) pre)) = finalize_calls s0 /\
  (forall k,
      (pendingFinalizeFn (at_input k) = Some fn /\
       streamQueue (at_input k) <> [] /\
       finalize_calls (at_input k) = finalize_calls s0)
      \/
      (pendingFinalizeFn (at_input k) = None /\
       exists j,
         j <= k /\
         finalize_calls (at_input k)
         = finalize_calls s0
           ++ [Finalize fn [] (enqueued (pre ++ firstn j post))] /\
         forall i, i < j -> pendingFinalizeFn (at_input i) = Some fn)) /\
  (length (enqueued (pre ++ post)) <= 2 * n ->
   let s := run s0 (session_events r story pre (post ++ repeat Period n)) in
   pendingFinalizeFn s = None /\
   exists j,
     j <= length post /\
     finalize_calls s
     = finalize_calls s0 ++ [Finalize fn [] (enqueued (pre ++ firstn j post))]).
Proof.
  intros Hidle E fn at_input.
  split.
  { intros evs. apply run_on_empty. now apply idle_wf. }
  split.
  { intros evs. pose proof (run_budget evs s0 (idle_wf s0 Hidle)) as Hb.
    unfold pending_count in Hb at 2. rewrite E in Hb. lia. }
  split.
  { intros s f Hf. unfold fire_pending. now rewrite Hf. }
  destruct (session_run r pre s0 s0 [] [] (session_begin r s0 Hidle E))
    as (ks & HA).
  cbn [app] in HA.
  set (sA := run s0 (map (event_of r) pre)) in *.
  pose proof (session_no_calls _ _ _ _ _ HA) as CA.
  pose proof (session_wf _ _ _ _ _ HA) as WA.
  split; [exact CA |].
  set (sF := onEvent r (EvFinal story) sA).
  assert (Hat : forall l, run s0 (session_events r story pre l)
                          = run sF (map (event_of r) l)).
  { intros l. apply run_session_events. }
  assert (WF : wf sF) by (apply onEvent_wf, WA).
  destruct HA as (_ & QA & _).
  destruct (streamQueue sA) as [|c q] eqn:Eq.
  - (* the queue is empty when the line arrives *)
    rewrite app_nil_r in QA.
    assert (HsF : sF = fire_pending
                         (set_pendingFinalizeFn (Some (finalizer_of r))
                            (set_pendingFinalStory (Some (or_empty story)) sA)))
      by (apply onEvent_final_empty, Eq).
    destruct (fire_pending_fields
                (set_pendingFinalizeFn (Some (finalizer_of r))
                   (set_pendingFinalStory (Some (or_empty story)) sA))
                (finalizer_of r) (proj1 WA) eq_refl)
      as (_ & P & _ & Tr & _).
    rewrite <- HsF in Tr, P. cbn [trace streamQueue streamRendered
      set_pendingFinalizeFn set_pendingFinalStory] in Tr. rewrite Eq in Tr.
    assert (HF : finalized r s0 (enqueued pre) sF).
    { split; [exact WF |]. split; [exact P |].
      rewrite (finalize_calls_app sA sF _ Tr), CA, QA. reflexivity. }
    split.
    + intros k. right. unfold at_input. rewrite Hat.
      destruct (finalized_run r s0 sF _ (firstn k post) HF) as (_ & P' & C').
      split; [exact P' |]. exists 0. split; [lia |]. split.
      * cbn [firstn]. rewrite app_nil_r. exact C'.
      * intros i Hi. lia.
    + intros _ s. unfold s. rewrite Hat.
      destruct (finalized_run r s0 sF _ (post ++ repeat Period n) HF)
        as (_ & P' & C').
      split; [exact P' |]. exists 0. split; [lia |].
      cbn [firstn]. rewrite app_nil_r. exact C'.
  - (* characters are queued when the line arrives *)
    assert (Hne : streamQueue sA <> []) by (rewrite Eq; discriminate).
    destruct (final_on_nonempty_queue_waits r story sA Hne)
      as (Tr & P & _ & Q & R & _).
    fold sF in Tr, P, Q, R.
    assert (HP : pending r s0 (enqueued pre) sF).
    { split; [exact WF |]. split; [exact P |]. split; [| split].
      - now rewrite Q.
      - rewrite Q, R, Eq. exact QA.
      - rewrite (finalize_calls_same sA sF Tr). exact CA. }
    split.
    + intros k. unfold at_input. rewrite Hat.
      destruct (pending_run r s0 post sF (enqueued pre) k HP)
        as [(_ & P' & Q' & _ & C') | (j & Hj & (_ & P' & C') & Hw)].
      * left. auto.
      * right. split; [exact P' |]. exists j. split; [lia |]. split.
        -- now rewrite enqueued_app.
        -- intros i Hi. rewrite Hat. now apply Hw.
    + intros Hn s. unfold s. rewrite Hat, map_app, run_app.
      rewrite ticks_are_periods.
      destruct (pending_run r s0 post sF (enqueued pre) (length post) HP)
        as [H' | (j & Hj & H' & _)]; rewrite firstn_all in H'.
      * assert (Hlen : length (streamQueue
                                 (run sF (map (event_of r) post))) <= 2 * n).
        { destruct H' as (_ & _ & _ & T' & _).
          rewrite enqueued_app in Hn. rewrite <- T', length_app in Hn. lia. }
        destruct (pending_ticks r s0 _ n _ H' Hlen) as (_ & P' & C').
        split; [exact P' |]. exists (length post). split; [lia |].
        now rewrite firstn_all, enqueued_app.
      * rewrite <- ticks_are_periods with (r := r).
        destruct (finalized_run r s0 _ _ (repeat Period n) H')
          as (_ & P' & C').
        split; [exact P' |]. exists j. split; [lia |].
        now rewrite enqueued_app.
Qed.

Lemma finalize_once_after_drain_witness :
  let r := NewStory in
  let pre := [Enqueue (str "abc"); Period] in
  let post := [Enqueue (str "de"); Period] in
  let s := run init
             (session_events r (Some (str "abcde")) pre
                (post ++ repeat Period 3)) in
  pendingFinalizeFn s = None /\
  exists j,
    j <= length post /\
    finalize_calls s
    = finalize_calls init
      ++ [Finalize FinalizeNewStory [] (enqueued (pre ++ firstn j post))].
Proof.
  intros r pre post s.
  refine (proj2 (proj2 (proj2 (proj2 (proj2
            (finalize_once_after_drain r (Some (str "abcde")) pre post 3 init
               _ _))))) _).
  - repeat split.
  - reflexivity.
  - vm_compute. lia.
Defined.

(** C2, the counterexample: with a second [final] line the statement does
    not hold of the sequence as a whole.  After a chunk of two characters,
    a tick and two [final] lines the function has been called twice, the
    second time with nothing revealed although two characters had been
    enqueued.  After a chunk of four characters, two [final] lines and
    four ticks the function was registered twice and called once, and the
    story of the first line was never made the current one. *)
Lemma second_final_line_breaks_exactly_once :
  finalize_calls
    (run init [ Deliver NewStory (EvChunk (str "ab")); Tick;
                Deliver NewStory (EvFinal (Some (str "A")));
                Deliver NewStory (EvFinal (Some (str "B"))) ])
  = [ Finalize FinalizeNewStory [] (str "ab");
      Finalize FinalizeNewStory [] [] ]
  /\ registrations
       [ Deliver NewStory (EvChunk (str "abcd"));
         Deliver NewStory (EvFinal (Some (str "A")));
         Deliver NewStory (EvFinal (Some (str "B")));
         Tick; Tick; Tick; Tick ] = 2
  /\ finalize_calls
       (run init [ Deliver NewStory (EvChunk (str "abcd"));
                   Deliver NewStory (EvFinal (Some (str "A")));
                   Deliver NewStory (EvFinal (Some (str "B")));
                   Tick; Tick; Tick; Tick ])
     = [ Finalize FinalizeNewStory [] (str "abcd") ]
  /\ currentStoryText
       (run init [ Deliver NewStory (EvChunk (str "abcd"));
                   Deliver NewStory (EvFinal (Some (str "A")));
                   Deliver NewStory (EvFinal (Some (str "B")));
                   Tick; Tick; Tick; Tick ])
     = str "B".
Proof.
  split; [reflexivity |]. split; [reflexivity |].
  split; reflexivity.
Qed.

(* ----------------------------------------------------------------- *)
(** ** The line loop of [streamNdjson] *)

Lemma has_no_LF_cons (c : char) (l : jsstring) :
  has_no_LF (c :: l) <-> (c =? LF)%N = false /\ has_no_LF l.
Proof.
  unfold has_no_LF. simpl. rewrite N.eqb_neq. split.
  - intros H. split; [intros E; apply H; left; congruence | tauto].
  - intros [H1 H2] [E | E]; [congruence | tauto].
Qed.

Lemma indexOf_line (l rest : jsstring) :
  has_no_LF l -> indexOf LF (l ++ LF :: rest) = Some (length l).
Proof.
  induction l as [|c l IH]; intros H; simpl.
  - reflexivity.
  - apply has_no_LF_cons in H. destruct H as [Hc Hl].
    rewrite Hc, (IH Hl). reflexivity.
Qed.

Lemma indexOf_tail (l : jsstring) : has_no_LF l -> indexOf LF l = None.
Proof.
  induction l as [|c l IH]; intros H; simpl; auto.
  apply has_no_LF_cons in H. destruct H as [Hc Hl].
  rewrite Hc, (IH Hl). reflexivity.
Qed.

Lemma lines_of_spec (s : jsstring) :
  stream_of (fst (lines_of s)) (snd (lines_of s)) = s /\
  Forall has_no_LF (fst (lines_of s)) /\ has_no_LF (snd (lines_of s)).
Proof.
  induction s as [|c s (E & Hl & Ht)]; simpl.
  - repeat split; [constructor | intros []].
  - destruct (lines_of s) as [ls tail]. simpl in *.
    destruct (c =? LF)%N eqn:Ec.
    + apply N.eqb_eq in Ec. subst c. simpl. rewrite E.
      split; [reflexivity |]. split; [| exact Ht].
      constructor; [intros [] | exact Hl].
    + destruct ls as [|l ls]; simpl in *.
      * rewrite E. split; [reflexivity |]. split; [constructor |].
        apply has_no_LF_cons. rewrite <- E. auto.
      * rewrite <- E. split; [reflexivity |]. split; [| exact Ht].
        inversion Hl; subst. constructor; auto. now apply has_no_LF_cons.
Qed.

Lemma lines_of_stream (ls : list jsstring) (tail : jsstring) :
  Forall has_no_LF ls -> has_no_LF tail ->
  forall more,
    lines_of (stream_of ls tail ++ more)
    = (ls ++ fst (lines_of (tail ++ more)), snd (lines_of (tail ++ more))).
Proof.
  intros Hl Ht more. induction Hl as [|l ls Hl0 Hl IH]; simpl.
  - now destruct (lines_of (tail ++ more)).
  - rewrite <- app_assoc. simpl.
    induction l as [|c l IHl]; simpl.
    + rewrite IH. reflexivity.
    + apply has_no_LF_cons in Hl0. destruct Hl0 as [Hc Hl0].
      rewrite (IHl Hl0), Hc. reflexivity.
Qed.

Lemma lines_of_tail (tail : jsstring) :
  has_no_LF tail -> lines_of tail = ([], tail).
Proof.
  induction tail as [|c l IH]; intros H; simpl; auto.
  apply has_no_LF_cons in H. destruct H as [Hc Hl].
  rewrite (IH Hl), Hc. reflexivity.
Qed.

Section StreamNdjsonFacts.

Variable J : Type.
Variable JSON_parse : jsstring -> option J.
Variable St : Type.
Variable handler : J -> St -> St.

Lemma dispatch_line_parsed (l : jsstring) (st : St) :
  dispatch_line JSON_parse handler l st
  = fold_left (fun st e => handler e st) (events_of JSON_parse [l]) st.
Proof.
  unfold dispatch_line, events_of, parsed_line. simpl.
  destruct (truthy (trim l)); simpl; auto.
  destruct (JSON_parse (trim l)); reflexivity.
Qed.

Lemma events_of_app (a b : list jsstring) :
  events_of JSON_parse (a ++ b)
  = events_of JSON_parse a ++ events_of JSON_parse b.
Proof. unfold events_of. apply flat_map_app. Qed.

(** The inner loop handles every complete line of the buffer, given fuel
    for each of them, and leaves what follows the last newline. *)
Lemma drain_lines (ls : list jsstring) (tail : jsstring) :
  Forall has_no_LF ls -> has_no_LF tail ->
  forall fuel st,
    length ls <= fuel ->
    drain JSON_parse handler fuel (stream_of ls tail) st
    = (tail, fold_left (fun st e => handler e st) (events_of JSON_parse ls) st).
Proof.
  intros Hl Ht. induction Hl as [|l ls Hl0 Hl IH]; intros fuel st Hf.
  - simpl. destruct fuel; simpl; auto. now rewrite (indexOf_tail tail Ht).
  - destruct fuel as [|fuel]; [simpl in Hf; lia |].
    cbn [drain stream_of]. rewrite (indexOf_line l _ Hl0).
    unfold slice_from, slice_to.
    replace (length l + 1) with (length (l ++ [LF])) by (rewrite length_app; simpl; lia).
    replace (l ++ LF :: stream_of ls tail) with ((l ++ [LF]) ++ stream_of ls tail)
      by (rewrite <- app_assoc; reflexivity).
    rewrite skipn_app, skipn_all, Nat.sub_diag. cbn [app skipn].
    rewrite <- app_assoc, firstn_app, firstn_all, Nat.sub_diag.
    cbn [firstn]. rewrite app_nil_r.
    rewrite IH by (simpl in Hf; lia).
    rewrite dispatch_line_parsed.
    change (l :: ls) with ([l] ++ ls).
    now rewrite events_of_app, fold_left_app.
Qed.

Lemma stream_of_length (ls : list jsstring) (tail : jsstring) :
  length ls <= length (stream_of ls tail).
Proof.
  induction ls as [|l ls IH]; simpl; [lia |].
  rewrite length_app. simpl. lia.
Qed.

Lemma read_loop_lines (reads : list jsstring) :
  forall buffer st,
    has_no_LF buffer ->
    read_loop JSON_parse handler reads buffer st
    = fold_left (fun st e => handler e st)
        (events_of JSON_parse (fst (lines_of (buffer ++ concat reads)))) st.
Proof.
  induction reads as [|value rest IH]; intros buffer st Hb.
  - simpl. rewrite app_nil_r, (lines_of_tail buffer Hb). reflexivity.
  - cbn [read_loop concat].
    destruct (lines_of_spec (buffer ++ value)) as (E & Hl & Ht).
    set (ls1 := fst (lines_of (buffer ++ value))) in *.
    set (t1 := snd (lines_of (buffer ++ value))) in *.
    rewrite app_assoc, <- E.
    rewrite (lines_of_stream ls1 t1 Hl Ht (concat rest)). cbn [fst].
    rewrite drain_lines; auto.
    + rewrite (IH t1 _ Ht), events_of_app, fold_left_app. reflexivity.
    + pose proof (stream_of_length ls1 t1). lia.
Qed.

(** Every stream has its lines: the loop dispatches those of the text
    read, whatever it is. *)
Lemma streamNdjson_lines (reads : list jsstring) (st : St) :
  streamNdjson JSON_parse handler reads st
  = fold_left (fun st e => handler e st)
      (events_of JSON_parse (fst (lines_of (concat reads)))) st.
Proof.
  unfold streamNdjson. rewrite read_loop_lines by (intros []). reflexivity.
Qed.

End StreamNdjsonFacts.

Lemma fold_left_record {A : Type} (es : list A) :
  forall acc, fold_left (fun log e => log ++ [e]) es acc = acc ++ es.
Proof.
  induction es as [|e es IH]; intros acc; simpl.
  - now rewrite app_nil_r.
  - rewrite IH, <- app_assoc. reflexivity.
Qed.

(** C9.  Let the stream be the lines [ls], each followed by a newline,
    then possibly an unterminated [tail], cut into reads at any places.
    [streamNdjson] folds the handler over the events of the lines whose
    trimmed text is not empty and parses, in the order of the stream: one
    call per such line.  A blank or malformed line contributes no call and
    leaves the lines after it to be handled as they would be without it.
    With a handler that records its argument, the record is exactly
    [events_of ls].  The calls are those of the lines that end in a
    newline: what follows the last newline is not dispatched, whether or
    not it parses. *)
Theorem streamNdjson_dispatches_parsed_lines (J : Type)
    (JSON_parse : jsstring -> option J) (St : Type) (handler : J -> St -> St)
    (reads ls : list jsstring) (tail : jsstring) (st : St) :
  Forall has_no_LF ls -> has_no_LF tail ->
  concat reads = stream_of ls tail ->
  streamNdjson JSON_parse handler reads st
  = fold_left (fun st e => handler e st) (events_of JSON_parse ls) st
  /\ streamNdjson JSON_parse (fun e log => log ++ [e]) reads []
     = events_of JSON_parse ls
  /\ (forall before l after,
        ls = before ++ l :: after ->
        parsed_line JSON_parse l = None ->
        streamNdjson JSON_parse handler reads st
        = fold_left (fun st e => handler e st)
            (events_of JSON_parse (before ++ after)) st).
Proof.
  intros Hl Ht E.
  assert (Hgen : forall (T : Type) (h : J -> T -> T) (t : T),
             streamNdjson JSON_parse h reads t
             = fold_left (fun st e => h e st) (events_of JSON_parse ls) t).
  { intros T h t. unfold streamNdjson.
    rewrite read_loop_lines by (intros []).
    cbn [app]. rewrite E.
    rewrite <- (app_nil_r (stream_of ls tail)).
    rewrite (lines_of_stream ls tail Hl Ht []), app_nil_r.
    rewrite (lines_of_tail tail Ht). cbn [fst]. now rewrite app_nil_r. }
  split; [apply Hgen |]. split.
  - rewrite Hgen. apply fold_left_record.
  - intros before l after -> Hnone. rewrite Hgen.
    rewrite !events_of_app. change (l :: after) with ([l] ++ after).
    rewrite events_of_app. unfold events_of at 2. simpl.
    rewrite Hnone. reflexivity.
Qed.

Lemma streamNdjson_dispatches_parsed_lines_witness :
  streamNdjson sample_line_parse (fun e log => log ++ [e])
    [ str "cab" ++ [LF] ++ str "{oops" ; [LF; LF] ++ str " cd " ++ [LF] ++ str "ce" ]
    []
  = [str "ab"; str "d"].
Proof.
  refine (proj1 (proj2
            (streamNdjson_dispatches_parsed_lines (list char) sample_line_parse
               (list jsstring) (fun e log => log ++ [e])
               [ str "cab" ++ [LF] ++ str "{oops" ;
                 [LF; LF] ++ str " cd " ++ [LF] ++ str "ce" ]
               [ str "cab"; str "{oops"; []; str " cd " ] (str "ce") []
               _ _ _))).
  - repeat constructor; vm_compute; intuition discriminate.
  - vm_compute. intuition discriminate.
  - reflexivity.
Defined.

(** C9, the counterexample: a last line that parses but is not followed
    by a newline is not dispatched.  The loop ends on [done] and the buffer
    is dropped with the line in it. *)
Lemma streamNdjson_misses_last_line_without_newline :
  parsed_line sample_line_parse (str "cd") = Some (str "d")
  /\ streamNdjson sample_line_parse (fun e log => log ++ [e])
       [ str "cab" ++ [LF] ++ str "cd" ] []
     = [ str "ab" ].
Proof.
  split; reflexivity.
Qed.

(* ----------------------------------------------------------------- *)
(** ** Choice extraction *)

Lemma marker_inv (s : jsstring) (n : nat) :
  marker s = Some n ->
  exists c r,
    s = ch "1" :: ch "." :: c :: r /\ isSpace c = true /\
    n = 2 + spaces (c :: r) /\ 3 <= n <= length s.
Proof.
  unfold marker. destruct s as [|c1 [|c2 r]]; try discriminate.
  destruct ((c1 =? ch "1")%N && (c2 =? ch ".")%N) eqn:E; try discriminate.
  apply andb_prop in E. destruct E as [E1 E2].
  apply N.eqb_eq in E1, E2. subst c1 c2.
  destruct (spaces r) as [|k] eqn:Es; try discriminate.
  intros [= <-]. destruct r as [|c r]; [discriminate |].
  simpl in Es. destruct (isSpace c) eqn:Ec; [| discriminate].
  exists c, r. repeat split; auto.
  - simpl. rewrite Ec. now injection Es as ->.
  - lia.
  - assert (spaces r <= length r).
    { clear. induction r as [|x r IH]; simpl; [lia |].
      destruct (isSpace x); simpl; lia. }
    injection Es as <-. simpl. lia.
Qed.

(** A match of the expression starts at its position, is at least three
    characters long, lies inside the input, and the index the loop records
    is a line start followed by [1.] and a space. *)
Lemma marker_at_inv (t : jsstring) (j : nat) (m : rmatch) :
  marker_at j (skipn j t) = Some m ->
  m_index m = j /\ 3 <= m_length m /\ j + m_length m <= length t /\
  spec_marker_line t
    (m_index m + (if truthy (m_group1 m) then length (m_group1 m) else 0))
  = true.
Proof.
  unfold marker_at.
  assert (Hlen : length (skipn j t) = length t - j) by apply length_skipn.
  destruct (if j =? 0 then marker (skipn j t) else None) as [n|] eqn:E1.
  - destruct (j =? 0) eqn:Ej; [| discriminate].
    apply Nat.eqb_eq in Ej. subst j. intros [= <-]. cbn [m_index m_group1 m_length truthy].
    destruct (marker_inv _ _ E1) as (c & r & Es & Ec & _ & Hn).
    repeat split; try lia.
    unfold spec_marker_line. simpl in Es |- *. rewrite Es.
    now rewrite !N.eqb_refl, Ec.
  - destruct (skipn j t) as [|c r] eqn:Es; [discriminate |].
    destruct (c =? LF)%N eqn:Ec; [| discriminate].
    destruct (marker r) as [n|] eqn:E2; [| discriminate].
    intros [= <-]. cbn [m_index m_group1 m_length truthy length].
    destruct (marker_inv _ _ E2) as (c3 & r' & Er & Ec3 & _ & Hn).
    simpl in Hlen. repeat split; try lia.
    apply N.eqb_eq in Ec. subst c.
    unfold spec_marker_line. replace (j + 1) with (S j) by lia.
    assert (Hnth : nth_error t j = Some LF).
    { rewrite <- (Nat.add_0_r j), <- nth_error_skipn, Es. reflexivity. }
    rewrite Hnth, N.eqb_refl. cbn [andb].
    assert (Hs : skipn (S j) t = r).
    { replace (S j) with (1 + j) by lia. rewrite <- skipn_skipn, Es.
      reflexivity. }
    rewrite Hs, Er. now rewrite !N.eqb_refl, Ec3.
Qed.

Lemma exec_from_inv (t : jsstring) (d : nat) :
  forall j m,
    d = length t - j -> j <= length t ->
    exec_from j (skipn j t) = Some m ->
    j <= m_index m /\
    marker_at (m_index m) (skipn (m_index m) t) = Some m.
Proof.
  induction d as [|d IH]; intros j m Hd Hj.
  - assert (j = length t) by lia. subst j. rewrite skipn_all.
    cbn [exec_from].
    destruct (marker_at (length t) []) as [m'|] eqn:E; [| discriminate].
    intros [= <-]. rewrite <- (skipn_all t) in E.
    destruct (marker_at_inv t _ _ E) as (A & _). rewrite A.
    split; [lia | exact E].
  - destruct (skipn j t) as [|c r] eqn:Es.
    { assert (length (skipn j t) = 0) by now rewrite Es.
      rewrite length_skipn in H. lia. }
    cbn [exec_from].
    destruct (marker_at j (c :: r)) as [m'|] eqn:E.
    + intros [= <-]. rewrite <- Es in E.
      destruct (marker_at_inv t _ _ E) as (A & _). rewrite A.
      split; [lia | exact E].
    + assert (Hr : r = skipn (S j) t).
      { replace (S j) with (1 + j) by lia. rewrite <- skipn_skipn, Es.
        reflexivity. }
      rewrite Hr. intros H.
      assert (Hlt : j < length t).
      { assert (Hl : length (skipn j t) = S (length r)) by now rewrite Es.
        rewrite length_skipn in Hl. lia. }
      destruct (IH (S j) m) as [A B]; try lia; [exact H |].
      split; [lia | exact B].
Qed.

(** The index the loop ends with is a line start followed by [1.] and a
    space, whatever the fuel. *)
Lemma lastMatchLoop_sound (t : jsstring) (fuel : nat) :
  forall lastIndex acc i,
    lastIndex <= length t ->
    (forall a, acc = Some a -> spec_marker_line t a = true) ->
    lastMatchLoop fuel t lastIndex acc = Some i ->
    spec_marker_line t i = true.
Proof.
  induction fuel as [|fuel IH]; intros lastIndex acc i Hl Hacc; cbn [lastMatchLoop].
  - intros E. now apply Hacc.
  - unfold slice_from.
    destruct (exec_from lastIndex (skipn lastIndex t)) as [m|] eqn:E.
    + destruct (exec_from_inv t _ lastIndex m eq_refl Hl E) as [A B].
      destruct (marker_at_inv t _ _ B) as (_ & H3 & Hin & Hs).
      apply IH; [lia |]. intros a [= <-]. exact Hs.
    + intros E'. now apply Hacc.
Qed.

(** The loop has fuel left when it stops: more fuel changes nothing. *)
Lemma lastMatchLoop_fuel (t : jsstring) (fuel : nat) :
  forall lastIndex acc extra,
    lastIndex <= length t ->
    length t < lastIndex + 3 * fuel ->
    lastMatchLoop (fuel + extra) t lastIndex acc
    = lastMatchLoop fuel t lastIndex acc.
Proof.
  induction fuel as [|fuel IH]; intros lastIndex acc extra Hl Hf; [lia |].
  cbn [Nat.add lastMatchLoop]. unfold slice_from.
  destruct (exec_from lastIndex (skipn lastIndex t)) as [m|] eqn:E; auto.
  destruct (exec_from_inv t _ lastIndex m eq_refl Hl E) as [A B].
  destruct (marker_at_inv t _ _ B) as (_ & H3 & Hin & _).
  destruct fuel as [|fuel'].
  - exfalso. lia.
  - apply IH; lia.
Qed.

Lemma lastMatchIndex_fuel (t : jsstring) (extra : nat) :
  lastMatchLoop (S (length t) + extra) t 0 None = lastMatchIndex t.
Proof. unfold lastMatchIndex. apply lastMatchLoop_fuel; lia. Qed.

Lemma lastMatchIndex_sound (t : jsstring) (i : nat) :
  lastMatchIndex t = Some i -> spec_marker_line t i = true.
Proof.
  unfold lastMatchIndex. apply lastMatchLoop_sound; [lia |].
  intros a [=].
Qed.

Lemma spec_marker_line_bound (t : jsstring) (i : nat) :
  spec_marker_line t i = true -> i + 3 <= length t.
Proof.
  unfold spec_marker_line. intros H. apply andb_prop in H.
  destruct H as [_ H].
  assert (Hl : length (skipn i t) = length t - i) by apply length_skipn.
  destruct (skipn i t) as [|c1 [|c2 [|c3 r]]]; try discriminate.
  simpl in Hl. lia.
Qed.

Lemma spec_last_marker_below_none (t : jsstring) (n : nat) :
  spec_last_marker_below n t = None <->
  forall i, i < n -> spec_marker_line t i = false.
Proof.
  induction n as [|n IH]; simpl.
  - split; [intros _ i Hi; lia | auto].
  - destruct (spec_marker_line t n) eqn:E.
    + split; [discriminate |]. intros H. rewrite (H n) in E; [discriminate | lia].
    + rewrite IH. split; intros H i Hi.
      * destruct (Nat.eq_dec i n) as [-> |]; [exact E | apply H; lia].
      * apply H. lia.
Qed.

Lemma spec_last_marker_below_some (t : jsstring) (n i : nat) :
  spec_last_marker_below n t = Some i <->
  i < n /\ spec_marker_line t i = true /\
  forall a, a < n -> spec_marker_line t a = true -> a <= i.
Proof.
  induction n as [|n IH]; simpl.
  - split; [discriminate | intros [H _]; lia].
  - destruct (spec_marker_line t n) eqn:E.
    + split.
      * intros [= <-]. split; [lia |]. split; [exact E |].
        intros a Ha _. lia.
      * intros (Hi & Hm & Hmax). f_equal.
        specialize (Hmax n (Nat.lt_succ_diag_r n) E). lia.
    + rewrite IH. split; intros (Hi & Hm & Hmax).
      * split; [lia |]. split; [exact Hm |]. intros a Ha Hma.
        destruct (Nat.eq_dec a n) as [-> |]; [congruence | apply Hmax; auto; lia].
      * assert (i <> n) by congruence.
        split; [lia |]. split; [exact Hm |]. intros a Ha. apply Hmax. lia.
Qed.

(** A line start followed by [1.] and a space is where the expression
    matches, from the newline before it when there is one. *)
Lemma marker_line_matches (t : jsstring) (i : nat) :
  spec_marker_line t i = true ->
  exists m, marker_at (Nat.pred i) (skipn (Nat.pred i) t) = Some m.
Proof.
  unfold spec_marker_line. intros H. apply andb_prop in H.
  destruct H as [Hstart Hhead].
  assert (Hm : exists n, marker (skipn i t) = Some n).
  { destruct (skipn i t) as [|c1 [|c2 [|c3 r]]]; try discriminate.
    apply andb_prop in Hhead. destruct Hhead as [H12 H3].
    unfold marker. rewrite H12. simpl. rewrite H3. eauto. }
  destruct Hm as [n Hn].
  destruct i as [|j]; cbn [Nat.pred].
  - unfold marker_at. simpl in Hn |- *. rewrite Hn. eauto.
  - destruct (nth_error t j) as [c|] eqn:Ec; [| discriminate].
    apply N.eqb_eq in Hstart. subst c.
    assert (Hs : skipn j t = LF :: skipn (S j) t).
    { clear - Ec. revert t Ec. induction j as [|j IH]; intros t Ec.
      - destruct t; simpl in *; congruence.
      - destruct t; simpl in *; [discriminate | auto]. }
    unfold marker_at. rewrite Hs.
    assert (Hfirst : (if j =? 0 then marker (LF :: skipn (S j) t) else None)
                     = None).
    { destruct (j =? 0); [| reflexivity].
      destruct (skipn (S j) t); [discriminate | reflexivity]. }
    rewrite Hfirst, N.eqb_refl, Hn. eauto.
Qed.

Lemma exec_from_complete (t : jsstring) (p : nat) (m : rmatch) :
  marker_at p (skipn p t) = Some m ->
  forall d j, p = j + d -> exec_from j (skipn j t) <> None.
Proof.
  intros Hm. induction d as [|d IH]; intros j Hp.
  - rewrite Nat.add_0_r in Hp. subst j.
    destruct (skipn p t); simpl; rewrite Hm; discriminate.
  - destruct (skipn j t) as [|c r] eqn:Es.
    + assert (Hp' : skipn p t = []).
      { replace p with (S d + j) by lia. now rewrite <- skipn_skipn, Es, skipn_nil. }
      cbn [exec_from].
      rewrite Hp' in Hm. 
      assert (Hr : marker_at j [] = None).
      { unfold marker_at. destruct (j =? 0); reflexivity. }
      assert (Hq : marker_at p [] = None).
      { unfold marker_at. destruct (p =? 0); reflexivity. }
      congruence.
    + cbn [exec_from]. destruct (marker_at j (c :: r)); [discriminate |].
      assert (Hr : r = skipn (S j) t).
      { replace (S j) with (1 + j) by lia. rewrite <- skipn_skipn, Es.
        reflexivity. }
      rewrite Hr. apply IH. lia.
Qed.

(** The loop finds a line that begins with [1.] and a space exactly when
    the text has one. *)
Lemma lastMatchIndex_none (t : jsstring) :
  lastMatchIndex t = None <-> spec_last_marker t = None.
Proof.
  unfold spec_last_marker. rewrite spec_last_marker_below_none. split.
  - intros H i Hi. destruct (spec_marker_line t i) eqn:E; auto.
    exfalso. destruct (marker_line_matches t i E) as [m Hm].
    pose proof (exec_from_complete t _ m Hm (Nat.pred i) 0 eq_refl) as Hex.
    unfold lastMatchIndex in H. cbn [lastMatchLoop] in H.
    unfold slice_from in H. cbn [skipn] in *.
    destruct (exec_from 0 t) as [m0|] eqn:E0; [| congruence].
    destruct (exec_from_inv t _ 0 m0 eq_refl (Nat.le_0_l _) E0) as [_ B].
    destruct (marker_at_inv t _ _ B) as (_ & H3 & Hin & Hs).
    assert (Hsome : exists a, lastMatchLoop (length t) t
                                (m_index m0 + m_length m0)
                                (Some (m_index m0
                                       + (if truthy (m_group1 m0)
                                          then length (m_group1 m0) else 0)))
                              = Some a).
    { clear. generalize (m_index m0 + m_length m0).
      generalize (m_index m0
                  + (if truthy (m_group1 m0) then length (m_group1 m0) else 0)).
      induction (length t) as [|f IH]; intros a l; simpl; eauto.
      destruct (exec_from l (slice_from l t)); eauto. }
    destruct Hsome as [a Ha]. congruence.
  - intros H. destruct (lastMatchIndex t) as [i|] eqn:E; auto.
    pose proof (lastMatchIndex_sound t i E) as Hs.
    pose proof (spec_marker_line_bound t i Hs).
    rewrite H in Hs; [discriminate | lia].
Qed.

(** Texts without a choice list: when no line of the trimmed text begins
    with [1.] and a space, the transcript is the whole trimmed text and
    there are no choices. *)
Lemma extract_without_marker (text : jsstring) :
  spec_last_marker (trim text) = None ->
  extractChoices text = (trim text, []).
Proof.
  intros H. apply lastMatchIndex_none in H.
  unfold extractChoices, splitStory. rewrite H. reflexivity.
Qed.

(** The examples of the specification: one choice block, and two of
    which the last is taken.  On both the script and the rule as worded
    agree. *)
Lemma extract_sample_story :
  extractChoices sample_story
  = (str "Intro line.", [str "Go left"; str "Go right"])
  /\ spec_extractChoices sample_story = extractChoices sample_story.
Proof. split; vm_compute; reflexivity. Qed.

Lemma extract_sample_two_blocks :
  extractChoices sample_two_blocks
  = (str "You may:" ++ [LF] ++ str "1. Run" ++ [LF] ++ str "2. Hide" ++ [LF]
     ++ str "You hid. Now:",
     [str "Go left"; str "Go right"])
  /\ spec_extractChoices sample_two_blocks = extractChoices sample_two_blocks.
Proof. split; vm_compute; reflexivity. Qed.

(** C7.  The rule is to split at the last line that begins with [1.] and
    a space; the script departs from it.  In the text
    [Story / 1.  / 1. Go left / 2. Go right] the last line that begins with
    [1.] and a space starts at index 10.  The expression matches at the
    newline before the bare [1. ] line (index 5) and its [\s+] runs over
    the newline at index 9, so the next search starts at index 10, where
    neither [^] nor a newline is left to match: the loop ends with index 6.
    The transcript the script shows is [Story]; split at the last such
    line it is [Story / 1.]. *)
Theorem renderStory_misses_last_marker :
  lastMatchIndex sample_bare_marker = Some 6
  /\ spec_last_marker sample_bare_marker = Some 10
  /\ extractChoices sample_bare_marker
     = (str "Story", [str "Go left"; str "Go right"])
  /\ spec_extractChoices sample_bare_marker
     = (str "Story" ++ [LF] ++ str "1.", [str "Go left"; str "Go right"])
  /\ extractChoices sample_bare_marker
     <> spec_extractChoices sample_bare_marker.
Proof.
  repeat split; try (vm_compute; reflexivity).
  vm_compute. discriminate.
Qed.

(* ----------------------------------------------------------------- *)
(** ** Where the loop does find the last choice block *)

Lemma spaces_le (s : jsstring) : spaces s <= length s.
Proof.
  induction s as [|c s IH]; simpl; [lia |].
  destruct (isSpace c); simpl; lia.
Qed.

Lemma skipn_S_cons {A : Type} (j : nat) (t : list A) (c : A) (r : list A) :
  skipn j t = c :: r -> skipn (S j) t = r.
Proof.
  intros E. replace (S j) with (1 + j) by lia.
  now rewrite <- skipn_skipn, E.
Qed.

(** A match at position [p]: its recorded index is [p] or [p + 1], a line
    start followed by [1.] and a space, and the match ends where the
    spaces end. *)
Lemma marker_at_adjusted (t : jsstring) (p : nat) (m : rmatch) :
  marker_at p (skipn p t) = Some m ->
  m_index m = p /\ p <= adjusted m <= p + 1 /\
  spec_marker_line t (adjusted m) = true /\
  Nat.pred (adjusted m) = p /\
  p + m_length m = run_end t (adjusted m).
Proof.
  intros H. destruct (marker_at_inv t p m H) as (A & _ & _ & B).
  split; [exact A |].
  unfold marker_at in H. unfold adjusted, run_end.
  destruct (if p =? 0 then marker (skipn p t) else None) as [n|] eqn:E1.
  - destruct (p =? 0) eqn:Ep; [| discriminate].
    apply Nat.eqb_eq in Ep. subst p. injection H as <-.
    cbn [m_index m_group1 m_length truthy Nat.add Nat.pred] in *.
    destruct (marker_inv _ _ E1) as (c & r & Es & _ & Hn & _).
    split; [lia |]. split; [exact B |]. split; [reflexivity |].
    simpl in Es. rewrite Es. cbn [skipn]. lia.
  - destruct (skipn p t) as [|c r] eqn:Es; [discriminate |].
    destruct (c =? LF)%N; [| discriminate].
    destruct (marker r) as [n|] eqn:E2; [| discriminate].
    injection H as <-.
    cbn [m_index m_group1 m_length truthy length] in *.
    destruct (marker_inv _ _ E2) as (c3 & r' & Er & _ & Hn & _).
    replace (p + 1) with (S p) in * by lia.
    assert (Hs : skipn (S p + 2) t = c3 :: r').
    { replace (S p + 2) with (2 + S p) by lia.
      rewrite <- skipn_skipn, (skipn_S_cons p t c r Es), Er. reflexivity. }
    split; [lia |]. split; [exact B |]. split; [reflexivity |].
    rewrite Hs. lia.
Qed.

(** A line start followed by [1.] and a space is the recorded index of the
    match at the position before it (or at 0). *)
Lemma marker_line_match (t : jsstring) (a : nat) :
  spec_marker_line t a = true ->
  exists m, marker_at (Nat.pred a) (skipn (Nat.pred a) t) = Some m /\
            adjusted m = a.
Proof.
  intros H. destruct (marker_line_matches t a H) as [m Hm].
  exists m. split; [exact Hm |].
  destruct (marker_at_adjusted t _ m Hm) as (_ & Hr & Hs & Hp & _).
  destruct a as [|j]; cbn [Nat.pred] in *.
  - (* at 0 the alternative [^] is the one that matches *)
    unfold marker_at in Hm. cbn [Nat.eqb skipn] in Hm.
    unfold spec_marker_line in H. cbn [skipn andb] in H.
    destruct t as [|c1 [|c2 [|c3 r]]]; try discriminate.
    apply andb_prop in H. destruct H as [H12 H3].
    unfold marker in Hm. rewrite H12 in Hm. cbn [spaces] in Hm.
    rewrite H3 in Hm. injection Hm as <-. reflexivity.
  - destruct (Nat.eq_dec (adjusted m) (S j)) as [|Hne]; auto.
    assert (Ha : adjusted m = j) by lia.
    (* the match would start with [1] where the text has a newline *)
    exfalso. rewrite Ha in Hs.
    unfold spec_marker_line in H, Hs.
    apply andb_prop in H. destruct H as [Hstart _].
    apply andb_prop in Hs. destruct Hs as [_ Hhead].
    destruct (nth_error t j) as [c|] eqn:Ec; [| discriminate].
    apply N.eqb_eq in Hstart. subst c.
    assert (Hj : skipn j t = LF :: skipn (S j) t).
    { clear - Ec. revert t Ec. induction j as [|j IH]; intros t Ec.
      - destruct t; simpl in *; congruence.
      - destruct t; simpl in *; [discriminate | auto]. }
    rewrite Hj in Hhead.
    destruct (skipn (S j) t) as [|c2 [|c3 r]]; discriminate.
Qed.

(** [re.exec] returns the first position at or after [lastIndex] where
    the expression matches. *)
Lemma exec_from_least (t : jsstring) (d : nat) :
  forall j m,
    d = length t - j -> j <= length t ->
    exec_from j (skipn j t) = Some m ->
    forall q, j <= q < m_index m -> marker_at q (skipn q t) = None.
Proof.
  induction d as [|d IH]; intros j m Hd Hj H q Hq.
  - destruct (exec_from_inv t _ j m eq_refl Hj H) as [A B].
    destruct (marker_at_inv t _ _ B) as (_ & H3 & Hin & _). lia.
  - destruct (skipn j t) as [|c r] eqn:Es.
    { assert (Hl : length (skipn j t) = 0) by now rewrite Es.
      rewrite length_skipn in Hl. lia. }
    cbn [exec_from] in H.
    destruct (marker_at j (c :: r)) as [m'|] eqn:E.
    + injection H as <-. rewrite <- Es in E.
      destruct (marker_at_inv t _ _ E) as (A & _). lia.
    + rewrite <- (skipn_S_cons j t c r Es) in H.
      destruct (Nat.eq_dec q j) as [-> |].
      * now rewrite Es.
      * assert (Hlt : j < length t).
        { assert (Hl : length (skipn j t) = S (length r)) by now rewrite Es.
          rewrite length_skipn in Hl. lia. }
        apply (IH (S j) m); auto; lia.
Qed.

(** Under [markers_apart] the loop ends with the last line start followed
    by [1.] and a space. *)
Lemma lastMatchLoop_complete (t : jsstring) :
  markers_apart t ->
  forall fuel lastIndex acc,
    lastIndex <= length t ->
    length t < lastIndex + 3 * fuel ->
    (forall a, acc = Some a -> spec_marker_line t a = true /\ a < lastIndex) ->
    (forall a, spec_marker_line t a = true -> Nat.pred a < lastIndex ->
               exists a', acc = Some a' /\ a <= a') ->
    match lastMatchLoop fuel t lastIndex acc with
    | Some i => spec_marker_line t i = true /\
                forall a, spec_marker_line t a = true -> a <= i
    | None => forall a, spec_marker_line t a = false
    end.
Proof.
  intros Hapart. induction fuel as [|fuel IH];
    intros lastIndex acc Hl Hf Hacc Hseen; [lia |].
  cbn [lastMatchLoop]. unfold slice_from.
  destruct (exec_from lastIndex (skipn lastIndex t)) as [m|] eqn:E.
  - destruct (exec_from_inv t _ lastIndex m eq_refl Hl E) as [Hge B].
    pose proof (exec_from_least t _ lastIndex m eq_refl Hl E) as Hleast.
    destruct (marker_at_inv t _ _ B) as (_ & H3 & Hin & _).
    destruct (marker_at_adjusted t _ m B) as (_ & Hr & Hs & Hp & He).
    fold (adjusted m).
    destruct fuel as [|fuel'].
    { exfalso. lia. }
    apply IH; try lia.
    + intros a [= <-]. split; [exact Hs | lia].
    + intros a Ha Hlt.
      exists (adjusted m). split; [reflexivity |].
      destruct (Nat.lt_ge_cases (Nat.pred a) lastIndex) as [Hold | Hnew].
      * destruct (Hseen a Ha Hold) as (a' & -> & Hle).
        destruct (Hacc a' eq_refl) as [_ Hlt']. lia.
      * destruct (marker_line_match t a Ha) as (ma & Hma & Hadj).
        destruct (Nat.lt_ge_cases (Nat.pred a) (m_index m)) as [Hbefore | Hafter].
        -- rewrite (Hleast (Nat.pred a)) in Hma; [discriminate | lia].
        -- destruct (Nat.le_gt_cases a (adjusted m)) as [|Hgt]; auto.
           pose proof (Hapart (adjusted m) a Hs Ha Hgt). lia.
  - destruct acc as [a'|].
    + destruct (Hacc a' eq_refl) as [Hm' _]. split; [exact Hm' |].
      intros a Ha.
      destruct (Nat.lt_ge_cases (Nat.pred a) lastIndex) as [Hold | Hnew].
      * destruct (Hseen a Ha Hold) as (a'' & [= <-] & Hle). exact Hle.
      * exfalso. destruct (marker_line_match t a Ha) as (ma & Hma & _).
        apply (exec_from_complete t _ ma Hma (Nat.pred a - lastIndex) lastIndex);
          [lia | exact E].
    + intros a. destruct (spec_marker_line t a) eqn:Ha; auto.
      exfalso.
      destruct (Nat.lt_ge_cases (Nat.pred a) lastIndex) as [Hold | Hnew].
      * destruct (Hseen a Ha Hold) as (a'' & [=] & _).
      * destruct (marker_line_match t a Ha) as (ma & Hma & _).
        apply (exec_from_complete t _ ma Hma (Nat.pred a - lastIndex) lastIndex);
          [lia | exact E].
Qed.

Lemma lastMatchIndex_is_last (t : jsstring) :
  markers_apart t -> lastMatchIndex t = spec_last_marker t.
Proof.
  intros Hapart.
  pose proof (lastMatchLoop_complete t Hapart (S (length t)) 0 None) as H.
  fold (lastMatchIndex t) in H.
  assert (Hres : match lastMatchIndex t with
                 | Some i => spec_marker_line t i = true /\
                             forall a, spec_marker_line t a = true -> a <= i
                 | None => forall a, spec_marker_line t a = false
                 end).
  { apply H; try lia. intros a [=]. }
  clear H. unfold spec_last_marker.
  destruct (lastMatchIndex t) as [i|].
  - destruct Hres as [Hm Hmax]. symmetry.
    apply spec_last_marker_below_some.
    pose proof (spec_marker_line_bound t i Hm).
    split; [lia |]. split; [exact Hm |]. intros a _ Ha. now apply Hmax.
  - symmetry. apply spec_last_marker_below_none. intros i _. apply Hres.
Qed.

Lemma trimStart_head (s : jsstring) (c : char) (r : jsstring) :
  trimStart s = c :: r -> isSpace c = false.
Proof.
  induction s as [|x s IH]; simpl; [discriminate |].
  destruct (isSpace x) eqn:Ex; auto. intros [= <- _]. exact Ex.
Qed.

Lemma trimStart_fixed (s : jsstring) :
  (forall c r, s = c :: r -> isSpace c = false) -> trimStart s = s.
Proof.
  destruct s as [|c r]; intros H; simpl; auto.
  now rewrite (H c r eq_refl).
Qed.

Lemma rev_skipn {A : Type} (i : nat) (l : list A) :
  rev (skipn i l) = firstn (length l - i) (rev l).
Proof.
  destruct (Nat.le_gt_cases i (length l)) as [Hle | Hgt].
  - rewrite firstn_rev. do 2 f_equal. lia.
  - rewrite skipn_all2 by lia. replace (length l - i) with 0 by lia.
    reflexivity.
Qed.

(** The end of a trimmed text is trimmed, wherever it starts. *)
Lemma trimEnd_skipn_trim (text : jsstring) (i : nat) :
  trimEnd (skipn i (trim text)) = skipn i (trim text).
Proof.
  unfold trimEnd at 1.
  rewrite <- (rev_involutive (skipn i (trim text))) at 2. f_equal.
  apply trimStart_fixed. intros c r E.
  rewrite rev_skipn in E.
  unfold trim at 2 in E. unfold trimEnd in E. rewrite rev_involutive in E.
  destruct (trimStart (rev (trimStart text))) as [|x l] eqn:Et.
  - now rewrite firstn_nil in E.
  - destruct (length (trim text) - i) as [|k]; [discriminate |].
    simpl in E. injection E as <- _. exact (trimStart_head _ _ _ Et).
Qed.

Lemma trim_block (text : jsstring) (i : nat) :
  spec_marker_line (trim text) i = true ->
  trim (skipn i (trim text)) = skipn i (trim text) /\
  truthy (skipn i (trim text)) = true.
Proof.
  intros H. unfold spec_marker_line in H. apply andb_prop in H.
  destruct H as [_ H]. unfold trim at 1.
  destruct (skipn i (trim text)) as [|c1 [|c2 [|c3 r]]] eqn:Es;
    try discriminate.
  apply andb_prop in H. destruct H as [H12 _].
  apply andb_prop in H12. destruct H12 as [H1 _].
  apply N.eqb_eq in H1. subst c1.
  split; [| reflexivity].
  rewrite trimStart_fixed.
  - rewrite <- Es. apply trimEnd_skipn_trim.
  - intros c r' [= <- _]. reflexivity.
Qed.

Lemma choiceMatch_test (l : jsstring) (d : char) (payload : jsstring) :
  choiceMatch l = Some (d, payload) -> choiceTest l = true.
Proof.
  unfold choiceMatch, choiceTest. destruct l as [|c [|p r]]; try discriminate.
  destruct (isChoiceDigit c && (p =? ch ".")%N && negb (spaces r =? 0));
    [reflexivity | discriminate].
Qed.

Lemma choiceTest_truthy (l : jsstring) : choiceTest l = true -> truthy l = true.
Proof. destruct l; [discriminate | reflexivity]. Qed.

Lemma filter_filter_implied {A : Type} (p q : A -> bool) (l : list A) :
  (forall x, p x = true -> q x = true) ->
  filter p (filter q l) = filter p l.
Proof.
  intros H. induction l as [|x l IH]; simpl; auto.
  destruct (q x) eqn:Eq; simpl.
  - now rewrite IH.
  - destruct (p x) eqn:Ep; auto. rewrite (H x Ep) in Eq. discriminate.
Qed.

Lemma firstn_flat_map_filter {A B : Type} (p : A -> bool) (g : A -> list B)
    (f : A -> B) (l : list A) :
  (forall x, In x l -> g x = if p x then [f x] else []) ->
  forall n, firstn n (flat_map g l) = flat_map g (firstn n (filter p l)).
Proof.
  induction l as [|x l IH]; intros H n.
  - simpl. now rewrite !firstn_nil.
  - cbn [flat_map filter].
    assert (Hx := H x (or_introl eq_refl)).
    assert (Hl : forall y, In y l -> g y = if p y then [f y] else [])
      by (intros y Hy; apply H; now right).
    destruct (p x) eqn:Ep.
    + destruct n as [|n]; [reflexivity |].
      cbn [firstn flat_map]. rewrite Hx. cbn [app firstn].
      now rewrite (IH Hl n).
    + rewrite Hx. cbn [app]. apply (IH Hl n).
Qed.

(** With clean choice lines, the buttons are made from the first three
    lines that match the choice expression. *)
Lemma choiceButtons_spec (rest : jsstring) :
  truthy rest = true -> choice_lines_clean rest ->
  map b_action (choiceButtons rest) = spec_choices rest.
Proof.
  intros Ht Hclean. unfold choiceButtons, spec_choices. rewrite Ht.
  set (payloads := fun l : jsstring =>
                     match choiceMatch l with
                     | Some (_, payload) => [payload]
                     | None => []
                     end).
  set (ls := map trim (split LF rest)).
  rewrite (filter_filter_implied choiceTest truthy ls choiceTest_truthy).
  assert (Hspec : flat_map
                    (fun l => match choiceMatch (trim l) with
                              | Some (_, payload) => [payload]
                              | None => []
                              end) (split LF rest)
                  = flat_map payloads ls).
  { unfold ls. clear. induction (split LF rest) as [|l r IH]; simpl; auto.
    now rewrite IH. }
  rewrite Hspec.
  assert (Hcode : forall x,
             map b_action
               (flat_map
                  (fun line =>
                     match choiceMatch line with
                     | Some (_, payload) =>
                         [ {| b_label := line; b_action := payload |} ]
                     | None => []
                     end) x)
             = flat_map payloads x).
  { intros x. induction x as [|l x IH]; simpl; auto.
    rewrite map_app, IH. f_equal. unfold payloads.
    destruct (choiceMatch l) as [[d pl]|]; reflexivity. }
  rewrite Hcode. symmetry.
  apply (firstn_flat_map_filter choiceTest payloads
           (fun l => match choiceMatch l with
                     | Some (_, payload) => payload
                     | None => []
                     end)).
  intros l Hl. unfold payloads.
  destruct (choiceMatch l) as [[d pl]|] eqn:Em.
  - now rewrite (choiceMatch_test l d pl Em).
  - destruct (choiceTest l) eqn:Et; auto.
    exfalso. unfold ls in Hl. apply in_map_iff in Hl.
    destruct Hl as (l0 & <- & Hl0). now apply (Hclean l0 Hl0 Et).
Qed.

(** Where the rule as worded holds of the script: when the spaces
    after a line start [1.] never reach the next such line start, and no
    choice line holds a stray line terminator, the script's transcript
    and choices are those of the rule: the split is at the last line that
    begins with [1.] and a space, the transcript is what precedes it,
    trimmed at the end, and the choices are the first three lines after
    it that match the choice expression, in order. *)
Lemma extract_agrees_with_rule (text : jsstring) :
  markers_apart (trim text) ->
  (forall i, spec_last_marker (trim text) = Some i ->
             choice_lines_clean (skipn i (trim text))) ->
  extractChoices text = spec_extractChoices text.
Proof.
  intros Hapart Hclean.
  unfold extractChoices, spec_extractChoices, splitStory.
  rewrite (lastMatchIndex_is_last _ Hapart).
  destruct (spec_last_marker (trim text)) as [i|] eqn:E; [| reflexivity].
  assert (Hm : spec_marker_line (trim text) i = true).
  { unfold spec_last_marker in E.
    now apply spec_last_marker_below_some in E. }
  destruct (trim_block text i Hm) as [Hb Ht].
  cbn [fst snd]. unfold slice_from, slice_to. rewrite Hb. f_equal.
  apply choiceButtons_spec; auto.
Qed.

Lemma markers_apartb_sound (t : jsstring) :
  markers_apartb t = true -> markers_apart t.
Proof.
  unfold markers_apartb, markers_apart. intros H i i' Hi Hi' Hlt.
  assert (Hin : forall a, spec_marker_line t a = true -> In a (marker_lines t)).
  { intros a Ha. unfold marker_lines. apply filter_In. split; [| exact Ha].
    apply in_seq. pose proof (spec_marker_line_bound t a Ha). lia. }
  rewrite forallb_forall in H. specialize (H i (Hin i Hi)).
  rewrite forallb_forall in H. specialize (H i' (Hin i' Hi')).
  apply orb_prop in H. destruct H as [H | H].
  - apply negb_true_iff, Nat.ltb_ge in H. lia.
  - now apply Nat.ltb_lt in H.
Qed.

Lemma choice_lines_cleanb_sound (rest : jsstring) :
  choice_lines_cleanb rest = true -> choice_lines_clean rest.
Proof.
  unfold choice_lines_cleanb, choice_lines_clean. intros H l Hl Ht.
  rewrite forallb_forall in H. specialize (H l Hl). rewrite Ht in H.
  cbn [negb orb] in H. destruct (choiceMatch (trim l)); [discriminate | discriminate].
Qed.

(** X1.  The rule of the specification holds of [renderStory] on every
    clean story: the transcript and the choices are those of the split at
    the last line that begins with [1.] and a space. *)
Theorem extract_matches_rule (text : jsstring) :
  clean_story text = true ->
  extractChoices text = spec_extractChoices text.
Proof.
  intros H. unfold clean_story in H. apply andb_prop in H.
  destruct H as [Ha Hc]. apply extract_agrees_with_rule.
  - now apply markers_apartb_sound.
  - intros i Hi. rewrite Hi in Hc. now apply choice_lines_cleanb_sound.
Qed.

Lemma extract_matches_rule_witness :
  extractChoices sample_two_blocks = spec_extractChoices sample_two_blocks.
Proof.
  apply (extract_matches_rule sample_two_blocks). vm_compute. reflexivity.
Defined.

(** The sample with the bare [1.] line is not a clean story. *)
Lemma sample_bare_marker_not_clean : clean_story sample_bare_marker = false.
Proof. vm_compute. reflexivity. Qed.

(* ----------------------------------------------------------------- *)
(** ** Reachable states *)

(** X2.  In every state the page reaches from its initial one, at most
    one interval is registered, and it is the one [streamTimer] holds; with
    no timer nothing is queued or shown. *)
Theorem reachable_one_timer (evs : list event) :
  one_timer (run init evs) /\
  length (intervals (run init evs)) <= 1 /\
  (streamTimer (run init evs) = None ->
   intervals (run init evs) = [] /\
   streamQueue (run init evs) = [] /\ streamRendered (run init evs) = []).
Proof.
  destruct (run_wf evs init init_wf) as [H Hq].
  split; [exact H |]. unfold one_timer in H.
  destruct (streamTimer (run init evs)) as [h|].
  - destruct H as [_ (p & f & Hi)]. rewrite Hi. split; [simpl; lia |].
    discriminate.
  - rewrite H. split; [simpl; lia |]. intros _.
    destruct (Hq eq_refl). auto.
Qed.

(* ----------------------------------------------------------------- *)
(** ** The split point *)

(** X3.  The index at which [renderStory] splits is always a line start
    followed by [1.] and a space. *)
Theorem split_point_is_marker_line (t : jsstring) (i : nat) :
  lastMatchIndex t = Some i ->
  spec_marker_line t i = true /\ i + 3 <= length t.
Proof.
  intros H. pose proof (lastMatchIndex_sound t i H) as Hm.
  split; [exact Hm | now apply spec_marker_line_bound].
Qed.

Lemma split_point_is_marker_line_witness :
  spec_marker_line sample_bare_marker 6 = true
  /\ 6 + 3 <= length sample_bare_marker.
Proof.
  apply (split_point_is_marker_line sample_bare_marker 6). reflexivity.
Defined.

(* ================================================================= *)
(** * Further properties of the script *)

(* ----------------------------------------------------------------- *)
(** ** Trimming *)

Lemma trimStart_spaces (s : jsstring) : trimStart s = skipn (spaces s) s.
Proof.
  induction s as [|c s IH]; simpl; auto.
  destruct (isSpace c); auto.
Qed.

(** What [trimEnd] drops is white space. *)
Lemma trimEnd_split (s : jsstring) :
  exists w, s = trimEnd s ++ w /\ forallb isSpace w = true.
Proof.
  unfold trimEnd. exists (rev (firstn (spaces (rev s)) (rev s))). split.
  - rewrite <- rev_app_distr, trimStart_spaces, firstn_skipn.
    now rewrite rev_involutive.
  - assert (H : forall l, forallb isSpace (firstn (spaces l) l) = true).
    { induction l as [|c l IH]; simpl; auto.
      destruct (isSpace c) eqn:E; simpl; auto. now rewrite E. }
    specialize (H (rev s)). rewrite forallb_forall in *.
    intros x Hx. apply H. now apply in_rev.
Qed.

Lemma trim_head (s : jsstring) (c : char) (r : jsstring) :
  trim s = c :: r -> isSpace c = false.
Proof.
  unfold trim. intros H.
  destruct (trimEnd_split (trimStart s)) as (w & E & _).
  rewrite H in E. apply (trimStart_head s c (r ++ w)). exact E.
Qed.

Lemma trim_last (s : jsstring) (c : char) (r : jsstring) :
  rev (trim s) = c :: r -> isSpace c = false.
Proof.
  unfold trim, trimEnd. rewrite rev_involutive. apply trimStart_head.
Qed.

(** A string is trimmed when neither its first nor its last character is
    white space. *)
Lemma trimmed_ends (s : jsstring) :
  (forall c r, s = c :: r -> isSpace c = false) ->
  (forall c r, rev s = c :: r -> isSpace c = false) ->
  trimmed s.
Proof.
  intros Hh Hl. unfold trimmed, trim, trimEnd.
  rewrite (trimStart_fixed s Hh), (trimStart_fixed (rev s) Hl).
  apply rev_involutive.
Qed.

Lemma trim_trimmed (s : jsstring) : trimmed (trim s).
Proof.
  apply trimmed_ends; intros c r E.
  - exact (trim_head s c r E).
  - exact (trim_last s c r E).
Qed.

Lemma trimmed_head (s : jsstring) (c : char) (r : jsstring) :
  trimmed s -> s = c :: r -> isSpace c = false.
Proof. intros H E. rewrite <- H in E. exact (trim_head s c r E). Qed.

Lemma trimmed_last (s : jsstring) (c : char) (r : jsstring) :
  trimmed s -> rev s = c :: r -> isSpace c = false.
Proof. intros H E. rewrite <- H in E. exact (trim_last s c r E). Qed.

(* ----------------------------------------------------------------- *)
(** ** The message of a failed request *)

(** X4.  [extractErrorMessage] returns the empty string only when the body
    parses and the field it takes ([detail], else [message]) is itself the
    empty string.  In every other case the message is not empty, so the
    page never shows an error without text for a body that is not such a
    payload. *)
Theorem extractErrorMessage_empty_only_from_payload
    (JSON_parse : jsstring -> option json) (text : jsstring) :
  extractErrorMessage JSON_parse text = [] ->
  exists obj,
    JSON_parse text = Some obj /\
    (string_property obj (str "detail") = Some [] \/
     (string_property obj (str "detail") = None /\
      string_property obj (str "message") = Some [])).
Proof.
  unfold extractErrorMessage.
  assert (Hfb : (if truthy (trim text) then trim text else REQUEST_FAILED)
                <> []).
  { destruct (trim text) as [|c r]; simpl; discriminate. }
  destruct (JSON_parse text) as [obj|]; [| intros H; contradiction].
  destruct (string_property obj (str "detail")) as [d|] eqn:Ed.
  - intros ->. exists obj. auto.
  - destruct (string_property obj (str "message")) as [m|] eqn:Em.
    + intros ->. exists obj. auto.
    + intros H. contradiction.
Qed.

Lemma extractErrorMessage_empty_only_from_payload_witness :
  exists obj,
    (fun _ : jsstring => Some (JObject [ (str "detail", JString []) ]))
      (str "{}") = Some obj /\
    (string_property obj (str "detail") = Some [] \/
     (string_property obj (str "detail") = None /\
      string_property obj (str "message") = Some [])).
Proof.
  apply (extractErrorMessage_empty_only_from_payload
           (fun _ => Some (JObject [ (str "detail", JString []) ]))
           (str "{}")).
  reflexivity.
Defined.

(** X5.  When the body does not parse, or parses to a value without a
    string [detail] or [message], the message is the trimmed body or the
    fixed fallback: not empty, and with no white space at either end. *)
Theorem extractErrorMessage_fallback_is_clean
    (JSON_parse : jsstring -> option json) (text : jsstring) :
  (JSON_parse text = None \/
   exists obj, JSON_parse text = Some obj /\
               string_property obj (str "detail") = None /\
               string_property obj (str "message") = None) ->
  extractErrorMessage JSON_parse text <> [] /\
  trimmed (extractErrorMessage JSON_parse text) /\
  extractErrorMessage JSON_parse text
  = (if truthy (trim text) then trim text else REQUEST_FAILED).
Proof.
  intros H.
  assert (E : extractErrorMessage JSON_parse text
              = if truthy (trim text) then trim text else REQUEST_FAILED).
  { unfold extractErrorMessage.
    destruct H as [-> | (obj & -> & -> & ->)]; reflexivity. }
  rewrite E. destruct (trim text) as [|c r] eqn:Et; cbn [truthy].
  - split; [discriminate |]. split; reflexivity.
  - split; [discriminate |]. split; [| reflexivity].
    rewrite <- Et. apply trim_trimmed.
Qed.

Lemma extractErrorMessage_fallback_is_clean_witness :
  extractErrorMessage sample_parse (str "  Bad Gateway ") <> [] /\
  trimmed (extractErrorMessage sample_parse (str "  Bad Gateway ")) /\
  extractErrorMessage sample_parse (str "  Bad Gateway ")
  = (if truthy (trim (str "  Bad Gateway "))
     then trim (str "  Bad Gateway ") else REQUEST_FAILED).
Proof.
  apply (extractErrorMessage_fallback_is_clean sample_parse
           (str "  Bad Gateway ")).
  left. reflexivity.
Defined.

(* ----------------------------------------------------------------- *)
(** ** The session id *)

Lemma jsstring_eqb_eq (a b : jsstring) : jsstring_eqb a b = true <-> a = b.
Proof.
  unfold jsstring_eqb. destruct (list_eq_dec N.eq_dec a b); split;
    congruence.
Qed.

Lemma jsstring_eqb_refl (a : jsstring) : jsstring_eqb a a = true.
Proof. now apply jsstring_eqb_eq. Qed.

Lemma jsstring_eqb_neq (a b : jsstring) : jsstring_eqb a b = false <-> a <> b.
Proof.
  unfold jsstring_eqb. destruct (list_eq_dec N.eq_dec a b); split;
    congruence.
Qed.

Lemma getItem_setItem_same (k v : jsstring) (st : storage) :
  getItem k (setItem k v st) = Some v.
Proof. unfold setItem. simpl. now rewrite jsstring_eqb_refl. Qed.

Lemma getItem_setItem_other (k k' v : jsstring) (st : storage) :
  k' <> k -> getItem k' (setItem k v st) = getItem k' st.
Proof.
  intros Hne. unfold setItem. cbn [getItem].
  assert (E : jsstring_eqb k k' = false) by (apply jsstring_eqb_neq; congruence).
  rewrite E. induction st as [|[k0 v0] st IH]; simpl; auto.
  destruct (jsstring_eqb k0 k) eqn:E0; simpl.
  - apply jsstring_eqb_eq in E0. subst k0. now rewrite E.
  - destruct (jsstring_eqb k0 k'); auto.
Qed.

(** X6.  With [crypto.randomUUID] returning non-empty ids, [getSessionId]
    returns a non-empty id that is the one stored under
    [story_session_id] afterwards; a second call, whatever
    [randomUUID] would return then, gives the same id and leaves the
    storage alone; a non-empty id already stored is returned without any
    write; and no other item of the storage is touched. *)
Theorem getSessionId_is_stable (uuid1 uuid2 : jsstring) (st : storage) :
  uuid1 <> [] ->
  let sid := fst (getSessionId uuid1 st) in
  let st1 := snd (getSessionId uuid1 st) in
  sid <> [] /\
  getItem SESSION_KEY st1 = Some sid /\
  getSessionId uuid2 st1 = (sid, st1) /\
  (forall old, getItem SESSION_KEY st = Some old -> old <> [] ->
               sid = old /\ st1 = st) /\
  (forall k, k <> SESSION_KEY -> getItem k st1 = getItem k st).
Proof.
  intros Hu sid st1. unfold sid, st1, getSessionId.
  destruct (getItem SESSION_KEY st) as [old|] eqn:E.
  - destruct old as [|c r]; cbn [truthy fst snd].
    + rewrite getItem_setItem_same.
      apply truthy_true in Hu. rewrite Hu.
      apply truthy_true in Hu.
      split; [exact Hu |]. split; [reflexivity |]. split; [reflexivity |].
      split.
      * intros old [= <-] Hne. contradiction.
      * intros k Hk. now apply getItem_setItem_other.
    + rewrite E. cbn [truthy].
      split; [discriminate |]. split; [reflexivity |]. split; [reflexivity |].
      split.
      * intros old [= <-] _. auto.
      * auto.
  - cbn [fst snd]. rewrite getItem_setItem_same.
    apply truthy_true in Hu. rewrite Hu. apply truthy_true in Hu.
    split; [exact Hu |]. split; [reflexivity |]. split; [reflexivity |].
    split.
    + intros old [=].
    + intros k Hk. now apply getItem_setItem_other.
Qed.

Lemma getSessionId_is_stable_witness :
  getSessionId (str "second")
    (snd (getSessionId (str "first") [ (str "theme", str "dark") ]))
  = (str "first",
     snd (getSessionId (str "first") [ (str "theme", str "dark") ])).
Proof.
  refine (proj1 (proj2 (proj2
            (getSessionId_is_stable (str "first") (str "second")
               [ (str "theme", str "dark") ] _)))).
  discriminate.
Defined.

(* ----------------------------------------------------------------- *)
(** ** How the stream is cut into reads *)

(** X7.  What [streamNdjson] does depends on the text of the stream only,
    not on where the network cuts it into reads: two sequences of reads
    with the same text end in the same state. *)
Theorem streamNdjson_ignores_read_boundaries (J : Type)
    (JSON_parse : jsstring -> option J) (St : Type) (handler : J -> St -> St)
    (reads1 reads2 : list jsstring) (st : St) :
  concat reads1 = concat reads2 ->
  streamNdjson JSON_parse handler reads1 st
  = streamNdjson JSON_parse handler reads2 st.
Proof.
  intros E. rewrite !streamNdjson_lines. now rewrite E.
Qed.

Lemma streamNdjson_ignores_read_boundaries_witness :
  streamNdjson sample_line_parse (fun e log => log ++ [e])
    [ str "ca" ; str "b" ++ [LF] ++ str "c" ; str "d" ++ [LF] ] []
  = streamNdjson sample_line_parse (fun e log => log ++ [e])
      [ str "cab" ++ [LF] ++ str "cd" ++ [LF] ] [].
Proof.
  apply (streamNdjson_ignores_read_boundaries (list char) sample_line_parse
           (list jsstring) (fun e log => log ++ [e])).
  reflexivity.
Defined.

Lemma lines_of_app_tail (text tail : jsstring) :
  has_no_LF tail ->
  fst (lines_of (text ++ tail)) = fst (lines_of text).
Proof.
  intros Ht. destruct (lines_of_spec text) as (E & Hl & Ht0).
  rewrite <- E at 1.
  rewrite (lines_of_stream _ _ Hl Ht0 tail).
  rewrite (lines_of_tail (snd (lines_of text) ++ tail)).
  - cbn [fst]. apply app_nil_r.
  - intros Hin. apply in_app_or in Hin. destruct Hin; contradiction.
Qed.

(** X8.  Text that arrives after the last newline is never handled: reads
    followed by a last read without a newline end in the state they end
    in without it, also when that text is a complete event and the stream
    then closes. *)
Theorem streamNdjson_drops_unterminated_tail (J : Type)
    (JSON_parse : jsstring -> option J) (St : Type) (handler : J -> St -> St)
    (reads : list jsstring) (tail : jsstring) (st : St) :
  has_no_LF tail ->
  streamNdjson JSON_parse handler (reads ++ [tail]) st
  = streamNdjson JSON_parse handler reads st.
Proof.
  intros Ht. rewrite !streamNdjson_lines.
  rewrite concat_app. cbn [concat]. rewrite app_nil_r.
  now rewrite (lines_of_app_tail _ _ Ht).
Qed.

Lemma streamNdjson_drops_unterminated_tail_witness :
  streamNdjson sample_line_parse (fun e log => log ++ [e])
    ([ str "cab" ++ [LF] ] ++ [ str "cd" ]) []
  = streamNdjson sample_line_parse (fun e log => log ++ [e])
      [ str "cab" ++ [LF] ] [].
Proof.
  apply (streamNdjson_drops_unterminated_tail (list char) sample_line_parse
           (list jsstring) (fun e log => log ++ [e])).
  vm_compute. intuition discriminate.
Defined.

(* ----------------------------------------------------------------- *)
(** ** A request, from its reads to the events of the page *)

Lemma run_deliver (r : request) (evs : list evt) (s : state) :
  run s (map (Deliver r) evs) = fold_left (fun st e => onEvent r e st) evs s.
Proof.
  revert s. induction evs as [|e evs IH]; intros s; simpl; auto.
Qed.

Lemma delivered_app (a b : list event) :
  delivered (a ++ b) = delivered a ++ delivered b.
Proof.
  induction a as [|[r e| |r m|] a IH]; simpl; auto. now rewrite IH.
Qed.

Lemma delivered_deliver (r : request) (evs : list evt) :
  delivered (map (Deliver r) evs) = evs.
Proof. induction evs as [|e evs IH]; simpl; auto. now rewrite IH. Qed.

Section RequestLoopFacts.

Variable parse_event : jsstring -> option evt.

(** X9.  The read loop of a request with the handler of [newStory] or
    [sendAction], the timers firing between the reads, does to the page
    what its events do one after the other; it keeps as buffer the text
    after the last newline; and the events the handler is given are the
    parsed lines of the whole text read, whatever the cuts between the
    reads and wherever the ticks fall. *)
Theorem request_loop_is_run (r : request) (arrs : list arrival)
    (buffer : jsstring) (s : state) :
  has_no_LF buffer ->
  request_loop parse_event r arrs buffer s
  = (snd (lines_of (buffer ++ arrived arrs)),
     run s (deliveries parse_event r arrs buffer)) /\
  delivered (deliveries parse_event r arrs buffer)
  = events_of parse_event (fst (lines_of (buffer ++ arrived arrs))).
Proof.
  revert buffer s. induction arrs as [|[value|] rest IH]; intros buffer s Hb.
  - cbn [request_loop deliveries arrived run fold_left delivered].
    rewrite app_nil_r, (lines_of_tail buffer Hb). split; reflexivity.
  - cbn [request_loop deliveries arrived].
    destruct (lines_of_spec (buffer ++ value)) as (E & Hl & Ht).
    set (ls := fst (lines_of (buffer ++ value))) in *.
    set (tail := snd (lines_of (buffer ++ value))) in *.
    assert (Hd : drain parse_event (onEvent r) (S (length (buffer ++ value)))
                   (buffer ++ value) s
                 = (tail, run s (map (Deliver r) (events_of parse_event ls)))).
    { rewrite <- E at 2.
      rewrite (drain_lines _ parse_event _ (onEvent r) ls tail Hl Ht).
      - now rewrite run_deliver.
      - pose proof (stream_of_length ls tail) as Hlen. rewrite E in Hlen. lia. }
    rewrite Hd. destruct (IH tail (run s (map (Deliver r)
                                   (events_of parse_event ls))) Ht) as [I1 I2].
    assert (Hall : lines_of (buffer ++ value ++ arrived rest)
                   = (ls ++ fst (lines_of (tail ++ arrived rest)),
                      snd (lines_of (tail ++ arrived rest)))).
    { rewrite app_assoc, <- E. apply (lines_of_stream ls tail Hl Ht). }
    rewrite Hall. cbn [fst snd]. split.
    + rewrite I1, run_app. reflexivity.
    + rewrite delivered_app, delivered_deliver, I2.
      now rewrite (events_of_app _ parse_event).
  - cbn [request_loop deliveries arrived delivered].
    destruct (IH buffer (tick s) Hb) as [I1 I2]. split; [exact I1 | exact I2].
Qed.

End RequestLoopFacts.

Lemma request_loop_is_run_witness :
  request_loop (fun l => if truthy l then Some (EvChunk l) else None) NewStory
    [ Arrive (str "ab") ; Elapse ; Arrive (str "c" ++ [LF] ++ str "d") ] []
    init
  = (str "d",
     run init
       (deliveries (fun l => if truthy l then Some (EvChunk l) else None)
          NewStory
          [ Arrive (str "ab") ; Elapse ; Arrive (str "c" ++ [LF] ++ str "d") ]
          [])).
Proof.
  refine (proj1 (request_loop_is_run
                   (fun l => if truthy l then Some (EvChunk l) else None)
                   NewStory
                   [ Arrive (str "ab") ; Elapse ;
                     Arrive (str "c" ++ [LF] ++ str "d") ] [] init _)).
  intros [].
Defined.

(* ----------------------------------------------------------------- *)
(** ** The controls while a request runs *)

Lemma fire_pending_controls (s : state) :
  actionEl_value (fire_pending s) = actionEl_value s /\
  sendBtn_disabled (fire_pending s) = sendBtn_disabled s /\
  newBtn_disabled (fire_pending s) = newBtn_disabled s.
Proof.
  unfold fire_pending. destruct (pendingFinalizeFn s); [| auto].
  unfold call_finalizer, finalize_body, stopTypewriter.
  cbn [streamTimer emit set_pendingFinalizeFn].
  destruct (streamTimer s); repeat split; reflexivity.
Qed.

Lemma interval_callback_controls (p : jsstring) (f : callback) (s : state) :
  actionEl_value (interval_callback p f s) = actionEl_value s /\
  sendBtn_disabled (interval_callback p f s) = sendBtn_disabled s /\
  newBtn_disabled (interval_callback p f s) = newBtn_disabled s.
Proof.
  rewrite interval_callback_unfold.
  destruct (negb (truthy (streamQueue s))); [apply fire_pending_controls |].
  assert (R : actionEl_value (reveal p f s) = actionEl_value s /\
              sendBtn_disabled (reveal p f s) = sendBtn_disabled s /\
              newBtn_disabled (reveal p f s) = newBtn_disabled s)
    by (destruct f; repeat split; reflexivity).
  destruct (negb (truthy (streamQueue (reveal p f s)))); [| exact R].
  destruct (fire_pending_controls (reveal p f s)) as (A & B & C).
  destruct R as (A' & B' & C'). rewrite A, B, C. auto.
Qed.

Lemma tick_controls (s : state) :
  actionEl_value (tick s) = actionEl_value s /\
  sendBtn_disabled (tick s) = sendBtn_disabled s /\
  newBtn_disabled (tick s) = newBtn_disabled s.
Proof.
  unfold tick. generalize (intervals s) as l. intros l.
  assert (G : forall s',
             actionEl_value (fold_left run_interval l s') = actionEl_value s' /\
             sendBtn_disabled (fold_left run_interval l s') = sendBtn_disabled s' /\
             newBtn_disabled (fold_left run_interval l s') = newBtn_disabled s').
  { induction l as [|i l IH]; intros s'; [simpl; auto |].
    cbn [fold_left]. destruct (IH (run_interval s' i)) as (A & B & C).
    rewrite A, B, C. unfold run_interval.
    destruct (existsb _ (intervals s')); [| auto].
    apply interval_callback_controls. }
  apply G.
Qed.

Lemma onEvent_controls (r : request) (e : evt) (s : state) :
  actionEl_value (onEvent r e s) = actionEl_value s /\
  sendBtn_disabled (onEvent r e s) = sendBtn_disabled s /\
  newBtn_disabled (onEvent r e s) = newBtn_disabled s.
Proof.
  destruct e as [text|story|message|]; cbn [onEvent].
  - cbn [streamTimer set_streamQueue]. destruct (streamTimer s) eqn:E; [auto |].
    unfold startTypewriter. cbn [streamTimer set_streamRendered set_streamQueue].
    rewrite E. repeat split; reflexivity.
  - destruct (negb _); [| auto].
    destruct (fire_pending_controls
                (set_pendingFinalizeFn (Some (finalizer_of r))
                   (set_pendingFinalStory (Some (or_empty story)) s)))
      as (A & B & C).
    rewrite A, B, C. auto.
  - unfold abort_stream, stopTypewriter.
    destruct (streamTimer s); repeat split; reflexivity.
  - auto.
Qed.

Lemma abort_stream_controls (r : request) (m : jsstring) (s : state) :
  actionEl_value (abort_stream r m s) = actionEl_value s /\
  sendBtn_disabled (abort_stream r m s) = sendBtn_disabled s /\
  newBtn_disabled (abort_stream r m s) = newBtn_disabled s.
Proof.
  unfold abort_stream, stopTypewriter.
  destruct (streamTimer s); repeat split; reflexivity.
Qed.

Lemma run_controls (evs : list event) (s : state) :
  actionEl_value (run s evs) = actionEl_value s /\
  (forallb not_settled evs = true ->
   sendBtn_disabled (run s evs) = sendBtn_disabled s /\
   newBtn_disabled (run s evs) = newBtn_disabled s).
Proof.
  revert s. induction evs as [|ev evs IH]; intros s; [simpl; auto |].
  cbn [run fold_left forallb]. fold (run (step s ev) evs).
  destruct (IH (step s ev)) as [A B]. rewrite A.
  assert (S1 : actionEl_value (step s ev) = actionEl_value s /\
               (not_settled ev = true ->
                sendBtn_disabled (step s ev) = sendBtn_disabled s /\
                newBtn_disabled (step s ev) = newBtn_disabled s)).
  { destruct ev as [r e| |r m|]; cbn [step not_settled].
    - destruct (onEvent_controls r e s) as (X & Y & Z). auto.
    - destruct (tick_controls s) as (X & Y & Z). auto.
    - destruct (abort_stream_controls r m s) as (X & Y & Z). auto.
    - split; [reflexivity | discriminate]. }
  destruct S1 as [X Y]. split; [exact X |].
  intros H. apply andb_prop in H. destruct H as [H1 H2].
  destruct (B H2) as [B1 B2]. destruct (Y H1) as [Y1 Y2].
  rewrite B1, B2. auto.
Qed.

(** X10.  Nothing that happens during a request touches the controls: the
    events of the stream, the ticks of the typewriter and a failure leave
    the text of the action field as it is and the two buttons as they are;
    only the [finally] block enables the buttons, and once it has run
    nothing that follows from the stream or the timers disables them
    again. *)
Theorem controls_follow_the_request (s : state) (evs post : list event) :
  actionEl_value (run s evs) = actionEl_value s /\
  (forallb not_settled evs = true ->
   sendBtn_disabled (run s evs) = sendBtn_disabled s /\
   newBtn_disabled (run s evs) = newBtn_disabled s) /\
  (forallb not_settled post = true ->
   sendBtn_disabled (run s (evs ++ Settled :: post)) = false /\
   newBtn_disabled (run s (evs ++ Settled :: post)) = false).
Proof.
  destruct (run_controls evs s) as [A B].
  split; [exact A |]. split; [exact B |].
  intros H. rewrite run_app. cbn [run fold_left step].
  fold (run (settle (run s evs)) post).
  destruct (run_controls post (settle (run s evs))) as [_ C].
  destruct (C H) as [C1 C2]. rewrite C1, C2. auto.
Qed.

(* ----------------------------------------------------------------- *)
(** ** When the story changes *)

Lemma finalize_calls_le_refl (s : state) :
  length (finalize_calls s) <= length (finalize_calls s) /\
  (length (finalize_calls s) = length (finalize_calls s) ->
   currentStoryText s = currentStoryText s).
Proof. auto. Qed.

Lemma fire_pending_story (s : state) :
  length (finalize_calls s) <= length (finalize_calls (fire_pending s)) /\
  (length (finalize_calls (fire_pending s)) = length (finalize_calls s) ->
   currentStoryText (fire_pending s) = currentStoryText s).
Proof.
  unfold fire_pending. destruct (pendingFinalizeFn s) as [fn|]; [| auto].
  assert (Tr : trace (call_finalizer fn (set_pendingFinalizeFn None s))
               = trace s ++ [Finalize fn (streamQueue s) (streamRendered s)]).
  { unfold call_finalizer, finalize_body, stopTypewriter.
    cbn [streamTimer emit set_pendingFinalizeFn].
    destruct (streamTimer s); reflexivity. }
  rewrite (finalize_calls_app _ _ _ Tr). cbn [filter is_finalize].
  rewrite length_app. cbn [length]. split; lia.
Qed.

Lemma reveal_story (p : jsstring) (f : callback) (s : state) :
  finalize_calls (reveal p f s) = finalize_calls s /\
  currentStoryText (reveal p f s) = currentStoryText s.
Proof.
  destruct (reveal_fields p f s) as (_ & _ & Tr & _).
  rewrite (finalize_calls_app _ _ _ Tr). cbn [filter is_finalize].
  rewrite app_nil_r. destruct f. split; reflexivity.
Qed.

Lemma interval_callback_story (p : jsstring) (f : callback) (s : state) :
  length (finalize_calls s)
  <= length (finalize_calls (interval_callback p f s)) /\
  (length (finalize_calls (interval_callback p f s))
   = length (finalize_calls s) ->
   currentStoryText (interval_callback p f s) = currentStoryText s).
Proof.
  rewrite interval_callback_unfold.
  destruct (negb (truthy (streamQueue s))); [apply fire_pending_story |].
  destruct (reveal_story p f s) as [A B].
  destruct (negb (truthy (streamQueue (reveal p f s)))).
  - destruct (fire_pending_story (reveal p f s)) as [C D].
    rewrite A, B in *. auto.
  - rewrite A, B. auto.
Qed.

Lemma tick_story (s : state) :
  length (finalize_calls s) <= length (finalize_calls (tick s)) /\
  (length (finalize_calls (tick s)) = length (finalize_calls s) ->
   currentStoryText (tick s) = currentStoryText s).
Proof.
  unfold tick. generalize (intervals s) as l. intros l. revert s.
  induction l as [|i l IH]; intros s; [simpl; auto |].
  cbn [fold_left]. destruct (IH (run_interval s i)) as [A B].
  assert (S1 : length (finalize_calls s)
               <= length (finalize_calls (run_interval s i)) /\
               (length (finalize_calls (run_interval s i))
                = length (finalize_calls s) ->
                currentStoryText (run_interval s i) = currentStoryText s)).
  { unfold run_interval. destruct (existsb _ (intervals s)); [| auto].
    apply interval_callback_story. }
  destruct S1 as [C D]. split; [lia |].
  intros H. rewrite B by lia. apply D. lia.
Qed.

Lemma abort_stream_story (r : request) (m : jsstring) (s : state) :
  finalize_calls (abort_stream r m s) = finalize_calls s /\
  currentStoryText (abort_stream r m s) = currentStoryText s.
Proof.
  unfold finalize_calls, abort_stream, stopTypewriter.
  destruct (streamTimer s); split; reflexivity.
Qed.

Lemma step_story (s : state) (ev : event) :
  length (finalize_calls s) <= length (finalize_calls (step s ev)) /\
  (length (finalize_calls (step s ev)) = length (finalize_calls s) ->
   currentStoryText (step s ev) = currentStoryText s).
Proof.
  destruct ev as [r [text|story|message|]| |r m|]; cbn [step onEvent].
  - cbn [streamTimer set_streamQueue]. destruct (streamTimer s) eqn:E.
    + split; [apply Nat.le_refl | reflexivity].
    + unfold startTypewriter, finalize_calls.
      cbn [streamTimer set_streamRendered set_streamQueue]. rewrite E.
      split; [apply Nat.le_refl | reflexivity].
  - destruct (negb _).
    + apply (fire_pending_story
               (set_pendingFinalizeFn (Some (finalizer_of r))
                  (set_pendingFinalStory (Some (or_empty story)) s))).
    + split; [apply Nat.le_refl | reflexivity].
  - destruct (abort_stream_story r
                (or_default message (str "Unknown error.")) s) as [A B].
    rewrite A, B. auto.
  - auto.
  - apply tick_story.
  - destruct (abort_stream_story r m s) as [A B]. rewrite A, B. auto.
  - unfold settle, finalize_calls. cbn [trace emit set_buttons_disabled].
    rewrite filter_app. cbn [filter is_finalize]. rewrite app_nil_r. auto.
Qed.

Lemma run_story (evs : list event) (s : state) :
  length (finalize_calls s) <= length (finalize_calls (run s evs)) /\
  (length (finalize_calls (run s evs)) = length (finalize_calls s) ->
   currentStoryText (run s evs) = currentStoryText s).
Proof.
  revert s. induction evs as [|ev evs IH]; intros s; [simpl; auto |].
  cbn [run fold_left]. fold (run (step s ev) evs).
  destruct (IH (step s ev)) as [A B]. destruct (step_story s ev) as [C D].
  split; [lia |]. intros H. rewrite B by lia. apply D. lia.
Qed.

(** X11.  [currentStoryText] changes only when a finalize function is
    called: over any events during which none is called (chunks, ticks,
    error events, a failed request, the [finally] block, also a [final]
    line whose function is discarded before the queue drains) the story
    the next turn builds on is what it was. *)
Theorem story_changes_only_by_finalize (s : state) (evs : list event) :
  finalize_calls (run s evs) = finalize_calls s ->
  currentStoryText (run s evs) = currentStoryText s.
Proof.
  intros H. apply (proj2 (run_story evs s)). now rewrite H.
Qed.

Lemma story_changes_only_by_finalize_witness :
  currentStoryText
    (run (loadStory (Some (str "Once.")) init)
       [ Deliver NewStory (EvChunk (str "abcd")) ; Tick ;
         Deliver NewStory (EvFinal (Some (str "abcd"))) ;
         Deliver NewStory (EvError None) ; Tick ; Settled ])
  = currentStoryText (loadStory (Some (str "Once.")) init).
Proof.
  apply (story_changes_only_by_finalize (loadStory (Some (str "Once.")) init)).
  reflexivity.
Defined.

(* ----------------------------------------------------------------- *)
(** ** The story on the page *)

Lemma shows_rendered (s : state) :
  storyEl s = renderStory_view (currentStoryText s) -> shows_current_story s.
Proof. unfold shows_current_story. intros H. destruct (storyEl s); auto. Qed.

Lemma shows_progress (s : state) (t : jsstring) :
  storyEl s = ProgressView t -> shows_current_story s.
Proof. unfold shows_current_story. now intros ->. Qed.

Lemma shows_same (s s' : state) :
  storyEl s' = storyEl s -> currentStoryText s' = currentStoryText s ->
  shows_current_story s -> shows_current_story s'.
Proof. unfold shows_current_story. now intros -> ->. Qed.

Lemma fire_pending_shows (s : state) :
  shows_current_story s -> shows_current_story (fire_pending s).
Proof.
  intros H. unfold fire_pending. destruct (pendingFinalizeFn s); [| exact H].
  apply shows_rendered.
  unfold call_finalizer, finalize_body, stopTypewriter.
  cbn [streamTimer emit set_pendingFinalizeFn].
  destruct (streamTimer s); reflexivity.
Qed.

Lemma interval_callback_shows (p : jsstring) (f : callback) (s : state) :
  shows_current_story s -> shows_current_story (interval_callback p f s).
Proof.
  intros H. rewrite interval_callback_unfold.
  destruct (negb (truthy (streamQueue s))); [now apply fire_pending_shows |].
  assert (R : shows_current_story (reveal p f s)).
  { destruct f. eapply shows_progress. reflexivity. }
  destruct (negb (truthy (streamQueue (reveal p f s)))); [| exact R].
  now apply fire_pending_shows.
Qed.

Lemma tick_shows (s : state) :
  shows_current_story s -> shows_current_story (tick s).
Proof.
  unfold tick. generalize (intervals s) as l. intros l. revert s.
  induction l as [|i l IH]; intros s H; [exact H |].
  cbn [fold_left]. apply IH. unfold run_interval.
  destruct (existsb _ (intervals s)); [| exact H].
  now apply interval_callback_shows.
Qed.

Lemma abort_stream_shows (r : request) (m : jsstring) (s : state) :
  shows_current_story (abort_stream r m s).
Proof.
  eapply shows_progress. unfold abort_stream. reflexivity.
Qed.

Lemma step_shows (s : state) (ev : event) :
  shows_current_story s -> shows_current_story (step s ev).
Proof.
  intros H. destruct ev as [r [text|story|message|]| |r m|];
    cbn [step onEvent].
  - cbn [streamTimer set_streamQueue]. destruct (streamTimer s) eqn:E.
    + exact H.
    + apply (shows_same s); [| | exact H];
        unfold startTypewriter;
        cbn [streamTimer set_streamRendered set_streamQueue]; rewrite E;
        reflexivity.
  - destruct (negb _); [apply fire_pending_shows |]; exact H.
  - apply abort_stream_shows.
  - exact H.
  - now apply tick_shows.
  - apply abort_stream_shows.
  - exact H.
Qed.

(** X12.  Whenever the page shows a story with its choice buttons, they are
    the rendering of [currentStoryText], the text the next turn builds on:
    [loadStory] brings this about, and no event of a stream, tick, failure,
    click on a button or start of a request undoes it. *)
Theorem page_shows_current_story (s : state) (evs : list event) :
  (forall data_story s', shows_current_story (loadStory data_story s')) /\
  (shows_current_story s ->
   shows_current_story (run s evs) /\
   shows_current_story (fst (sendAction s)) /\
   shows_current_story (fst (newStory s)) /\
   forall b, shows_current_story (fst (clickChoice b s))).
Proof.
  split.
  { intros d s'. apply shows_rendered. reflexivity. }
  intros H. split; [| split; [| split]].
  - revert s H. induction evs as [|ev evs IH]; intros s H; [exact H |].
    cbn [run fold_left]. apply IH. now apply step_shows.
  - unfold sendAction. destruct (negb _); [exact H |].
    eapply shows_progress. reflexivity.
  - eapply shows_progress. reflexivity.
  - intros b. unfold clickChoice, sendAction.
    cbn [actionEl_value set_actionEl_value]. destruct (negb _).
    + cbn [fst]. apply (shows_same s); [reflexivity | reflexivity | exact H].
    + eapply shows_progress. reflexivity.
Qed.

(* ----------------------------------------------------------------- *)
(** ** A request that succeeds *)

Lemma awaiting_period (r : request) (s0 s : state) (st total : jsstring) :
  awaiting r s0 st total s ->
  (awaiting r s0 st total (tick s) /\
   length (streamQueue (tick s)) + 2 <= length (streamQueue s)) \/
  completed r s0 st total (tick s).
Proof.
  intros [H Hst]. destruct (pending_timer _ _ _ _ H) as (h & p & f & Eh & Hi).
  pose proof (pending_period r s0 s total H) as PP.
  destruct H as (Hwf & E & Q & T & C).
  assert (Et : tick s = interval_callback p f s)
    by (rewrite (tick_one_interval s _ Hi); reflexivity).
  rewrite interval_callback_unfold in Et.
  apply truthy_true in Q. rewrite Q in Et. cbn [negb] in Et.
  destruct (reveal_fields p f s) as (A & B & Tr & _ & _ & _ & P & PS).
  assert (H1 : one_timer (reveal p f s)) by (apply reveal_one_timer, Hwf).
  assert (E1 : pendingFinalizeFn (reveal p f s) = Some (finalizer_of r))
    by congruence.
  destruct (streamQueue (reveal p f s)) as [|c q] eqn:Eq;
    cbn [truthy negb] in Et.
  - right.
    destruct (fire_pending_fields _ _ H1 E1) as (Hidle & E2 & _ & _ & CS & SE).
    rewrite <- Et in Hidle, E2, CS, SE. rewrite PS, Hst in CS, SE.
    cbn [or_empty] in CS, SE.
    destruct PP as [[PP _] | PP].
    + exfalso. destruct PP as (_ & _ & Qn & _). apply Qn. apply Hidle.
    + split; [exact PP |]. auto.
  - left. destruct PP as [[PP L] | PP].
    + split; [| exact L]. split; [exact PP |]. rewrite Et, PS. exact Hst.
    + exfalso. destruct PP as (_ & Pn & _). rewrite Et in Pn. congruence.
Qed.

Lemma completed_ticks (r : request) (s0 s : state) (st total : jsstring)
    (n : nat) :
  completed r s0 st total s -> run s (repeat Tick n) = s.
Proof. intros (_ & Hidle & _). apply run_ticks_idle, Hidle. Qed.

Lemma awaiting_ticks (r : request) (s0 : state) (st total : jsstring)
    (n : nat) :
  forall s,
  awaiting r s0 st total s ->
  (awaiting r s0 st total (run s (repeat Tick n)) /\
   length (streamQueue (run s (repeat Tick n))) + 2 * n
   <= length (streamQueue s)) \/
  completed r s0 st total (run s (repeat Tick n)).
Proof.
  induction n as [|n IH]; intros s H.
  - left. cbn [repeat run fold_left]. split; [exact H | lia].
  - cbn [repeat run fold_left step]. fold (run (tick s) (repeat Tick n)).
    destruct (awaiting_period r s0 s st total H) as [[H' L] | H'].
    + destruct (IH (tick s) H') as [[H2 L2] | H2].
      * left. split; [exact H2 | lia].
      * right. exact H2.
    + right. now rewrite (completed_ticks r s0 (tick s) st total n H').
Qed.

Lemma settle_fields (s : state) :
  streamQueue (settle s) = streamQueue s /\
  streamRendered (settle s) = streamRendered s /\
  streamTimer (settle s) = streamTimer s /\
  intervals (settle s) = intervals s /\
  nextHandle (settle s) = nextHandle s /\
  pendingFinalizeFn (settle s) = pendingFinalizeFn s /\
  pendingFinalStory (settle s) = pendingFinalStory s /\
  currentStoryText (settle s) = currentStoryText s /\
  storyEl (settle s) = storyEl s /\
  finalize_calls (settle s) = finalize_calls s /\
  sendBtn_disabled (settle s) = false /\ newBtn_disabled (settle s) = false.
Proof.
  unfold settle, finalize_calls. cbn [trace emit set_buttons_disabled].
  rewrite filter_app. cbn [filter is_finalize]. rewrite app_nil_r.
  repeat split; reflexivity.
Qed.

Lemma settle_wf (s : state) : wf s -> wf (settle s).
Proof. intros H. exact (step_wf s Settled H). Qed.

Lemma awaiting_settle (r : request) (s0 s : state) (st total : jsstring) :
  awaiting r s0 st total s -> awaiting r s0 st total (settle s).
Proof.
  intros [(Hwf & E & Q & T & C) Hst].
  destruct (settle_fields s)
    as (A1 & A2 & A3 & A4 & A5 & A6 & A7 & A8 & A9 & A10 & _).
  split; [| congruence].
  split; [now apply settle_wf |].
  rewrite A1, A2, A6, A10. auto.
Qed.

Lemma completed_settle (r : request) (s0 s : state) (st total : jsstring) :
  completed r s0 st total s -> completed r s0 st total (settle s).
Proof.
  intros ((Hwf & E & C) & (I1 & I2 & I3 & I4) & CS & SE).
  destruct (settle_fields s)
    as (A1 & A2 & A3 & A4 & A5 & A6 & A7 & A8 & A9 & A10 & _).
  split; [| split; [| split]].
  - split; [now apply settle_wf |]. rewrite A6, A10. auto.
  - unfold idle. rewrite A1, A2, A3, A4. auto.
  - congruence.
  - congruence.
Qed.

(** Once the [final] line is in, ticks before and after the [finally]
    block that suffice to drain the queue end with the story shown. *)
Lemma awaiting_resolves (r : request) (s0 s : state) (st total : jsstring)
    (n1 n2 : nat) :
  (awaiting r s0 st total s /\ length (streamQueue s) <= 2 * (n1 + n2)) \/
  completed r s0 st total s ->
  completed r s0 st total
    (run s (repeat Tick n1 ++ Settled :: repeat Tick n2)).
Proof.
  intros H. rewrite run_app. cbn [run fold_left step].
  fold (run s (repeat Tick n1)).
  fold (run (settle (run s (repeat Tick n1))) (repeat Tick n2)).
  assert (H1 : (awaiting r s0 st total (run s (repeat Tick n1)) /\
                length (streamQueue (run s (repeat Tick n1))) <= 2 * n2) \/
               completed r s0 st total (run s (repeat Tick n1))).
  { destruct H as [[H L] | H].
    - destruct (awaiting_ticks r s0 st total n1 s H) as [[H' L'] | H'].
      + left. split; [exact H' | lia].
      + right. exact H'.
    - right. now rewrite (completed_ticks r s0 s st total n1 H). }
  destruct H1 as [[H1 L1] | H1].
  - apply awaiting_settle in H1.
    destruct (settle_fields (run s (repeat Tick n1))) as (A1 & _).
    rewrite <- A1 in L1.
    destruct (awaiting_ticks r s0 st total n2 _ H1) as [[H2 L2] | H2].
    + exfalso. destruct H2 as [(_ & _ & Q & _) _].
      destruct (streamQueue (run (settle (run s (repeat Tick n1)))
                               (repeat Tick n2))); [now apply Q |].
      cbn [length] in L2. lia.
    + exact H2.
  - apply completed_settle in H1.
    now rewrite (completed_ticks r s0 _ st total n2 H1).
Qed.

Lemma final_line_outcome (r : request) (story : option jsstring)
    (ins : list input) (s0 : state) :
  idle s0 -> pendingFinalizeFn s0 = None ->
  let s := run s0 (map (event_of r) ins ++ [Deliver r (EvFinal story)]) in
  (awaiting r s0 (or_empty story) (enqueued ins) s /\
   length (streamQueue s) <= length (enqueued ins)) \/
  completed r s0 (or_empty story) (enqueued ins) s.
Proof.
  intros Hidle E s. unfold s. rewrite run_app. cbn [run fold_left step].
  fold (run s0 (map (event_of r) ins)).
  destruct (session_run r ins s0 s0 [] [] (session_begin r s0 Hidle E))
    as (ks & HA).
  cbn [app] in HA.
  set (sA := run s0 (map (event_of r) ins)) in *.
  pose proof (session_no_calls _ _ _ _ _ HA) as CA.
  pose proof (session_wf _ _ _ _ _ HA) as WA.
  pose proof (onEvent_wf r (EvFinal story) sA WA) as WF.
  destruct HA as (PA & QA & _).
  destruct (streamQueue sA) as [|c q] eqn:Eq.
  - right. rewrite app_nil_r in QA.
    rewrite (onEvent_final_empty r story sA Eq) in *.
    destruct (fire_pending_fields
                (set_pendingFinalizeFn (Some (finalizer_of r))
                   (set_pendingFinalStory (Some (or_empty story)) sA))
                (finalizer_of r) (proj1 WA) eq_refl)
      as (Hi & P & _ & Tr & CS & SE).
    cbn [trace streamQueue streamRendered pendingFinalStory
         set_pendingFinalizeFn set_pendingFinalStory or_empty] in Tr, CS, SE.
    rewrite Eq in Tr.
    split; [| auto]. split; [exact WF |]. split; [exact P |].
    rewrite (finalize_calls_app sA _ _ Tr), CA, QA. reflexivity.
  - left.
    assert (HsF : onEvent r (EvFinal story) sA
                  = set_pendingFinalizeFn (Some (finalizer_of r))
                      (set_pendingFinalStory (Some (or_empty story)) sA)).
    { cbn [onEvent streamQueue set_pendingFinalizeFn set_pendingFinalStory].
      rewrite Eq. reflexivity. }
    rewrite HsF in *.
    cbn [streamQueue set_pendingFinalizeFn set_pendingFinalStory].
    rewrite Eq. split.
    + split; [| reflexivity].
      split; [exact WF |]. split; [reflexivity |].
      cbn [streamQueue streamRendered set_pendingFinalizeFn
           set_pendingFinalStory].
      rewrite Eq. split; [discriminate |]. split; [exact QA |].
      rewrite <- CA. apply finalize_calls_same. reflexivity.
    + rewrite <- QA, length_app. cbn [length]. lia.
Qed.

Lemma ticks_not_settled (n : nat) :
  forallb not_settled (repeat Tick n) = true.
Proof. induction n; simpl; auto. Qed.

Lemma request_completes (r : request) (story : option jsstring)
    (ins : list input) (n1 n2 : nat) (s0 : state) :
  idle s0 -> pendingFinalizeFn s0 = None ->
  length (enqueued ins) <= 2 * (n1 + n2) ->
  let s := run s0 (map (event_of r) ins ++ Deliver r (EvFinal story)
                     :: repeat Tick n1 ++ Settled :: repeat Tick n2) in
  completed r s0 (or_empty story) (enqueued ins) s /\
  sendBtn_disabled s = false /\ newBtn_disabled s = false.
Proof.
  intros Hidle E L s.
  assert (Es : s = run (run s0 (map (event_of r) ins
                                  ++ [Deliver r (EvFinal story)]))
                     (repeat Tick n1 ++ Settled :: repeat Tick n2)).
  { unfold s. rewrite <- run_app, <- app_assoc. reflexivity. }
  split.
  - rewrite Es. apply awaiting_resolves.
    destruct (final_line_outcome r story ins s0 Hidle E) as [[H L'] | H].
    + left. split; [exact H | lia].
    + right. exact H.
  - rewrite Es. clear Es.
    set (sF := run s0 (map (event_of r) ins ++ [Deliver r (EvFinal story)])).
    rewrite run_app.
    change (run (run sF (repeat Tick n1)) (Settled :: repeat Tick n2))
      with (run (settle (run sF (repeat Tick n1))) (repeat Tick n2)).
    destruct (run_controls (repeat Tick n2) (settle (run sF (repeat Tick n1))))
      as [_ C].
    destruct (C (ticks_not_settled n2)) as [C1 C2]. rewrite C1, C2. auto.
Qed.

(** X13.  A request that succeeds, from the click to the end: after
    [sendAction] on a non-blank action, or [newStory], on a page at rest,
    let chunks and ticks come in any order, then the [final] line, then
    ticks, the [finally] block and ticks again, enough of them in all to
    reveal what was enqueued.  Then the finalize function has been called
    once, with the queue empty and every chunk revealed; the page shows the
    rendering of the story of the [final] line, which is [currentStoryText]
    now; the typewriter is stopped, with no interval left; and both buttons
    are enabled.  This holds whether the stream closes before or after the
    typewriter has caught up. *)
Theorem request_ends_with_final_story
    (start : state -> state * option request)
    (story : option jsstring) (ins : list input) (n1 n2 : nat) (s0 : state) :
  (start = sendAction /\ trim (actionEl_value s0) <> []) \/ start = newStory ->
  idle s0 -> pendingFinalizeFn s0 = None ->
  length (enqueued ins) <= 2 * (n1 + n2) ->
  exists r,
    snd (start s0) = Some r /\
    let s := run (fst (start s0))
               (map (event_of r) ins ++ Deliver r (EvFinal story)
                :: repeat Tick n1 ++ Settled :: repeat Tick n2) in
    finalize_calls s
    = finalize_calls s0 ++ [Finalize (finalizer_of r) [] (enqueued ins)] /\
    currentStoryText s = or_empty story /\
    storyEl s = renderStory_view (or_empty story) /\
    idle s /\ pendingFinalizeFn s = None /\
    sendBtn_disabled s = false /\ newBtn_disabled s = false.
Proof.
  intros Hstart Hidle E L.
  assert (H1 : exists r, snd (start s0) = Some r /\
                         idle (fst (start s0)) /\
                         pendingFinalizeFn (fst (start s0)) = None /\
                         finalize_calls (fst (start s0)) = finalize_calls s0).
  { destruct Hidle as (I1 & I2 & I3 & I4).
    destruct Hstart as [[-> Ha] | ->].
    - apply truthy_true in Ha. unfold sendAction. rewrite Ha. cbn [negb].
      eexists. split; [reflexivity |]. cbn [fst].
      split; [unfold idle; cbn; auto |]. split; [exact E |].
      unfold finalize_calls. cbn [trace emit renderStoryProgress set_storyEl
        set_actionEl_value set_buttons_disabled].
      rewrite filter_app. cbn [filter is_finalize]. now rewrite app_nil_r.
    - unfold newStory. eexists. split; [reflexivity |]. cbn [fst].
      split; [unfold idle; cbn; auto |]. split; [exact E |].
      unfold finalize_calls. cbn [trace emit renderStoryProgress set_storyEl
        set_buttons_disabled].
      rewrite filter_app. cbn [filter is_finalize]. now rewrite app_nil_r. }
  destruct H1 as (r & Hr & Hi1 & E1 & C1).
  exists r. split; [exact Hr |].
  destruct (request_completes r story ins n1 n2 (fst (start s0)) Hi1 E1 L)
    as (((_ & P & C) & Hi & CS & SE) & B1 & B2).
  cbv zeta. rewrite C, C1. auto 10.
Qed.

Lemma request_ends_with_final_story_witness :
  exists r,
    snd (sendAction (set_actionEl_value (str "go") init)) = Some r /\
    let s := run (fst (sendAction (set_actionEl_value (str "go") init)))
               (map (event_of r) [Enqueue (str "abc"); Period]
                ++ Deliver r (EvFinal (Some (str "abc")))
                :: repeat Tick 0 ++ Settled :: repeat Tick 2) in
    finalize_calls s
    = finalize_calls (set_actionEl_value (str "go") init)
      ++ [Finalize (finalizer_of r) []
            (enqueued [Enqueue (str "abc"); Period])] /\
    currentStoryText s = or_empty (Some (str "abc")) /\
    storyEl s = renderStory_view (or_empty (Some (str "abc"))) /\
    idle s /\ pendingFinalizeFn s = None /\
    sendBtn_disabled s = false /\ newBtn_disabled s = false.
Proof.
  apply (request_ends_with_final_story sendAction (Some (str "abc"))
           [Enqueue (str "abc"); Period] 0 2
           (set_actionEl_value (str "go") init)).
  - left. split; [reflexivity | discriminate].
  - repeat split.
  - reflexivity.
  - simpl. lia.
Defined.

(* ----------------------------------------------------------------- *)
(** ** A request that fails *)

Lemma thrown_text_nonempty (m : jsstring) : thrown_text m <> [].
Proof. unfold thrown_text. destruct m; simpl; discriminate. Qed.

Lemma after_abort (r : request) (m : jsstring) (s : state) (n1 n2 : nat) :
  wf s ->
  let s' := run s (Failed r m :: repeat Tick n1 ++ Settled :: repeat Tick n2) in
  storyEl s' = ProgressView (error_text r m) /\
  idle s' /\ pendingFinalizeFn s' = None /\
  currentStoryText s' = currentStoryText s /\
  finalize_calls s' = finalize_calls s /\
  sendBtn_disabled s' = false /\ newBtn_disabled s' = false.
Proof.
  intros Hwf s'.
  destruct (abort_stream_fields r m s (proj1 Hwf))
    as (Hi & P & _ & Tr & _ & V).
  destruct (abort_stream_story r m s) as [C CS].
  set (a := abort_stream r m s) in *.
  assert (E1 : run a (repeat Tick n1) = a)
    by (apply run_ticks_idle, Hi).
  destruct (settle_fields a)
    as (A1 & A2 & A3 & A4 & _ & A6 & _ & A8 & A9 & A10 & B1 & B2).
  assert (Hi' : idle (settle a)).
  { destruct Hi as (I1 & I2 & I3 & I4). unfold idle.
    rewrite A1, A2, A3, A4. auto. }
  assert (E2 : run (settle a) (repeat Tick n2) = settle a)
    by (apply run_ticks_idle, Hi').
  assert (Es : s' = settle a).
  { unfold s'.
    change (run s (Failed r m :: repeat Tick n1 ++ Settled :: repeat Tick n2))
      with (run a (repeat Tick n1 ++ Settled :: repeat Tick n2)).
    rewrite run_app, E1.
    change (run a (Settled :: repeat Tick n2))
      with (run (settle a) (repeat Tick n2)).
    exact E2. }
  rewrite Es, A6, A8, A9, A10. auto 10.
Qed.

(** X14.  A request that fails, to the end: when the response is not ok,
    whatever its body, and whatever the page was doing (text queued, a
    finalize function waiting), the [catch] block, the [finally] block and
    any ticks around them leave the page showing the error tag of the
    request followed by a message that is never empty: the message
    [extractErrorMessage] gives, or [Error] when that is empty.  The
    typewriter is stopped with no interval left, no finalize function
    waits and none was called, the story is the one before the request,
    and both buttons are enabled. *)
Theorem rejected_request_shows_error
    (JSON_parse : jsstring -> option json) (r : request) (text : jsstring)
    (s : state) (n1 n2 : nat) :
  wf s ->
  let s' := run s (rejected JSON_parse r text
                   :: repeat Tick n1 ++ Settled :: repeat Tick n2) in
  exists m,
    storyEl s' = ProgressView (error_text r m) /\
    m <> [] /\
    (extractErrorMessage JSON_parse text <> [] ->
     m = extractErrorMessage JSON_parse text) /\
    (extractErrorMessage JSON_parse text = [] -> m = str "Error") /\
    idle s' /\ pendingFinalizeFn s' = None /\
    currentStoryText s' = currentStoryText s /\
    finalize_calls s' = finalize_calls s /\
    sendBtn_disabled s' = false /\ newBtn_disabled s' = false.
Proof.
  intros Hwf s'. exists (thrown_text (extractErrorMessage JSON_parse text)).
  destruct (after_abort r (thrown_text (extractErrorMessage JSON_parse text))
              s n1 n2 Hwf) as (V & R).
  split; [exact V |]. split; [apply thrown_text_nonempty |].
  split; [| split; [| exact R]].
  - intros H. unfold thrown_text. apply truthy_true in H. now rewrite H.
  - intros H. rewrite H. reflexivity.
Qed.

Lemma rejected_request_shows_error_witness :
  exists m,
    storyEl (run sample_awaiting_final
               (rejected sample_parse NewStory sample_error_body
                :: repeat Tick 1 ++ Settled :: repeat Tick 1))
    = ProgressView (error_text NewStory m) /\ m <> [].
Proof.
  destruct (rejected_request_shows_error sample_parse NewStory
              sample_error_body sample_awaiting_final 1 1) as (m & V & N & _).
  - apply run_wf, run_wf, init_wf.
  - exists m. split; [exact V | exact N].
Defined.

(** X15.  An [error] line does not end the handling of the stream.  After
    it the page is at rest, but a chunk that follows starts the typewriter
    again and its first tick puts the first two characters of the chunk,
    after the prefix of the request, in place of the error message; and a
    [final] line that follows is finalized at once, so that its story is
    shown and becomes [currentStoryText]. *)
Theorem error_line_is_not_terminal (r : request) (message : option jsstring)
    (text : jsstring) (story : option jsstring) (s : state) :
  wf s -> text <> [] ->
  let s1 := onEvent r (EvError message) s in
  storyEl s1
  = ProgressView (error_text r (or_default message (str "Unknown error."))) /\
  storyEl (run s1 [Deliver r (EvChunk text); Tick])
  = ProgressView (prefix_of r ++ firstn 2 text) /\
  storyEl (run s1 [Deliver r (EvFinal story)])
  = renderStory_view (or_empty story) /\
  currentStoryText (run s1 [Deliver r (EvFinal story)]) = or_empty story /\
  finalize_calls (run s1 [Deliver r (EvFinal story)])
  = finalize_calls s ++ [Finalize (finalizer_of r) [] []].
Proof.
  intros Hwf Ht s1. unfold s1. cbn [onEvent].
  destruct (abort_stream_fields r (or_default message (str "Unknown error."))
              s (proj1 Hwf)) as (Hi & P & _ & Tr & _ & V).
  set (a := abort_stream r (or_default message (str "Unknown error.")) s) in *.
  destruct Hi as (I1 & I2 & I3 & I4).
  assert (Of : one_timer (set_pendingFinalizeFn (Some (finalizer_of r))
                 (set_pendingFinalStory (Some (or_empty story)) a))).
  { unfold one_timer.
    cbn [streamTimer intervals set_pendingFinalizeFn set_pendingFinalStory].
    rewrite I1. exact I2. }
  split; [exact V |]. split; [| split; [| split]].
  - cbn [run fold_left step onEvent].
    cbn [streamTimer set_streamQueue]. rewrite I1, I3. cbn [app].
    assert (O : one_timer (set_streamQueue text a)).
    { unfold one_timer. cbn [streamTimer intervals set_streamQueue].
      rewrite I1. exact I2. }
    destruct (startTypewriter_fields (prefix_of r) ShowProgress _ O)
      as (R & Q & _ & Iv & _ & _ & Pf & _).
    cbn [streamQueue pendingFinalizeFn set_streamQueue] in Q, Pf.
    rewrite P in Pf.
    set (b := startTypewriter (prefix_of r) ShowProgress
                (set_streamQueue text a)) in *.
    rewrite (tick_no_pending b _ _ _ Iv Pf), Q.
    apply truthy_true in Ht. rewrite Ht.
    unfold reveal. cbn [call_onUpdate renderStoryProgress storyEl set_storyEl
      streamRendered set_streamRendered set_streamQueue emit].
    rewrite R, Q. reflexivity.
  - cbn [run fold_left step]. rewrite (onEvent_final_empty r story a I3).
    apply (fire_pending_fields _ (finalizer_of r) Of eq_refl).
  - cbn [run fold_left step]. rewrite (onEvent_final_empty r story a I3).
    apply (fire_pending_fields _ (finalizer_of r) Of eq_refl).
  - cbn [run fold_left step]. rewrite (onEvent_final_empty r story a I3).
    destruct (fire_pending_fields _ (finalizer_of r) Of eq_refl)
      as (_ & _ & _ & Tr2 & _).
    rewrite (finalize_calls_app _ _ _ Tr2).
    cbn [streamQueue streamRendered set_pendingFinalizeFn
         set_pendingFinalStory filter is_finalize].
    rewrite I3, I4. f_equal. apply finalize_calls_same. exact Tr.
Qed.

Lemma error_line_is_not_terminal_witness :
  storyEl (run (onEvent NewStory (EvError None) sample_streaming)
             [Deliver NewStory (EvChunk (str "xyz")); Tick])
  = ProgressView (prefix_of NewStory ++ firstn 2 (str "xyz")).
Proof.
  refine (proj1 (proj2 (error_line_is_not_terminal NewStory None (str "xyz")
                          None sample_streaming _ _))).
  - apply run_wf, init_wf.
  - discriminate.
Defined.

(* ----------------------------------------------------------------- *)
(** ** The story view and its buttons *)

Lemma spaces_firstn (r : jsstring) :
  forallb isSpace (firstn (spaces r) r) = true.
Proof.
  induction r as [|c r IH]; simpl; auto.
  destruct (isSpace c) eqn:E; simpl; auto. now rewrite E.
Qed.

Lemma spaces_skipn_head (r : jsstring) (c : char) (q : jsstring) :
  skipn (spaces r) r = c :: q -> isSpace c = false.
Proof. rewrite <- trimStart_spaces. apply trimStart_head. Qed.

Lemma In_firstn {A : Type} (n : nat) (l : list A) (x : A) :
  In x (firstn n l) -> In x l.
Proof.
  revert l. induction n as [|n IH]; intros l H; [destruct H |].
  destruct l as [|y l]; [destruct H |].
  cbn [firstn] in H. destruct H as [H | H]; [now left | right; auto].
Qed.

Lemma choiceMatch_button (line : jsstring) (d : char) (payload : jsstring) :
  trimmed line ->
  choiceMatch line = Some (d, payload) ->
  well_formed_button {| b_label := line; b_action := payload |}.
Proof.
  intros Htr H. unfold choiceMatch in H.
  destruct line as [|c [|p r]]; try discriminate.
  destruct (isChoiceDigit c) eqn:Ed; cbn [andb] in H; [| discriminate].
  destruct (p =? ch ".")%N eqn:Ep; cbn [andb] in H; [| discriminate].
  destruct (spaces r =? 0) eqn:Es; cbn [negb] in H; [discriminate |].
  destruct (existsb isLineTerminator (skipn (spaces r) r)) eqn:El;
    [discriminate |].
  injection H as <- <-.
  apply N.eqb_eq in Ep. subst p. apply Nat.eqb_neq in Es.
  set (ws := firstn (spaces r) r). set (payload := skipn (spaces r) r) in *.
  assert (Er : r = ws ++ payload) by (symmetry; apply firstn_skipn).
  assert (Hws : forallb isSpace ws = true) by apply spaces_firstn.
  assert (Hne : ws <> []).
  { unfold ws. destruct r as [|x r']; [simpl in Es; congruence |].
    simpl in Es |- *. destruct (isSpace x); [discriminate | congruence]. }
  assert (Hrev : rev (c :: ch "." :: r)
                 = rev payload ++ rev ws ++ [ch "."; c]).
  { rewrite Er. cbn [rev]. rewrite rev_app_distr, <- !app_assoc.
    reflexivity. }
  assert (Hp : payload <> []).
  { intros E0. rewrite E0 in Hrev. cbn [rev app] in Hrev.
    destruct (rev ws) as [|x q] eqn:Ew.
    - apply Hne. rewrite <- (rev_involutive ws), Ew. reflexivity.
    - assert (Hx : isSpace x = true).
      { rewrite forallb_forall in Hws. apply Hws, in_rev. rewrite Ew.
        now left. }
      rewrite (trimmed_last _ x (q ++ [ch "."; c]) Htr Hrev) in Hx.
      discriminate. }
  exists c, ws. cbn [b_label b_action].
  split; [exact Ed |]. split; [exact Hne |]. split; [exact Hws |].
  split; [now rewrite <- Er |]. split; [exact Hp |].
  split; [| split; [exact Htr | exact El]].
  apply trimmed_ends.
  - intros x q E0. exact (spaces_skipn_head r x q E0).
  - intros x q E0. rewrite E0 in Hrev. cbn [app] in Hrev.
    exact (trimmed_last _ x _ Htr Hrev).
Qed.

Lemma choiceButtons_well_formed (choicesText : jsstring) (b : button) :
  In b (choiceButtons choicesText) -> well_formed_button b.
Proof.
  unfold choiceButtons. destruct (truthy choicesText); [| intros []].
  intros H. apply in_flat_map in H. destruct H as (line & Hl & Hb).
  apply In_firstn in Hl. apply filter_In in Hl. destruct Hl as [Hl _].
  apply filter_In in Hl. destruct Hl as [Hl _].
  apply in_map_iff in Hl. destruct Hl as (x & <- & _).
  destruct (choiceMatch (trim x)) as [[d payload]|] eqn:E; [| destruct Hb].
  destruct Hb as [<- | []].
  exact (choiceMatch_button (trim x) d payload (trim_trimmed x) E).
Qed.

Lemma choiceButtons_length (choicesText : jsstring) :
  length (choiceButtons choicesText) <= 3.
Proof.
  unfold choiceButtons. destruct (truthy choicesText); [| simpl; lia].
  set (ls := filter choiceTest _).
  assert (H : forall l : list jsstring,
             length (flat_map
                       (fun line =>
                          match choiceMatch line with
                          | Some (_, payload) =>
                              [ {| b_label := line; b_action := payload |} ]
                          | None => []
                          end) l) <= length l).
  { induction l as [|x l IH]; simpl; [lia |].
    rewrite length_app. destruct (choiceMatch x) as [[d p]|]; simpl; lia. }
  specialize (H (firstn 3 ls)). rewrite length_firstn in H. lia.
Qed.

(** X16.  What [renderStory] puts on the page, for any text: a transcript
    that is never empty (the placeholder stands in for an empty one) and at
    most three buttons.  Every button is labelled with a trimmed line made
    of a digit 1-3, a dot, white space and a text, and a click on it
    submits that text, which is not empty, has no white space at either end
    and holds no line terminator (so the action field takes it as it is).
    A text that is missing, empty or white space only gives the placeholder
    and no button. *)
Theorem renderStory_view_shape (text : jsstring) :
  exists transcript buttons,
    renderStory_view text = StoryView transcript buttons /\
    transcript <> [] /\
    length buttons <= 3 /\
    Forall well_formed_button buttons /\
    (trim text = [] -> transcript = NO_STORY /\ buttons = []).
Proof.
  unfold renderStory_view.
  destruct (splitStory text) as [mainText choicesText] eqn:E.
  eexists. eexists. split; [reflexivity |].
  split; [| split; [| split]].
  - destruct mainText; cbn [truthy]; discriminate.
  - apply choiceButtons_length.
  - apply Forall_forall. intros b Hb.
    exact (choiceButtons_well_formed choicesText b Hb).
  - intros Ht. unfold splitStory in E. rewrite Ht in E. cbn in E.
    injection E as <- <-. split; reflexivity.
Qed.

(** X17.  A click on any button [renderStory] has made, in any state of the
    page, submits a turn: the request goes out with the text of the button
    as the action, unchanged, the prefix shown is built from the story as
    it is at the click, both buttons are disabled and the action field is
    emptied.  No button of the page is a no-op. *)
Theorem choice_button_submits_its_text (text : jsstring) (b : button)
    (s : state) :
  In b (view_buttons (renderStory_view text)) ->
  snd (clickChoice b s)
  = Some (Turn (turn_prefix (currentStoryText s) (b_action b))) /\
  trace (fst (clickChoice b s))
  = trace s ++ [Fetch (str "/api/story/turn_stream") (Some (b_action b))] /\
  storyEl (fst (clickChoice b s))
  = ProgressView (turn_prefix (currentStoryText s) (b_action b) ++ THINKING) /\
  sendBtn_disabled (fst (clickChoice b s)) = true /\
  newBtn_disabled (fst (clickChoice b s)) = true /\
  actionEl_value (fst (clickChoice b s)) = [].
Proof.
  intros Hb.
  assert (Hw : well_formed_button b).
  { unfold renderStory_view in Hb.
    destruct (splitStory text) as [mainText choicesText].
    exact (choiceButtons_well_formed choicesText b Hb). }
  destruct Hw as (d & ws & _ & _ & _ & _ & Hne & Htr & _).
  unfold clickChoice, sendAction. cbn [actionEl_value set_actionEl_value].
  unfold trimmed in Htr. rewrite Htr.
  apply truthy_true in Hne. rewrite Hne. cbn [negb fst snd].
  repeat split.
Qed.

Lemma choice_button_submits_its_text_witness :
  snd (clickChoice {| b_label := str "2. Go right"; b_action := str "Go right" |}
         init)
  = Some (Turn (turn_prefix (currentStoryText init) (str "Go right"))).
Proof.
  refine (proj1 (choice_button_submits_its_text sample_story
                   {| b_label := str "2. Go right";
                      b_action := str "Go right" |} init _)).
  vm_compute. right. left. reflexivity.
Defined.

(* ----------------------------------------------------------------- *)
(** ** A stream that ends without a [final] line *)

Lemma session_typing (r : request) (s0 s : state) (total : jsstring)
    (ks : list nat) :
  session r s0 total ks s -> total <> [] -> typing r total s.
Proof.
  intros (P & Q & T & _) Hne. destruct (streamTimer s) as [h|] eqn:E.
  - destruct T as [_ Hi]. exists h. auto.
  - destruct T as [_ Ht]. contradiction.
Qed.

Lemma typing_chunk (r r' : request) (total text : jsstring) (s : state) :
  typing r total s -> typing r (total ++ text) (onEvent r' (EvChunk text) s).
Proof.
  intros (h & E & Hi & P & Q). cbn [onEvent streamTimer set_streamQueue].
  rewrite E. exists h.
  cbn [streamTimer intervals pendingFinalizeFn streamRendered streamQueue
       set_streamQueue].
  rewrite app_assoc, Q. auto.
Qed.

Lemma typing_tick (r : request) (total : jsstring) (s : state) :
  typing r total s ->
  typing r total (tick s) /\
  (streamQueue s <> [] ->
   storyEl (tick s)
   = ProgressView (prefix_of r ++ firstn (length (streamRendered s) + 2) total)).
Proof.
  intros (h & E & Hi & P & Q).
  rewrite (tick_no_pending s _ _ _ Hi P).
  destruct (streamQueue s) as [|c q] eqn:Eq; cbn [truthy].
  - split; [| intros H; now contradiction H].
    exists h. rewrite Eq. auto.
  - destruct (reveal_fields (prefix_of r) ShowProgress s)
      as (A & B & _ & A3 & A4 & _ & A6 & _).
    split.
    + exists h. rewrite A, B, A3, A4, A6, Eq, <- app_assoc, firstn_skipn.
      auto.
    + intros _. unfold reveal.
      cbn [call_onUpdate renderStoryProgress storyEl set_storyEl
           streamRendered set_streamRendered set_streamQueue emit slice_to].
      rewrite Eq, <- Q. change take with 2.
      rewrite firstn_app.
      replace (length (streamRendered s) + 2 - length (streamRendered s))
        with 2 by lia.
      rewrite firstn_all2 by lia. reflexivity.
Qed.

Lemma typing_inputs (r r' : request) (ins : list input) :
  forall (total : jsstring) (s : state),
  typing r total s ->
  typing r (total ++ enqueued ins) (run s (map (event_of r') ins)).
Proof.
  induction ins as [|[text|] ins IH]; intros total s H.
  - cbn [enqueued map run fold_left]. now rewrite app_nil_r.
  - cbn [enqueued map run fold_left event_of step].
    rewrite app_assoc. apply IH. now apply typing_chunk.
  - cbn [enqueued map run fold_left event_of step].
    apply IH. now apply typing_tick.
Qed.

(** X18.  A stream that carried chunks but ends without a [final] or
    [error] line leaves the typewriter running: the request is over and the
    buttons are enabled, but the interval stays registered.  The chunks of
    the next request, whichever it is, then do not start a typewriter of
    their own: they are queued behind the text of the old stream and typed
    after it, under the prefix of the old request. *)
Theorem stream_without_final_line_leaks
    (start : state -> state * option request) (r r' : request)
    (ins ins' : list input) (s0 : state) :
  start = sendAction \/ start = newStory ->
  idle s0 -> pendingFinalizeFn s0 = None -> enqueued ins <> [] ->
  let s1 := run s0 (map (event_of r) ins ++ [Settled]) in
  let s2 := run (fst (start s1)) (map (event_of r') ins') in
  sendBtn_disabled s1 = false /\ newBtn_disabled s1 = false /\
  typing r (enqueued ins) s1 /\
  typing r (enqueued ins ++ enqueued ins') s2 /\
  (streamQueue s2 <> [] ->
   storyEl (tick s2)
   = ProgressView
       (prefix_of r
        ++ firstn (length (streamRendered s2) + 2)
             (enqueued ins ++ enqueued ins'))).
Proof.
  intros Hstart Hidle E Hne s1 s2.
  destruct (session_run r ins s0 s0 [] [] (session_begin r s0 Hidle E))
    as (ks & HA).
  cbn [app] in HA. pose proof (session_typing _ _ _ _ _ HA Hne) as T0.
  assert (Es1 : s1 = settle (run s0 (map (event_of r) ins))).
  { unfold s1. rewrite run_app. reflexivity. }
  destruct (settle_fields (run s0 (map (event_of r) ins)))
    as (A1 & A2 & A3 & A4 & _ & A6 & _ & _ & _ & _ & B1 & B2).
  assert (T1 : typing r (enqueued ins) s1).
  { rewrite Es1. destruct T0 as (h & T0).
    exists h. rewrite A1, A2, A3, A4, A6. exact T0. }
  assert (T1' : typing r (enqueued ins) (fst (start s1))).
  { destruct T1 as (h & T1). exists h.
    destruct Hstart as [-> | ->].
    - unfold sendAction. destruct (negb _); exact T1.
    - exact T1. }
  pose proof (typing_inputs r r' ins' _ _ T1') as T2.
  fold s2 in T2.
  split; [now rewrite Es1 |]. split; [now rewrite Es1 |].
  split; [exact T1 |]. split; [exact T2 |].
  apply (typing_tick r _ s2 T2).
Qed.

Lemma stream_without_final_line_leaks_witness :
  typing NewStory (enqueued [Enqueue (str "abcd"); Period]
                   ++ enqueued [Enqueue (str "xy")])
    (run (fst (sendAction
                 (run (set_actionEl_value (str "go") init)
                    (map (event_of NewStory) [Enqueue (str "abcd"); Period]
                     ++ [Settled]))))
       (map (event_of (Turn (str "> You: go"))) [Enqueue (str "xy")])).
Proof.
  refine (proj1 (proj2 (proj2 (proj2
            (stream_without_final_line_leaks sendAction NewStory
               (Turn (str "> You: go"))
               [Enqueue (str "abcd"); Period] [Enqueue (str "xy")]
               (set_actionEl_value (str "go") init) _ _ _ _))))).
  - now left.
  - repeat split.
  - reflexivity.
  - discriminate.
Defined.
